(** * Device state reconciliation (state-patch v3) and the multi-layer cache

    A shallow embedding of
      - [src/src/features/device-state/routes/state-patch-v3.ts]
        (the [statePatchV3] request handler), and
      - [src/unnamed/part_001] ([multiCache], the memoizing cache wrapper),
    followed by the properties of the specification that concern them.

    JavaScript objects are association lists in enumeration order, the
    relational store is a record of row lists as the caller's credentials
    let it see them, and exceptions are an explicit error type. *)

From stdpp Require Import base option list strings gmap.
From Stdlib Require Import ZArith Lia.

Set Warnings "-clear-no-such-hyp".

Local Open Scope Z_scope.
Local Open Scope string_scope.
Local Open Scope list_scope.

(** ** JavaScript objects *)

Module Js.

(** An object with string keys: its own enumerable properties in
    [Object.keys] order. *)
Definition obj (A : Type) : Type := list (string * A).

Definition keys {A} (o : obj A) : list string := o.*1.
Definition values {A} (o : obj A) : list A := o.*2.

(** The own property [k] of [o]; [None] when [o] has none. Keys are
    strings, or numbers where an object is indexed by a numeric id. *)
Fixpoint get {K A} `{EqDecision K} (k : K) (o : list (K * A)) : option A :=
  match o with
  | [] => None
  | (k', v) :: o' => if decide (k' = k) then Some v else get k o'
  end.

(** [o[k] = v]: an existing property keeps its place, a new one goes last. *)
Fixpoint set {K A} `{EqDecision K} (k : K) (v : A) (o : list (K * A))
  : list (K * A) :=
  match o with
  | [] => [(k, v)]
  | (k', v') :: o' =>
      if decide (k' = k) then (k, v) :: o' else (k', v') :: set k v o'
  end.

(** The properties that an object created by [{}] inherits from
    [Object.prototype]. Where such an object has no own property [k],
    [o[k]] finds the inherited one: a function, or the prototype itself
    for [__proto__]; none of them is [null] or [undefined], and none has
    a method [add] or [find]. *)
Definition object_prototype : list string :=
  [ "constructor"; "__defineGetter__"; "__defineSetter__";
    "hasOwnProperty"; "__lookupGetter__"; "__lookupSetter__";
    "isPrototypeOf"; "propertyIsEnumerable"; "toString"; "valueOf";
    "__proto__"; "toLocaleString" ].

(** A property as a parsed request can have it: missing ([undefined]),
    [null], or a value. [!= null] rules out the first two; a default in
    a destructuring pattern replaces [undefined] only. *)
Inductive nullable (A : Type) : Type :=
  | Undefined
  | Null
  | Present (a : A).
Arguments Undefined {A}.
Arguments Null {A}.
Arguments Present {A} a.

(** The value of a property that passes [!= null]. *)
Definition non_null {A} (v : nullable A) : option A :=
  match v with
  | Present a => Some a
  | Undefined | Null => None
  end.

(** [Set.prototype.add] on a set kept in insertion order. *)
Definition set_add (x : string) (s : list string) : list string :=
  if decide (x ∈ s) then s else s ++ [x].

(** Truthiness of a string: only the empty string is falsy. *)
Definition truthy (s : string) : bool := negb (bool_decide (s = "")).

(** The scalar JSON values a report can carry. *)
Inductive value : Type :=
  | VNull
  | VStr (s : string)
  | VNum (n : Z)
  | VBool (b : bool).

#[global] Instance value_eq_dec : EqDecision value.
Proof. solve_decision. Defined.

End Js.

Import Js.

(** ** Exceptions *)

Inductive error : Type :=
  | BadRequestError
  | UnauthorizedError
  | InternalRequestError
  | TypeError.

#[global] Instance error_eq_dec : EqDecision error.
Proof. solve_decision. Defined.

Inductive res (A : Type) : Type :=
  | Ok (a : A)
  | Throw (e : error).
Arguments Ok {A} a.
Arguments Throw {A} e.

Definition res_bind {A B} (m : res A) (k : A → res B) : res B :=
  match m with
  | Ok a => k a
  | Throw e => Throw e
  end.

Notation "x ←! m ; k" := (res_bind m (λ x, k))
  (at level 20, m at level 100, k at level 200, only parsing).

(** A [for ... of] loop whose body may throw. *)
Fixpoint for_of {A B} (f : A → B → res A) (l : list B) (a : A) : res A :=
  match l with
  | [] => Ok a
  | b :: l' => a' ←! f a b; for_of f l' a'
  end.

(** [Object.entries(v)] and [Object.values(v)] where the pattern gives
    [v] the default [{}] (lines 278 and 288): the default replaces
    [undefined] only, and [null] has no properties to list. *)
Definition entries_or_empty {A} (v : nullable (obj A)) : res (obj A) :=
  match v with
  | Undefined => Ok []
  | Null => Throw TypeError
  | Present o => Ok o
  end.

(** ** The request body ([StatePatchV3Body]) *)

(** The entries of [apps], [releases] and [services] are objects of the
    declared shape. [apps] and [release_uuid] are only ever tested with
    [!= null], for truthiness or with [===] against a string, which do
    not tell [null] from [undefined]: [None] stands for both. [releases]
    and [services] are also given a default, which does. *)
Record Service := {
  image : string;
  status : string;
  download_progress : option Z;
}.

Record ReleaseClaim := {
  services : nullable (obj Service);
}.

Record AppClaim := {
  release_uuid : option string;
  releases : nullable (obj ReleaseClaim);
}.

(** A per-device entry: its scalar properties ([name], [status],
    [parent_device], ... and whatever else was sent) and its [apps]. *)
Record DeviceState := {
  fields : obj value;
  apps : option (obj AppClaim);
}.

(** [None] is a [null] entry. *)
Definition StatePatchV3Body : Type := obj (option DeviceState).

Definition validPatchFields : list string := [
  "status"; "os_version"; "os_variant"; "supervisor_version";
  "provisioning_progress"; "provisioning_state"; "ip_address";
  "mac_address"; "api_port"; "api_secret"; "logs_channel";
  "memory_usage"; "memory_total"; "storage_block_device";
  "storage_usage"; "storage_total"; "cpu_temp"; "cpu_usage"; "cpu_id";
  "is_undervolted"; "is_online" ].

(** ** The store *)

Record Device := {
  d_id : Z;
  d_uuid : string;
  (** [belongs_to__application[0].uuid] *)
  d_app : string;
  (** the persisted values of the patchable columns *)
  d_columns : obj value;
}.

Record Image := {
  i_id : Z;
  is_stored_at__image_location : string;
}.

Record Release := {
  r_id : Z;
  commit : string;
  (** uuid of the application the release belongs to *)
  r_app : string;
}.

Record ImageInstall := {
  ii_id : Z;
  ii_device : Z;
  installs__image : Z;
  is_provided_by__release : Z;
  ii_status : string;
  ii_download_progress : option Z;
}.

Record Store := {
  devices : list Device;
  images : list Image;
  all_releases : list Release;
  image_installs : list ImageInstall;
}.

#[global] Instance ImageInstall_eq_dec : EqDecision ImageInstall.
Proof. solve_decision. Defined.

(** ** Normalising the report (lines 113-147) *)

(** [body[uuid]], with [null] and [undefined] both read as [None]. *)
Definition state_of (body : StatePatchV3Body) (uuid : string)
  : option DeviceState :=
  mjoin (get uuid body).

(** [Object.keys(body).filter((uuid) => body[uuid] != null)] *)
Definition non_null_uuids (body : StatePatchV3Body) : list string :=
  filter (λ uuid, is_Some (state_of body uuid)) (keys body).

(** What the loops accumulate: [appReleaseUuids], whose [Set]s are kept
    as lists in insertion order, and [imageLocations]. *)
Record Collected := {
  appReleaseUuids : obj (list string);
  imageLocations : list string;
}.

(** Line 129: [appReleaseUuids[appUuid] ??= new Set()]. The object is a
    plain [{}] (line 120): under a name of [Object.prototype] the lookup
    finds the inherited property, which is not nullish, and no [Set] is
    filed. *)
Definition ensure_set (appUuid : string) (o : obj (list string))
  : obj (list string) :=
  match get appUuid o with
  | Some _ => o
  | None => if decide (appUuid ∈ object_prototype) then o
            else set appUuid [] o
  end.

(** Lines 131 and 137: [appReleaseUuids[appUuid].add(c)]. What the lookup
    finds is the [Set] filed under [appUuid], or else an inherited
    property, which has no [add]. *)
Definition add_commit (appUuid c : string) (o : obj (list string))
  : res (obj (list string)) :=
  match get appUuid o with
  | Some s => Ok (set appUuid (set_add c s) o)
  | None => Throw TypeError
  end.

(** Lines 139-141: one [push] per service. *)
Definition collect_services (svcs : obj Service) (locs : list string)
  : list string :=
  locs ++ (image <$> values svcs).

(** Lines 134-143: body of the loop over [Object.entries(releases)]. *)
Definition collect_release (appUuid : string) (acc : Collected)
    (entry : string * ReleaseClaim) : res Collected :=
  let '(releaseUuid, rc) := entry in
  o ←! add_commit appUuid releaseUuid (appReleaseUuids acc);
  Ok {| appReleaseUuids := o;
        imageLocations :=
          match non_null (services rc) with
          | Some svcs => collect_services svcs (imageLocations acc)
          | None => imageLocations acc
          end |}.

(** Lines 125-145: body of the loop over [Object.entries(apps)]. *)
Definition collect_app (acc : Collected) (entry : string * AppClaim)
  : res Collected :=
  let '(appUuid, ac) := entry in
  let o := ensure_set appUuid (appReleaseUuids acc) in
  o1 ←! (match release_uuid ac with
         | Some c => if truthy c then add_commit appUuid c o else Ok o
         | None => Ok o
         end);
  let acc1 := {| appReleaseUuids := o1;
                 imageLocations := imageLocations acc |} in
  match non_null (releases ac) with
  | Some rels => for_of (collect_release appUuid) rels acc1
  | None => Ok acc1
  end.

(** Lines 122-147: body of the loop over [uuids]. Line 123 takes [apps]
    out of [body[uuid]], which throws on [null]. *)
Definition collect_device (body : StatePatchV3Body) (acc : Collected)
    (uuid : string) : res Collected :=
  match state_of body uuid with
  | Some state =>
      match apps state with
      | Some a => for_of collect_app a acc
      | None => Ok acc
      end
  | None => Throw TypeError
  end.

Definition collect (body : StatePatchV3Body) (uuids : list string)
  : res Collected :=
  for_of (collect_device body) uuids
         {| appReleaseUuids := []; imageLocations := [] |}.

(** ** The read phase (lines 158-221) *)

(** What the read transaction leaves in [devices], [images] (which stays
    [undefined] when no location was collected) and [appReleases]. *)
Record DeviceRef := {
  ref_id : Z;
  ref_uuid : string;
  (** [belongs_to__application[0].uuid] *)
  ref_app : string;
}.

Definition device_ref (d : Device) : DeviceRef :=
  {| ref_id := d_id d; ref_uuid := d_uuid d; ref_app := d_app d |}.

Record Resolved := {
  x_devices : list DeviceRef;
  x_images : option (list Image);
  x_appReleases : obj (list Release);
}.

(** [$select: ['id', 'uuid', 'belongs_to__application'],
     $filter: { uuid: { $in: uuids } }] *)
Definition get_devices (st : Store) (uuids : list string)
  : list DeviceRef :=
  filter (λ d, ref_uuid d ∈ uuids) (device_ref <$> devices st).

(** [$filter: { is_stored_at__image_location: { $in: imageLocations } }] *)
Definition get_images (st : Store) (locs : list string) : list Image :=
  filter (λ i, is_stored_at__image_location i ∈ locs) (images st).

(** [$filter: { commit: { $in: ... }, belongs_to__application: ... }] *)
Definition get_releases (st : Store) (appUuid : string)
    (commits : list string) : list Release :=
  filter (λ r, commit r ∈ commits ∧ r_app r = appUuid) (all_releases st).

(** Lines 199-220: body of the loop over [Object.entries(appReleaseUuids)]. *)
Definition resolve_app (st : Store) (appReleases : obj (list Release))
    (entry : string * list string) : res (obj (list Release)) :=
  let '(appUuid, releaseUuids) := entry in
  let found := get_releases st appUuid releaseUuids in
  if decide (length found ≠ length releaseUuids)
  then Throw UnauthorizedError
  else Ok (set appUuid found appReleases).

Definition read_phase (st : Store) (uuids : list string) (c : Collected)
  : res Resolved :=
  let ds := get_devices st uuids in
  if decide (length ds ≠ length uuids) then Throw UnauthorizedError else
  imgs ←! (match imageLocations c with
           | [] => Ok None
           | _ :: _ =>
               let found := get_images st (imageLocations c) in
               if decide (length (imageLocations c) ≠ length found)
               then Throw UnauthorizedError
               else Ok (Some found)
           end);
  rels ←! for_of (resolve_app st) (appReleaseUuids c) [];
  Ok {| x_devices := ds; x_images := imgs; x_appReleases := rels |}.

(** ** The write phase (lines 223-357) *)

(** An element of [imgInstalls]. *)
Record ImgInstall := {
  imageId : Z;
  releaseId : Z;
  inst_status : string;
  downloadProgress : option Z;
}.

#[global] Instance ImgInstall_eq_dec : EqDecision ImgInstall.
Proof. solve_decision. Defined.

(** The store operations the handler starts, in the order in which they
    are pushed on [waitPromises]. *)
Inductive instr : Type :=
  (** [patch({resource: 'device', id, options: {$filter: {$not: body}}, body})] *)
  | PatchDevice (id : Z) (body : obj value)
  (** the task of lines 318-346: read the existing installs of the
      device among [imageIds], then upsert every element of [imgInstalls] *)
  | UpsertImageInstalls (deviceId : Z) (imageIds : list Z)
                        (imgInstalls : list ImgInstall)
  (** [deleteOldImageInstalls(resinApiTx, deviceId, imageIds)] *)
  | DeleteOldImageInstalls (deviceId : Z) (imageIds : list Z).

(** [_.pick(o, paths)]: the properties of [o] named in [paths], in the
    order of [paths]. *)
Definition pick (o : obj value) (paths : list string) : obj value :=
  omap (λ k, (λ v, (k, v)) <$> get k o) paths.

(** Lines 235-238. *)
Definition base_body (state : DeviceState) : obj value :=
  let deviceBody := pick (fields state) validPatchFields in
  match get "name" (fields state) with
  | Some v => if decide (v = VNull) then deviceBody
              else set "device_name" v deviceBody
  | None => deviceBody
  end.

(** Lines 246-248: [appReleases[userAppUuid].find((r) => r.commit ===
    apps[userAppUuid].release_uuid)]. [appReleases] has an own property
    for every key of [appReleaseUuids] and for nothing else; what the
    lookup finds otherwise is [undefined] or an inherited property, and
    calling [find] on either is a [TypeError]. The callback reads a
    property of [apps[userAppUuid]], and only runs on a non-empty list. *)
Definition running_release (appReleases : obj (list Release))
    (a : obj AppClaim) (userAppUuid : string) : res (option Release) :=
  match get userAppUuid appReleases with
  | None => Throw TypeError
  | Some rs =>
      match get userAppUuid a with
      | None => match rs with [] => Ok None | _ :: _ => Throw TypeError end
      | Some ac =>
          Ok (List.find
                (λ r, bool_decide (Some (commit r) = release_uuid ac)) rs)
      end
  end.

(** Lines 297-310: body of the loop over [Object.values(services)]. *)
Definition install_service (x : Resolved) (release : Release)
    (acc : list ImgInstall) (service : Service) : res (list ImgInstall) :=
  match x_images x with
  | None => Throw TypeError
  | Some imgs =>
      match List.find (λ i, bool_decide
               (is_stored_at__image_location i = image service)) imgs with
      | None => Throw InternalRequestError
      | Some img =>
          Ok (acc ++ [ {| imageId := i_id img;
                          releaseId := r_id release;
                          inst_status := status service;
                          downloadProgress := download_progress service |} ])
      end
  end.

(** Lines 288-311: body of the loop over [Object.entries(releases)]. The
    pattern gives [services] its default before the release is looked
    up; [Object.values(services)] comes after. *)
Definition install_release (x : Resolved) (appUuid : string)
    (acc : list ImgInstall) (entry : string * ReleaseClaim)
  : res (list ImgInstall) :=
  let '(releaseUuid, rc) := entry in
  match get appUuid (x_appReleases x) with
  | None => Throw TypeError
  | Some rs =>
      match List.find (λ r, bool_decide (commit r = releaseUuid)) rs with
      | None => Throw InternalRequestError
      | Some release =>
          svcs ←! entries_or_empty (services rc);
          for_of (install_service x release) (values svcs) acc
      end
  end.

(** Lines 274-312: body of the loop over [Object.entries(apps)]. *)
Definition install_app (x : Resolved) (acc : list ImgInstall)
    (entry : string * AppClaim) : res (list ImgInstall) :=
  let '(appUuid, ac) := entry in
  rels ←! entries_or_empty (releases ac);
  for_of (install_release x appUuid) rels acc.

Definition build_imgInstalls (x : Resolved) (a : obj AppClaim)
  : res (list ImgInstall) :=
  for_of (install_app x) a [].

(** Lines 235-252: [deviceBody] once the running release is settled. *)
Definition device_body (x : Resolved) (state : DeviceState)
    (device : DeviceRef) : res (obj value) :=
  let userAppUuid := ref_app device in
  release ←! (match apps state with
              | Some a => running_release (x_appReleases x) a userAppUuid
              | None => Ok None
              end);
  Ok (match release with
      | Some r => set "is_running__release" (VNum (r_id r)) (base_body state)
      | None => base_body state
      end).

(** Lines 254-265: the patch is pushed unless [_.isEmpty(deviceBody)]. *)
Definition push_patch (device : DeviceRef) (deviceBody : obj value)
    (waitPromises : list instr) : list instr :=
  match deviceBody with
  | [] => waitPromises
  | _ :: _ => waitPromises ++ [PatchDevice (ref_id device) deviceBody]
  end.

(** Lines 314-352: the upsert task is pushed when some image is claimed,
    the delete always. *)
Definition push_installs (device : DeviceRef) (imgInstalls : list ImgInstall)
    (waitPromises : list instr) : list instr :=
  let imageIds := imageId <$> imgInstalls in
  let wait :=
    match imageIds with
    | [] => waitPromises
    | _ :: _ =>
        waitPromises ++ [UpsertImageInstalls (ref_id device) imageIds imgInstalls]
    end in
  wait ++ [DeleteOldImageInstalls (ref_id device) imageIds].

(** Lines 230-354: one turn of the loop over [uuids]. The first component
    is [waitPromises] as the turn leaves it, also when it throws. *)
Definition process_device (body : StatePatchV3Body) (x : Resolved)
    (waitPromises : list instr) (uuid : string) : list instr * res unit :=
  match state_of body uuid with
  | None => (waitPromises, Throw TypeError)
  | Some state =>
    match List.find (λ d, bool_decide (ref_uuid d = uuid)) (x_devices x) with
    | None => (waitPromises, Throw UnauthorizedError)
    | Some device =>
      match device_body x state device with
      | Throw e => (waitPromises, Throw e)
      | Ok deviceBody =>
        let wait1 := push_patch device deviceBody waitPromises in
        match apps state with
        | None => (wait1, Ok ())
        | Some a =>
          match build_imgInstalls x a with
          | Throw e => (wait1, Throw e)
          | Ok imgInstalls => (push_installs device imgInstalls wait1, Ok ())
          end
        end
      end
    end
  end.

Fixpoint write_loop (body : StatePatchV3Body) (x : Resolved)
    (uuids : list string) (waitPromises : list instr)
  : list instr * res unit :=
  match uuids with
  | [] => (waitPromises, Ok ())
  | uuid :: rest =>
      match process_device body x waitPromises uuid with
      | (w, Ok _) => write_loop body x rest w
      | (w, Throw e) => (w, Throw e)
      end
  end.

(** ** The handler *)

Inductive outcome : Type :=
  (** thrown before [sbvrUtils.db.transaction] is reached *)
  | Rejected (e : error)
  (** thrown inside the write transaction, which is rolled back *)
  | Aborted (e : error) (issued : list instr)
  (** the write transaction commits what was issued *)
  | Committed (issued : list instr).

Definition statePatchV3 (body : StatePatchV3Body) (st : Store) : outcome :=
  let uuids := non_null_uuids body in
  match uuids with
  | [] => Rejected BadRequestError
  | _ :: _ =>
      match collect body uuids with
      | Throw e => Rejected e
      | Ok c =>
          match read_phase st uuids c with
          | Throw e => Rejected e
          | Ok x =>
              match write_loop body x uuids [] with
              | (w, Ok _) => Committed w
              | (w, Throw e) => Aborted e w
              end
          end
      end
  end.

(** Whether the write transaction was opened, and what was issued in it. *)
Definition write_tx_opened (o : outcome) : bool :=
  match o with
  | Rejected _ => false
  | Aborted _ _ | Committed _ => true
  end.

Definition issued_instrs (o : outcome) : list instr :=
  match o with
  | Rejected _ => []
  | Aborted _ w | Committed w => w
  end.

(** ** What the store does with the instructions *)

(** A column that was never written reads as [NULL]. *)
Definition column (cols : obj value) (k : string) : value :=
  default VNull (get k cols).

(** The row satisfies the patch body read as a filter: every property of
    the body equals the row's column. *)
Definition row_matches (cols : obj value) (b : obj value) : Prop :=
  Forall (λ kv, column cols kv.1 = kv.2) b.

#[global] Instance row_matches_dec cols b : Decision (row_matches cols b).
Proof. unfold row_matches. apply _. Defined.

Definition write_columns (cols : obj value) (b : obj value) : obj value :=
  foldl (λ c kv, set kv.1 kv.2 c) cols b.

(** The rows a device patch selects: the device [id'], filtered by
    [$not: body]. *)
Definition patch_selects (id' : Z) (b : obj value) (d : Device) : Prop :=
  d_id d = id' ∧ ¬ row_matches (d_columns d) b.

#[global] Instance patch_selects_dec id' b d : Decision (patch_selects id' b d).
Proof. unfold patch_selects. apply _. Defined.

Definition patch_row (b : obj value) (d : Device) : Device :=
  {| d_id := d_id d; d_uuid := d_uuid d; d_app := d_app d;
     d_columns := write_columns (d_columns d) b |}.

Definition patch_device (id' : Z) (b : obj value) (ds : list Device)
  : list Device :=
  (λ d, if decide (patch_selects id' b d) then patch_row b d else d) <$> ds.

(** Number of device rows a patch writes. *)
Definition rows_written (id' : Z) (b : obj value) (ds : list Device) : nat :=
  length (filter (patch_selects id' b) ds).

(** A row of [existingImgInstalls]: [$select: ['id', 'installs__image']]. *)
Record ExistingInstall := {
  e_id : Z;
  (** [installs__image.__id] *)
  e_image : Z;
}.

Definition existing_ref (r : ImageInstall) : ExistingInstall :=
  {| e_id := ii_id r; e_image := installs__image r |}.

(** [_.keyBy(rows, f)]: a later row replaces an earlier one under the
    same key. *)
Definition keyBy {A} (f : A → Z) (rows : list A) : list (Z * A) :=
  foldl (λ o r, set (f r) r o) [] rows.

(** A write on the [image_install] resource. *)
Inductive install_write : Type :=
  (** insert a row for (device, image) *)
  | PostImageInstall (device image release : Z) (st : string)
                     (progress : option Z)
  (** update the row [row] in place, unless it already holds the values *)
  | PatchImageInstall (row : Z) (release : Z) (st : string)
                      (progress : option Z).

(** Modelled from the spec: [upsertImageInstall] of state-patch-v2.ts,
    which is not among the sources. Section 4.3: for each candidate, if
    an existing row matches (device, image), an update instruction (only
    if the new status/progress/release actually differ); else an insert
    instruction. *)
Definition upsertImageInstall (existing : option ExistingInstall)
    (imgInstall : ImgInstall) (deviceId : Z) : install_write :=
  match existing with
  | None =>
      PostImageInstall deviceId (imageId imgInstall) (releaseId imgInstall)
        (inst_status imgInstall) (downloadProgress imgInstall)
  | Some e =>
      PatchImageInstall (e_id e) (releaseId imgInstall)
        (inst_status imgInstall) (downloadProgress imgInstall)
  end.

(** Lines 319-345: what the upsert task asks of the store, given the
    install rows it finds there. *)
Definition upsert_task (rows : list ImageInstall) (deviceId : Z)
    (imageIds : list Z) (imgInstalls : list ImgInstall)
  : list install_write :=
  let existingImgInstalls :=
    existing_ref <$>
      filter (λ r, ii_device r = deviceId ∧ installs__image r ∈ imageIds)
             rows in
  let existingImgInstallsByImage := keyBy e_image existingImgInstalls in
  (λ imgInstall,
     upsertImageInstall
       (get (imageId imgInstall) existingImgInstallsByImage)
       imgInstall deviceId) <$> imgInstalls.

(** The row differs from the values an update carries. *)
Definition install_differs (release : Z) (st : string) (progress : option Z)
    (r : ImageInstall) : Prop :=
  ¬ (is_provided_by__release r = release ∧ ii_status r = st
     ∧ ii_download_progress r = progress).

#[global] Instance install_differs_dec release st progress r :
  Decision (install_differs release st progress r).
Proof. unfold install_differs. apply _. Defined.

(** The store assigns the id of a new row. *)
Definition fresh_id (rows : list ImageInstall) : Z :=
  1 + foldr Z.max 0 (ii_id <$> rows).

Definition apply_install_write (rows : list ImageInstall)
    (w : install_write) : list ImageInstall :=
  match w with
  | PostImageInstall device image release st progress =>
      rows ++ [ {| ii_id := fresh_id rows; ii_device := device;
                   installs__image := image;
                   is_provided_by__release := release;
                   ii_status := st; ii_download_progress := progress |} ]
  | PatchImageInstall row release st progress =>
      (λ r, if decide (ii_id r = row ∧ install_differs release st progress r)
            then {| ii_id := ii_id r; ii_device := ii_device r;
                    installs__image := installs__image r;
                    is_provided_by__release := release;
                    ii_status := st; ii_download_progress := progress |}
            else r) <$> rows
  end.

(** Modelled from the spec: [deleteOldImageInstalls] of state-patch-v2.ts,
    which is not among the sources. Section 4.3: the delete set is the
    existing rows of the device whose image id is not among the device's
    currently claimed image ids, considering only the images of the
    image-id scope being reconciled - deletion is scoped to exactly the
    images looked up in 4.2. The call of line 351 hands the helper the
    handle of the transaction, the device id and the claimed image ids;
    [scope] is the image-id scope of the request the transaction belongs
    to. *)
Definition deleteOldImageInstalls (scope : list Z)
    (rows : list ImageInstall) (deviceId : Z) (imageIds : list Z)
  : list ImageInstall :=
  filter (λ r, ¬ (ii_device r = deviceId ∧ (installs__image r ∉ imageIds)
                  ∧ installs__image r ∈ scope))
         rows.

(** One instruction of a transaction whose request has the image-id
    scope [scope]. *)
Definition exec_instr (scope : list Z) (st : Store) (i : instr) : Store :=
  match i with
  | PatchDevice id' b =>
      {| devices := patch_device id' b (devices st);
         images := images st; all_releases := all_releases st;
         image_installs := image_installs st |}
  | UpsertImageInstalls deviceId imageIds imgInstalls =>
      {| devices := devices st;
         images := images st; all_releases := all_releases st;
         image_installs :=
           foldl apply_install_write (image_installs st)
             (upsert_task (image_installs st) deviceId imageIds
                          imgInstalls) |}
  | DeleteOldImageInstalls deviceId imageIds =>
      {| devices := devices st;
         images := images st; all_releases := all_releases st;
         image_installs :=
           deleteOldImageInstalls scope (image_installs st) deviceId
             imageIds |}
  end.

(** The instructions of a transaction, applied one after the other in
    the order in which they were pushed. The handler awaits them jointly;
    this is one of the schedules the store may follow. *)
Definition exec (scope : list Z) (w : list instr) (st : Store) : Store :=
  foldl (exec_instr scope) st w.

(** Device rows written while the instructions are applied. *)
Fixpoint device_writes (scope : list Z) (w : list instr) (st : Store) : nat :=
  match w with
  | [] => 0
  | i :: w' =>
      (match i with
       | PatchDevice id' b => rows_written id' b (devices st)
       | _ => 0
       end + device_writes scope w' (exec_instr scope st i))%nat
  end.


(** ** The multi-layer cache ([multiCacheMemoizee], [multiCache]) *)

Module Cache.

(** The identity of an object: one the program made, or the copy the
    cache made when it stored its [n]-th value. *)
Inductive ref : Type :=
  | Made (n : nat)
  | Cloned (n : nat).

#[global] Instance ref_eq_dec : EqDecision ref.
Proof. solve_decision. Defined.

(** [Defined]: what a memoized function resolves to when it is not
    [undefined]; [option Defined] is [Defined | undefined]. These are the
    strings, the numbers (the integers and [NaN] stand for them), the
    booleans and the objects, an object being its identity and its JSON
    text. Symbols and bigints, which JSON does not carry, are left
    out. *)
Inductive Defined : Type :=
  | DString (s : string)
  | DNumber (n : Z)
  | DNaN
  | DBoolean (b : bool)
  | DObject (r : ref) (json : string).

#[global] Instance Defined_eq_dec : EqDecision Defined.
Proof. solve_decision. Defined.

(** [a === b]: [NaN] equals nothing, objects are equal when they are the
    same object. *)
Definition strict_eq (a b : Defined) : bool :=
  match a, b with
  | DNaN, _ | _, DNaN => false
  | DObject r _, DObject r' _ => bool_decide (r = r')
  | _, _ => bool_decide (a = b)
  end.

(** [a === b] where either side may be [undefined]. *)
Definition strict_eq_opt (a b : option Defined) : bool :=
  match a, b with
  | Some v, Some w => strict_eq v w
  | None, None => true
  | _, _ => false
  end.

(** What the cache keeps of the [n]-th value it stores, and hands out on
    a hit: a primitive as it is, of an object a copy. *)
Definition clone (n : nat) (v : Defined) : Defined :=
  match v with
  | DObject _ json => DObject (Cloned n) json
  | _ => v
  end.

Section memoize.
Context {Args : Type}.

(** The deployment [version] of [lib/config]. *)
Variable version : string.

(** The cache behind [cacheManager.multiCaching]: what [get] finds under
    a key ([undefined] on a miss), how many values were stored so far,
    and how often the memoized function itself has run. *)
Record state := {
  entries : gmap string Defined;
  stores : nat;
  calls : nat;
}.

Definition empty : state := {| entries := ∅; stores := 0; calls := 0 |}.

(** [cache.wrap(key, work)]: serve the entry when there is one, else run
    [work], store what it returns and return that; [undefined] cannot be
    stored. *)
Definition wrap (key : string) (work : state → option Defined * state)
    (s : state) : option Defined * state :=
  match entries s !! key with
  | Some v => (Some v, s)
  | None =>
      let '(v, s') := work s in
      (v, match v with
          | Some d => {| entries := <[key := clone (stores s') d]> (entries s');
                         stores := S (stores s');
                         calls := calls s' |}
          | None => s'
          end)
  end.

Section multiCache.
Variable fn : Args → option Defined.
Variable cacheKey : string.
Variable normalizer : Args → string.
Variable undefinedAs : option Defined.

(** Lines 151-157. *)
Definition getKey (args : Args) : string :=
  ("cache$" +:+ version +:+ "$" +:+ cacheKey +:+ "$") +:+ normalizer args.

(** Lines 162-167: the work handed to [cache.wrap]. *)
Definition compute (args : Args) (s : state) : option Defined * state :=
  let valueToCache := fn args in
  (match valueToCache with
   | None => undefinedAs
   | Some v => Some v
   end,
   {| entries := entries s; stores := stores s; calls := S (calls s) |}).

(** Lines 158-170. *)
Definition memoizedFn (args : Args) (s : state)
  : option Defined * state :=
  let key := getKey args in
  let '(valueFromCache, s') := wrap key (compute args) s in
  (if strict_eq_opt valueFromCache undefinedAs then None
   else valueFromCache, s').

(** Lines 172-175. *)
Definition memoizedFn_delete (args : Args) (s : state) : state :=
  {| entries := delete (getKey args) (entries s);
     stores := stores s; calls := calls s |}.
End multiCache.

(** The options of [multiCacheMemoizee] that decide what it does:
    [cacheKey] (after its default [fn.name]), [undefinedAs], the two mode
    flags and the names of the options it does not know. *)
Record Options := {
  cacheKey : string;
  undefinedAs : option Defined;
  promise : bool;
  primitive : bool;
  remainingKeys : list string;
}.

(** Line 136: [usedCacheKeys[cacheKey] = true] on the plain object of
    line 102, kept as the list of its own properties. Assigning to
    [__proto__] sets no property: it would change the prototype, and
    does nothing when the value is not an object. *)
Definition take_key (cacheKey : string) (usedCacheKeys : list string)
  : list string :=
  if decide (cacheKey = "__proto__") then usedCacheKeys
  else cacheKey :: usedCacheKeys.

(** Lines 54-100 and 133-136; [None] is a thrown [Error]. The result is
    the memoized function, with [usedCacheKeys] as the call leaves it.
    Line 133 tests [usedCacheKeys[cacheKey] === true]: an inherited
    property is not [true], so only own properties count. [ttl], [max]
    and [refreshThreshold] configure the expiry of entries, which the
    cache state above does not have. *)
Definition multiCacheMemoizee (fn : Args → option Defined)
    (normalizer : Args → string) (opts : Options)
    (usedCacheKeys : list string)
  : option ((Args → state → option Defined * state) * list string) :=
  match remainingKeys opts with
  | _ :: _ => None
  | [] =>
      if negb (promise opts) then None
      else if negb (primitive opts) then None
      else if decide (cacheKey opts = "") then None
      else if decide (cacheKey opts ∈ usedCacheKeys) then None
      else Some (memoizedFn fn (cacheKey opts) normalizer
                            (undefinedAs opts),
                 take_key (cacheKey opts) usedCacheKeys)
  end.
End memoize.
End Cache.

(** ** Vocabulary of the properties *)

(** The exception a request ends with, if any. *)
Definition thrown (o : outcome) : option error :=
  match o with
  | Rejected e | Aborted e _ => Some e
  | Committed _ => None
  end.

(** The only ways an instruction enters [waitPromises]. *)
Inductive pushed (body : StatePatchV3Body) (x : Resolved) : instr → Prop :=
  | pushed_patch uuid state device b k v rest :
      state_of body uuid = Some state →
      List.find (λ d, bool_decide (ref_uuid d = uuid)) (x_devices x)
        = Some device →
      device_body x state device = Ok b →
      b = (k, v) :: rest →
      pushed body x (PatchDevice (ref_id device) b)
  | pushed_upsert uuid state device a c cs :
      state_of body uuid = Some state →
      List.find (λ d, bool_decide (ref_uuid d = uuid)) (x_devices x)
        = Some device →
      apps state = Some a →
      build_imgInstalls x a = Ok (c :: cs) →
      pushed body x (UpsertImageInstalls (ref_id device)
                       (imageId <$> c :: cs) (c :: cs))
  | pushed_delete uuid state device a cs :
      state_of body uuid = Some state →
      List.find (λ d, bool_decide (ref_uuid d = uuid)) (x_devices x)
        = Some device →
      apps state = Some a →
      build_imgInstalls x a = Ok cs →
      pushed body x (DeleteOldImageInstalls (ref_id device)
                       (imageId <$> cs)).

(** The device fields a patch may carry. *)
Definition writable_field (k : string) : Prop :=
  k ∈ validPatchFields ∨ k = "device_name" ∨ k = "is_running__release".

(** What a batch refers to. *)

(** The device [uuid] has a non-null entry. *)
Definition references_device (body : StatePatchV3Body) (uuid : string)
  : Prop :=
  is_Some (state_of body uuid).

(** Some device entry has [ac] under [appUuid] in its [apps]. *)
Definition claims_app (body : StatePatchV3Body) (appUuid : string)
    (ac : AppClaim) : Prop :=
  ∃ uuid state a,
    state_of body uuid = Some state ∧ apps state = Some a
    ∧ (appUuid, ac) ∈ a.

(** The claim names the commit [c], as its [release_uuid] or as a key of
    its [releases]. *)
Definition names_commit (ac : AppClaim) (c : string) : Prop :=
  (release_uuid ac = Some c ∧ c ≠ "")
  ∨ ∃ rels rc, releases ac = Present rels ∧ (c, rc) ∈ rels.

(** The commit [c] is named under the application [appUuid]. *)
Definition references_commit (body : StatePatchV3Body) (appUuid c : string)
  : Prop :=
  ∃ ac, claims_app body appUuid ac ∧ names_commit ac c.

(** Some service of the batch runs the image at [loc]. *)
Definition references_image (body : StatePatchV3Body) (loc : string)
  : Prop :=
  ∃ appUuid ac rels releaseUuid rc svcs name svc,
    claims_app body appUuid ac ∧ releases ac = Present rels
    ∧ (releaseUuid, rc) ∈ rels ∧ services rc = Present svcs
    ∧ (name, svc) ∈ svcs ∧ image svc = loc.

(** What resolves in the store as the caller sees it. *)
Definition device_resolves (st : Store) (uuid : string) : Prop :=
  ∃ d, d ∈ devices st ∧ d_uuid d = uuid.

Definition image_resolves (st : Store) (loc : string) : Prop :=
  ∃ i, i ∈ images st ∧ is_stored_at__image_location i = loc.

Definition commit_resolves (st : Store) (appUuid c : string) : Prop :=
  ∃ r, r ∈ all_releases st ∧ r_app r = appUuid ∧ commit r = c.

(** The keys of the data model (section 3): a device is identified by its
    uuid and by its id, an image by its location, a release by its commit
    within its application. *)
Record store_ok (st : Store) : Prop := {
  uuid_unique : NoDup (d_uuid <$> devices st);
  id_unique : NoDup (d_id <$> devices st);
  location_unique : NoDup (is_stored_at__image_location <$> images st);
  commit_unique : NoDup ((λ r, (r_app r, commit r)) <$> all_releases st);
}.

(** The error of a request that names something that does not resolve:
    that of the count checks, unless the normalizer has thrown before
    they are reached. *)
Definition rejection (body : StatePatchV3Body) : error :=
  match collect body (non_null_uuids body) with
  | Ok _ => UnauthorizedError
  | Throw _ => TypeError
  end.

(** One accumulator holds at least what the other holds. *)
Definition grows (c c' : Collected) : Prop :=
  (∀ app s, get app (appReleaseUuids c) = Some s →
     ∃ s', get app (appReleaseUuids c') = Some s' ∧ s ⊆ s')
  ∧ imageLocations c ⊆ imageLocations c'.

(** The commit [r] is in the set of the application [app]. *)
Definition commit_collected (c : Collected) (app r : string) : Prop :=
  ∃ s, get app (appReleaseUuids c) = Some s ∧ r ∈ s.

(** The accumulator holds everything the [apps] entry refers to. *)
Definition covers_app (c : Collected) (entry : string * AppClaim) : Prop :=
  (entry.1 ∉ object_prototype → is_Some (get entry.1 (appReleaseUuids c)))
  ∧ (∀ r, names_commit entry.2 r → commit_collected c entry.1 r)
  ∧ (∀ rels r rc svcs name svc,
       releases entry.2 = Present rels → (r, rc) ∈ rels →
       services rc = Present svcs → (name, svc) ∈ svcs →
       image svc ∈ imageLocations c).

Definition covers_device (body : StatePatchV3Body) (c : Collected)
    (uuid : string) : Prop :=
  ∀ state a, state_of body uuid = Some state → apps state = Some a →
    ∀ entry, entry ∈ a → covers_app c entry.

(** The ids of the devices that the patches of a transaction address. *)
Definition patch_ids (w : list instr) : list Z :=
  omap (λ i, match i with PatchDevice id' _ => Some id' | _ => None end) w.

(** No patch of [w] would write a row of [ds] any more. *)
Definition settled (w : list instr) (ds : list Device) : Prop :=
  ∀ id' b d, PatchDevice id' b ∈ w → d ∈ ds → d_id d = id' →
    row_matches (d_columns d) b.

(** The id the write loop finds for a uuid. *)
Definition device_id_of (x : Resolved) (uuid : string) : option Z :=
  ref_id <$> List.find (λ d, bool_decide (ref_uuid d = uuid)) (x_devices x).

(** The device an instruction addresses. *)
Definition instr_device (i : instr) : Z :=
  match i with
  | PatchDevice id' _ => id'
  | UpsertImageInstalls deviceId _ _ => deviceId
  | DeleteOldImageInstalls deviceId _ => deviceId
  end.



(** Inputs used to exercise the properties. *)
Module Example.
Definition svc (loc : string) : Service :=
  {| image := loc; status := "Running"; download_progress := None |}.

Definition claim (app rel loc : string) : obj AppClaim :=
  [(app, {| release_uuid := Some rel;
            releases :=
              Present [(rel, {| services :=
                                  Present [("main", svc loc)] |})] |})].

(** The report of section 8, with a [parent_device] and a [name]. *)
Definition state1 : DeviceState :=
  {| fields := [("status", VStr "Idle"); ("parent_device", VNum 3);
                ("name", VStr "kitchen")];
     apps := Some (claim "a1" "r1" "img-loc-1") |}.

Definition body1 : StatePatchV3Body := [("d1", Some state1)].

Definition device1 : Device :=
  {| d_id := 1; d_uuid := "d1"; d_app := "a1"; d_columns := [] |}.

Definition device2 : Device :=
  {| d_id := 2; d_uuid := "d2"; d_app := "a1"; d_columns := [] |}.

Definition store1 : Store :=
  {| devices := [ device1; device2 ];
     images := [ {| i_id := 9; is_stored_at__image_location := "img-loc-1" |};
                 {| i_id := 10; is_stored_at__image_location := "img-loc-2" |} ];
     all_releases := [ {| r_id := 5; commit := "r1"; r_app := "a1" |};
                       {| r_id := 6; commit := "r2"; r_app := "a2" |} ];
     image_installs := [] |}.

(** What the normalizer collects for [body1]. *)
Definition collected1 : Collected :=
  {| appReleaseUuids := [("a1", ["r1"])]; imageLocations := ["img-loc-1"] |}.

(** What the read phase resolves for [body1] on [store1], and the device
    patch and the instructions that follow. *)
Definition resolved1 : Resolved :=
  {| x_devices := [ {| ref_id := 1; ref_uuid := "d1"; ref_app := "a1" |} ];
     x_images := Some [ {| i_id := 9;
                           is_stored_at__image_location := "img-loc-1" |} ];
     x_appReleases := [("a1", [ {| r_id := 5; commit := "r1";
                                   r_app := "a1" |} ])] |}.

Definition patch1 : obj value :=
  [("status", VStr "Idle"); ("device_name", VStr "kitchen");
   ("is_running__release", VNum 5)].

Definition install_claim1 : ImgInstall :=
  {| imageId := 9; releaseId := 5; inst_status := "Running";
     downloadProgress := None |}.

Definition instrs1 : list instr :=
  [ PatchDevice 1 patch1;
    UpsertImageInstalls 1 [9] [install_claim1];
    DeleteOldImageInstalls 1 [9] ].

(** Two devices of one application run the same image. *)
Definition body_shared : StatePatchV3Body :=
  [("d1", Some {| fields := [("status", VStr "Idle")];
                  apps := Some (claim "a1" "r1" "img-loc-1") |});
   ("d2", Some {| fields := [("status", VStr "Idle")];
                  apps := Some (claim "a1" "r1" "img-loc-1") |})].

(** Each of the two alone. *)
Definition body_shared_1 : StatePatchV3Body := take 1 body_shared.
Definition body_shared_2 : StatePatchV3Body := drop 1 body_shared.

(** Two devices, the first runs the image 9 and the second the image 10. *)
Definition body_two : StatePatchV3Body :=
  [("d1", Some {| fields := [("status", VStr "Idle")];
                  apps := Some (claim "a1" "r1" "img-loc-1") |});
   ("d2", Some {| fields := [("status", VStr "Idle")];
                  apps := Some (claim "a1" "r1" "img-loc-2") |})].


Definition resolved_two : Resolved :=
  {| x_devices := [ {| ref_id := 1; ref_uuid := "d1"; ref_app := "a1" |};
                    {| ref_id := 2; ref_uuid := "d2"; ref_app := "a1" |} ];
     x_images := Some [ {| i_id := 9;
                           is_stored_at__image_location := "img-loc-1" |};
                        {| i_id := 10;
                           is_stored_at__image_location := "img-loc-2" |} ];
     x_appReleases := [("a1", [ {| r_id := 5; commit := "r1";
                                   r_app := "a1" |} ])] |}.

Definition patch_two : obj value :=
  [("status", VStr "Idle"); ("is_running__release", VNum 5)].



(** A device of [a1] that reports on the application [a2] only, what the
    normalizer collects for it and what the read phase resolves for it on
    [store1]. *)
Definition body_other_app : StatePatchV3Body :=
  [("d1", Some {| fields := [("status", VStr "Idle")];
                  apps := Some (claim "a2" "r2" "img-loc-2") |})].

Definition collected_other_app : Collected :=
  {| appReleaseUuids := [("a2", ["r2"])]; imageLocations := ["img-loc-2"] |}.

Definition resolved_other_app : Resolved :=
  {| x_devices := [ {| ref_id := 1; ref_uuid := "d1"; ref_app := "a1" |} ];
     x_images := Some [ {| i_id := 10;
                           is_stored_at__image_location := "img-loc-2" |} ];
     x_appReleases := [("a2", [ {| r_id := 6; commit := "r2";
                                   r_app := "a2" |} ])] |}.

(** A device of [a1] that names, as the release it runs, a commit of
    [a2]. *)
Definition state_foreign_commit : DeviceState :=
  {| fields := [("status", VStr "Idle")];
     apps := Some [("a1", {| release_uuid := Some "r2";
                             releases := Undefined |})] |}.

Definition body_foreign_commit : StatePatchV3Body :=
  [("d1", Some state_foreign_commit)].

(** A device of [a1] that names a commit of [a2] as the release it
    runs, and a commit under the application key [toString]. *)
Definition apps_inherited_commit : obj AppClaim :=
  [("a1", {| release_uuid := Some "r2"; releases := Undefined |});
   ("toString", {| release_uuid := Some "zz"; releases := Undefined |})].

Definition state_inherited_commit : DeviceState :=
  {| fields := [("status", VStr "Idle")];
     apps := Some apps_inherited_commit |}.

Definition body_inherited_commit : StatePatchV3Body :=
  [("d1", Some state_inherited_commit)].




(** A device that reports on its application without any service. *)
Definition body_no_service : StatePatchV3Body :=
  [("d1", Some {| fields := [("status", VStr "Idle")];
                  apps := Some [("a1", {| release_uuid := None;
                                          releases := Undefined |})] |})].

(** Only [null] entries. *)
Definition body_null : StatePatchV3Body := [("d1", None)].


(** The report of section 8 with [releases: null]. *)
Definition apps_null_releases : obj AppClaim :=
  [("a1", {| release_uuid := Some "r1"; releases := Null |})].

Definition body_null_releases : StatePatchV3Body :=
  [("d1", Some {| fields := [("status", VStr "Idle")];
                  apps := Some apps_null_releases |})].
End Example.

(** Vocabulary of the cache properties. *)
Module CacheSpec.
Import Cache.

(** A primitive other than [NaN]: a value that [===] finds again in the
    copy the cache has of it. *)
Definition plain (v : Defined) : Prop :=
  match v with
  | DNaN | DObject _ _ => False
  | _ => True
  end.

(** The same value, up to the identity of an object. *)
Definition alike (v w : Defined) : Prop :=
  match v, w with
  | DObject _ json, DObject _ json' => json = json'
  | DObject _ _, _ | _, DObject _ _ => False
  | _, _ => v = w
  end.

Section spec.
Context {Args : Type}.
Variable version : string.
Variable fn : Args → option Defined.
Variable cacheKey : string.
Variable normalizer : Args → string.
Variable sentinel : Defined.

(** What the cache holds for a result: the sentinel for [undefined]. *)
Definition stored (v : option Defined) : Defined := default sentinel v.

(** What a caller is to see of a result: the sentinel reads as
    [undefined]. *)
Definition observed (v : option Defined) : option Defined :=
  if decide (v = Some sentinel) then None else v.

(** Every entry of the cache is a copy of what the memoized function
    yields for the arguments filed under its key. *)
Definition coherent (s : Cache.state) : Prop :=
  ∀ args d,
    Cache.entries s !! Cache.getKey version cacheKey normalizer args
      = Some d →
    alike d (stored (fn args)).
End spec.

(** A memoized function on numbers: [undefined] on 0, itself elsewhere;
    -1 stands for [undefined] in the cache. *)
Definition lookup_fn (n : Z) : option Defined :=
  if decide (n = 0) then None else Some (DNumber n).

Definition lookup_opts : Cache.Options :=
  {| Cache.cacheKey := "lookup"; Cache.undefinedAs := Some (DNumber (-1));
     Cache.promise := true; Cache.primitive := true;
     Cache.remainingKeys := [] |}.

(** The same options under the cache key [__proto__]. *)
Definition proto_opts : Cache.Options :=
  {| Cache.cacheKey := "__proto__";
     Cache.undefinedAs := Some (DNumber (-1));
     Cache.promise := true; Cache.primitive := true;
     Cache.remainingKeys := [] |}.

Definition lookup_normalizer (n : Z) : string :=
  if decide (n = 0) then "0" else "n".

(** A function that the normalizer above memoizes soundly: it tells 0
    from the other numbers and nothing else. *)
Definition lookup_fn_coarse (n : Z) : option Defined :=
  if decide (n = 0) then None else Some (DNumber 1).

Definition lookup_memo : Z → Cache.state → option Defined * Cache.state :=
  Cache.memoizedFn "1" lookup_fn "lookup" lookup_normalizer
    (Some (DNumber (-1))).

(** A function that is [undefined] everywhere, memoized with the array
    [[0]] as its sentinel. *)
Definition array_sentinel : Defined := DObject (Made 0) "[0]".

Definition undefined_fn (n : Z) : option Defined := None.

Definition undefined_memo : Z → Cache.state → option Defined * Cache.state :=
  Cache.memoizedFn "1" undefined_fn "nothing" lookup_normalizer
    (Some array_sentinel).
End CacheSpec.

(** ** Vocabulary of the further properties *)

(** The body without its [null] entries. *)
Definition drop_null (body : StatePatchV3Body) : StatePatchV3Body :=
  filter (λ kv, is_Some kv.2) body.

(** The request got through the read phase. *)
Definition read_phase_passes (st : Store) (uuids : list string)
    (c : Collected) : Prop :=
  ∃ x, read_phase st uuids c = Ok x.

(** The services an [apps] object reports, in the order of the loops of
    lines 274-312. *)
Definition reported_services (a : obj AppClaim) : list Service :=
  '(_, ac) ← a;
  '(_, rc) ← default [] (non_null (releases ac));
  values (default [] (non_null (services rc))).

(** What an install candidate takes over from the service it is built
    from. *)
Definition install_report (c : ImgInstall) : string * option Z :=
  (inst_status c, downloadProgress c).

Definition service_report (s : Service) : string * option Z :=
  (status s, download_progress s).

(** The instructions one turn of the write loop pushes. *)
Definition device_instrs (body : StatePatchV3Body) (x : Resolved)
    (uuid : string) : list instr :=
  (process_device body x [] uuid).1.

(** The string has no [$] in it. *)
Fixpoint no_dollar (s : string) : bool :=
  match s with
  | EmptyString => true
  | String a s' =>
      negb (bool_decide (a = Ascii.ascii_of_nat 36)) && no_dollar s'
  end.

(** Everything in the accumulator is referred to by the batch, its
    commit sets are sets, and none of them is filed under a name of
    [Object.prototype]. *)
Definition collected_sound (body : StatePatchV3Body) (c : Collected)
  : Prop :=
  (∀ app s, get app (appReleaseUuids c) = Some s →
     NoDup s ∧ (app ∉ object_prototype) ∧ (∃ ac, claims_app body app ac)
     ∧ ∀ r, r ∈ s → references_commit body app r)
  ∧ ∀ loc, loc ∈ imageLocations c → references_image body loc.

(** The services the non-null entries of a batch report, in the order in
    which the normalizer meets them. *)
Definition batch_services (body : StatePatchV3Body) (uuids : list string)
  : list Service :=
  uuid ← uuids;
  match state_of body uuid with
  | Some state => reported_services (default [] (apps state))
  | None => []
  end.

(** The install candidate [c] is built from a service that the [apps]
    object [a] reports: its image is the image row of the store at the
    location of the service, its release the release row of the
    application under which the service is reported, with the commit
    under which it is reported. *)
Definition install_from (st : Store) (a : obj AppClaim) (c : ImgInstall)
  : Prop :=
  ∃ app ac rels r rc svcs name svc rel img,
    (app, ac) ∈ a ∧ releases ac = Present rels ∧ (r, rc) ∈ rels
    ∧ services rc = Present svcs ∧ (name, svc) ∈ svcs
    ∧ rel ∈ all_releases st ∧ r_app rel = app ∧ commit rel = r
    ∧ img ∈ images st ∧ is_stored_at__image_location img = image svc
    ∧ c = {| imageId := i_id img; releaseId := r_id rel;
             inst_status := status svc;
             downloadProgress := download_progress svc |}.

(** An [apps] object in which some [releases] or some [services] is
    [null]. *)
Definition has_null (a : obj AppClaim) : Prop :=
  (∃ app ac, (app, ac) ∈ a ∧ releases ac = Null)
  ∨ ∃ app ac rels r rc,
      (app, ac) ∈ a ∧ releases ac = Present rels ∧ (r, rc) ∈ rels
      ∧ services rc = Null.

(** A sequence of calls of a memoized function, one after the other on
    the same cache: the values returned and the cache they leave. *)
Module CacheTrace.
Section trace.
Context {Args : Type}.

Fixpoint run_calls
    (memo : Args → Cache.state → option Cache.Defined * Cache.state)
    (l : list Args) (s : Cache.state)
  : list (option Cache.Defined) * Cache.state :=
  match l with
  | [] => ([], s)
  | args :: l' =>
      let '(v, s1) := memo args s in
      let '(vs, s2) := run_calls memo l' s1 in
      (v :: vs, s2)
  end.
End trace.
End CacheTrace.

(** * Properties *)
(** ** Objects *)

Section obj_facts.
Context {K A : Type} `{EqDecision K}.
Implicit Types (o : list (K * A)) (k : K) (v : A).

Lemma get_elem_of k v o : get k o = Some v → (k, v) ∈ o.
Proof.
  induction o as [|[k' v'] o IH]; simpl; [done|].
  case_decide; intros Hg.
  - simplify_eq. left.
  - right. auto.
Qed.

Lemma get_None_keys k o : get k o = None ↔ k ∉ o.*1.
Proof.
  induction o as [|[k' v'] o IH]; simpl.
  - split; [intros _; apply not_elem_of_nil | done].
  - case_decide; subst; rewrite not_elem_of_cons.
    + split; [done | intros [? _]; done].
    + rewrite IH. naive_solver.
Qed.

Lemma get_is_Some_keys k o : is_Some (get k o) ↔ k ∈ o.*1.
Proof.
  rewrite <- not_eq_None_Some, get_None_keys.
  destruct (decide (k ∈ o.*1)); naive_solver.
Qed.

Lemma get_set_eq k v o : get k (set k v o) = Some v.
Proof.
  induction o as [|[k' v'] o IH]; simpl.
  - by rewrite decide_True.
  - case_decide; simpl; [by rewrite decide_True | by rewrite decide_False].
Qed.

Lemma get_set_ne k k' v o : k ≠ k' → get k' (set k v o) = get k' o.
Proof.
  intros Hne. induction o as [|[k'' v''] o IH]; simpl.
  - by rewrite decide_False.
  - case_decide; simpl; subst.
    + by rewrite !decide_False.
    + case_decide; [done | apply IH].
Qed.

Lemma keys_set k k' v o : k' ∈ (set k v o).*1 ↔ k' = k ∨ k' ∈ o.*1.
Proof.
  induction o as [|[k'' v''] o IH]; simpl.
  - rewrite list_elem_of_singleton. set_solver.
  - case_decide; simpl; subst; rewrite !elem_of_cons; [naive_solver|].
    rewrite IH. naive_solver.
Qed.

Lemma NoDup_keys_set k v o : NoDup o.*1 → NoDup (set k v o).*1.
Proof.
  induction o as [|[k' v'] o IH]; simpl; intros Hnd.
  - apply NoDup_singleton.
  - apply NoDup_cons in Hnd as [Hk Hnd].
    case_decide; simpl; subst; apply NoDup_cons; split; auto.
    rewrite keys_set. naive_solver.
Qed.
End obj_facts.

Lemma set_add_elem x y s : y ∈ set_add x s ↔ y = x ∨ y ∈ s.
Proof.
  unfold set_add. case_decide.
  - naive_solver.
  - rewrite elem_of_app, list_elem_of_singleton. naive_solver.
Qed.

(** ** Counting the rows an [$in] filter returns *)

Section counting.
Context {R K : Type} `{EqDecision K}.
Variable key : R → K.

(** The keys of the rows an [$in] filter returns are among the requested
    keys, one row per key when the key is unique. *)
Lemma in_filter_keys (rows : list R) (ks : list K) :
  NoDup (key <$> rows) →
  key <$> filter (λ r, key r ∈ ks) rows ⊆+ ks.
Proof.
  intros Hnd. apply NoDup_submseteq.
  - eapply sublist_NoDup; [exact Hnd | apply fmap_sublist, sublist_filter].
  - intros k (r & -> & Hr)%list_elem_of_fmap.
    by apply list_elem_of_filter in Hr as [? _].
Qed.

Lemma in_filter_perm (rows : list R) (ks : list K) :
  NoDup (key <$> rows) →
  length (filter (λ r, key r ∈ ks) rows) = length ks →
  key <$> filter (λ r, key r ∈ ks) rows ≡ₚ ks.
Proof.
  intros Hnd Hlen. apply submseteq_length_Permutation.
  - by apply in_filter_keys.
  - rewrite length_fmap. lia.
Qed.

(** The counts agree only if every requested key has its row. *)
Lemma in_filter_full (rows : list R) (ks : list K) :
  NoDup (key <$> rows) →
  length (filter (λ r, key r ∈ ks) rows) = length ks →
  ∀ k, k ∈ ks → ∃ r, r ∈ rows ∧ key r = k.
Proof.
  intros Hnd Hlen k Hk.
  rewrite <- (in_filter_perm rows ks Hnd Hlen) in Hk.
  apply list_elem_of_fmap in Hk as (r & -> & Hr).
  apply list_elem_of_filter in Hr as [_ Hr]. eauto.
Qed.

(** The counts agree only if no key is requested twice. *)
Lemma in_filter_full_NoDup (rows : list R) (ks : list K) :
  NoDup (key <$> rows) →
  length (filter (λ r, key r ∈ ks) rows) = length ks →
  NoDup ks.
Proof.
  intros Hnd Hlen. rewrite <- (in_filter_perm rows ks Hnd Hlen).
  eapply sublist_NoDup; [exact Hnd | apply fmap_sublist, sublist_filter].
Qed.
End counting.

(** ** Loops that may throw *)

Section loops.
Context {A B : Type} (f : A → B → res A).

Lemma for_of_throw (P : error → Prop) l a e :
  (∀ a b e, b ∈ l → f a b = Throw e → P e) →
  for_of f l a = Throw e → P e.
Proof.
  revert a. induction l as [|b l IH]; simpl; intros a Hf; [done|].
  destruct (f a b) as [a'|e'] eqn:Hfab; simpl.
  - apply IH. intros ??? Hin. apply Hf. by right.
  - intros [= <-]. eapply Hf; [left | done].
Qed.

Lemma for_of_ok l a :
  (∀ a b, b ∈ l → ∃ a', f a b = Ok a') →
  ∃ a', for_of f l a = Ok a'.
Proof.
  revert a. induction l as [|b l IH]; simpl; intros a Hf; [by eauto|].
  destruct (Hf a b) as [a' ->]; [left|]. simpl.
  apply IH. intros ?? Hin. apply Hf. by right.
Qed.

Lemma for_of_invariant (P : A → Prop) l a a' :
  (∀ a b a', b ∈ l → f a b = Ok a' → P a → P a') →
  for_of f l a = Ok a' → P a → P a'.
Proof.
  revert a. induction l as [|b l IH]; intros a Hstep; simpl.
  - by intros [= <-].
  - destruct (f a b) as [a1|] eqn:Hf; simpl; [|done].
    intros Hfor Ha. eapply IH; [|done|].
    + intros ??? Hin. apply Hstep. by right.
    + eapply Hstep; [left | done..].
Qed.


(** The turn at which a loop throws. *)
Lemma for_of_throw_inv l a e :
  for_of f l a = Throw e → ∃ a1 b, b ∈ l ∧ f a1 b = Throw e.
Proof.
  revert a. induction l as [|b l IH]; simpl; intros a; [done|].
  destruct (f a b) as [a'|e'] eqn:Hfab; simpl.
  - intros (a1 & b1 & Hin & Hf)%IH. exists a1, b1. split; [by right|done].
  - intros [= <-]. exists a, b. split; [left | done].
Qed.

Lemma for_of_app_proj {C} (g : A → list C) (h : B → list C) l a a' :
  (∀ a b a', f a b = Ok a' → g a' = g a ++ h b) →
  for_of f l a = Ok a' → g a' = g a ++ (l ≫= h).
Proof.
  intros Hstep. revert a. induction l as [|b l IH]; intros a; simpl.
  - intros [= <-]. by rewrite app_nil_r.
  - destruct (f a b) as [a1|] eqn:Hf; simpl; [|done].
    intros ->%IH. by rewrite (Hstep _ _ _ Hf), (assoc_L (++)).
Qed.

Variable R : A → A → Prop.
Hypothesis R_refl : ∀ a, R a a.
Hypothesis R_trans : ∀ a1 a2 a3, R a1 a2 → R a2 a3 → R a1 a3.
Hypothesis f_grows : ∀ a b a', f a b = Ok a' → R a a'.

Lemma for_of_grows l a a' : for_of f l a = Ok a' → R a a'.
Proof.
  revert a. induction l as [|b l IH]; simpl; intros a.
  - by intros [= <-].
  - destruct (f a b) as [a1|] eqn:Hf; simpl; [|done].
    intros ?%IH. eapply R_trans; [by eapply f_grows | done].
Qed.

(** What a turn of the loop puts in the accumulator stays there. *)
Lemma for_of_covers (Q : B → A → Prop) l a a' b :
  (∀ a b a', b ∈ l → f a b = Ok a' → Q b a') →
  (∀ b a a', R a a' → Q b a → Q b a') →
  b ∈ l → for_of f l a = Ok a' → Q b a'.
Proof.
  intros Hstep Hmono. revert a.
  induction l as [|b' l IH]; simpl; intros a Hin.
  - by apply elem_of_nil in Hin.
  - destruct (f a b') as [a1|] eqn:Hf; simpl; [|done]. intros Hfor.
    apply elem_of_cons in Hin as [->|Hin].
    + eapply Hmono; [by eapply for_of_grows|]. eapply Hstep; [left|done].
    + eapply IH; [|done..]. intros ??? Hin'. apply Hstep. by right.
Qed.
End loops.

Lemma get_NoDup {A} k (v : A) (o : obj A) :
  NoDup (keys o) → (k, v) ∈ o → get k o = Some v.
Proof.
  unfold keys. induction o as [|[k' v'] o IH]; simpl; intros Hnd Hin.
  - by apply elem_of_nil in Hin.
  - apply NoDup_cons in Hnd as [Hk Hnd].
    apply elem_of_cons in Hin as [Heq|Hin].
    + simplify_eq. by rewrite decide_True.
    + case_decide; [|by auto]. subst. exfalso. apply Hk.
      apply list_elem_of_fmap. by exists (k, v).
Qed.

Lemma set_add_NoDup x s : NoDup s → NoDup (set_add x s).
Proof.
  unfold set_add. case_decide; [done|]. intros Hnd.
  apply NoDup_app. split_and!; [done | | apply NoDup_singleton].
  intros y Hy Hy'. apply list_elem_of_singleton in Hy'. by subst.
Qed.

Lemma truthy_ne s : truthy s = true ↔ s ≠ "".
Proof.
  unfold truthy. rewrite negb_true_iff, bool_decide_eq_false. done.
Qed.

(** ** What the phases can throw *)

Lemma add_commit_throws app c o e :
  add_commit app c o = Throw e → e = TypeError ∧ get app o = None.
Proof.
  unfold add_commit. destruct (get app o); [done|]. by intros [= <-].
Qed.

Lemma collect_app_throws acc entry e :
  collect_app acc entry = Throw e → e = TypeError.
Proof.
  destruct entry as [app ac]. unfold collect_app.
  destruct (match release_uuid ac with Some _ => _ | None => _ end)
    as [o1|e1] eqn:Hrun; simpl.
  - destruct (non_null (releases ac)) as [rels|]; [|done].
    apply (for_of_throw _ (λ e, e = TypeError)).
    intros a [r rc] e' _. unfold collect_release.
    destruct (add_commit _ _ _) eqn:Hadd; simpl; [done|].
    intros [= <-]. by apply add_commit_throws in Hadd as [-> _].
  - intros [= <-]. destruct (release_uuid ac) as [c|]; [|done].
    destruct (truthy c); [|done].
    by apply add_commit_throws in Hrun as [-> _].
Qed.

Lemma collect_throws body uuids e :
  collect body uuids = Throw e → e = TypeError.
Proof.
  apply (for_of_throw _ (λ e, e = TypeError)).
  intros acc uuid e' _. unfold collect_device.
  destruct (state_of body uuid) as [state|]; [|by intros [= <-]].
  destruct (apps state) as [a|]; [|done].
  apply (for_of_throw _ (λ e, e = TypeError)).
  intros ??? _. apply collect_app_throws.
Qed.

Lemma read_phase_throws st uuids c e :
  read_phase st uuids c = Throw e → e = UnauthorizedError.
Proof.
  unfold read_phase. case_decide; [by intros [= <-]|].
  destruct (imageLocations c) as [|l ls]; simpl.
  - destruct (for_of _ _ _) eqn:Hfor; simpl; [done|]. intros [= <-].
    revert Hfor. apply (for_of_throw _ (λ e, e = UnauthorizedError)).
    intros a [app s] e' _. simpl.
    case_decide; [by intros [= <-] | done].
  - case_decide; simpl; [by intros [= <-]|].
    destruct (for_of _ _ _) eqn:Hfor; simpl; [done|]. intros [= <-].
    revert Hfor. apply (for_of_throw _ (λ e, e = UnauthorizedError)).
    intros a [app s] e' _. simpl.
    case_decide; [by intros [= <-] | done].
Qed.

Lemma build_imgInstalls_throws x a e :
  build_imgInstalls x a = Throw e →
  e = TypeError ∨ e = InternalRequestError.
Proof.
  pose (P := λ e, e = TypeError ∨ e = InternalRequestError).
  unfold build_imgInstalls. apply (for_of_throw _ P).
  intros acc [appUuid ac] e1 _. simpl.
  destruct (releases ac) as [| |rels]; simpl;
    [done | intros [= <-]; by left |].
  apply (for_of_throw _ P).
  intros acc1 [releaseUuid rc] e2 _. simpl.
  destruct (get appUuid (x_appReleases x)); [|intros [= <-]; by left].
  destruct (List.find _ _); [|intros [= <-]; by right].
  destruct (services rc) as [| |svcs]; simpl;
    [done | intros [= <-]; by left |].
  apply (for_of_throw _ P). intros acc2 svc e3 _. unfold install_service.
  destruct (x_images x); [|intros [= <-]; by left].
  destruct (List.find _ _); [done | intros [= <-]; by right].
Qed.

Lemma running_release_throws rels a app e :
  running_release rels a app = Throw e → e = TypeError.
Proof.
  unfold running_release.
  destruct (get app rels) as [[|r rs]|]; destruct (get app a);
    by intros [= <-].
Qed.

Lemma device_body_throws x state device e :
  device_body x state device = Throw e → e = TypeError.
Proof.
  unfold device_body. destruct (apps state) as [a|]; simpl; [|done].
  destruct (running_release _ _ _) eqn:Hr; simpl; [done|].
  intros [= <-]. by eapply running_release_throws.
Qed.

Lemma process_device_throws body x w uuid w' e :
  process_device body x w uuid = (w', Throw e) → e ≠ BadRequestError.
Proof.
  unfold process_device.
  destruct (state_of body uuid) as [state|]; [|by intros [= _ <-]].
  destruct (List.find _ _) as [device|]; [|by intros [= _ <-]].
  destruct (device_body x state device) as [b|e'] eqn:Hb.
  - destruct (apps state) as [a|]; [|done].
    destruct (build_imgInstalls x a) as [l|e'] eqn:Hi; [done|].
    intros [= _ <-]. by apply build_imgInstalls_throws in Hi as [->| ->].
  - intros [= _ <-]. by apply device_body_throws in Hb as ->.
Qed.

Lemma write_loop_throws body x uuids w w' e :
  write_loop body x uuids w = (w', Throw e) → e ≠ BadRequestError.
Proof.
  revert w. induction uuids as [|uuid rest IH]; simpl; intros w; [done|].
  destruct (process_device body x w uuid) as [w1 [[]|e1]] eqn:Hp.
  - apply IH.
  - intros [= _ <-]. by eapply process_device_throws.
Qed.

(** ** The phases of a request *)

(** A request that got into the write transaction has been through the
    normalizer and the read phase. *)
Lemma write_tx_inv body st :
  write_tx_opened (statePatchV3 body st) = true →
  ∃ c x w r,
    collect body (non_null_uuids body) = Ok c
    ∧ read_phase st (non_null_uuids body) c = Ok x
    ∧ write_loop body x (non_null_uuids body) [] = (w, r)
    ∧ statePatchV3 body st
      = match r with Ok _ => Committed w | Throw e => Aborted e w end.
Proof.
  unfold statePatchV3.
  destruct (non_null_uuids body) as [|u us] eqn:Hu; [done|].
  destruct (collect _ _) as [c|e] eqn:Hc; [|done].
  destruct (read_phase _ _ _) as [x|e] eqn:Hr; [|done].
  destruct (write_loop body x (u :: us) []) as [w r] eqn:Hw.
  intros _. exists c, x, w, r. by destruct r.
Qed.

Lemma committed_inv body st w :
  statePatchV3 body st = Committed w →
  ∃ c x, collect body (non_null_uuids body) = Ok c
         ∧ read_phase st (non_null_uuids body) c = Ok x
         ∧ write_loop body x (non_null_uuids body) [] = (w, Ok ()).
Proof.
  intros Hout.
  destruct (write_tx_inv body st) as (c & x & w' & r & Hc & Hr & Hw & Heq).
  { by rewrite Hout. }
  rewrite Hout in Heq. destruct r as [[]|e]; [|done].
  injection Heq as ->. by exists c, x.
Qed.

(** ** The instructions of the write loop *)

Lemma write_loop_invariant (P : list instr → Prop) body x uuids w :
  (∀ w uuid, uuid ∈ uuids → P w → P (process_device body x w uuid).1) →
  P w → P (write_loop body x uuids w).1.
Proof.
  revert w. induction uuids as [|uuid rest IH]; simpl; intros w Hstep Hw;
    [done|].
  pose proof (Hstep w uuid ltac:(left) Hw) as Hw1.
  destruct (process_device body x w uuid) as [w1 [[]|e1]]; simpl in *.
  - apply IH; [|done]. intros ?? Hin. apply Hstep. by right.
  - done.
Qed.

Lemma issued_instrs_write_loop body st i :
  i ∈ issued_instrs (statePatchV3 body st) →
  ∃ c x, collect body (non_null_uuids body) = Ok c
         ∧ read_phase st (non_null_uuids body) c = Ok x
         ∧ i ∈ (write_loop body x (non_null_uuids body) []).1.
Proof.
  intros Hi.
  destruct (write_tx_inv body st) as (c & x & w & r & Hc & Hr & Hw & Heq).
  { destruct (statePatchV3 body st); [by apply elem_of_nil in Hi|done..]. }
  exists c, x. split_and!; [done..|]. rewrite Hw. rewrite Heq in Hi.
  by destruct r.
Qed.

Lemma process_device_pushed body x w uuid :
  Forall (pushed body x) w →
  Forall (pushed body x) (process_device body x w uuid).1.
Proof.
  intros Hw. unfold process_device.
  destruct (state_of body uuid) as [state|] eqn:Hs; [|done].
  destruct (List.find _ _) as [device|] eqn:Hd; [|done].
  destruct (device_body x state device) as [b|e'] eqn:Hb; [|done].
  assert (Forall (pushed body x) (push_patch device b w)) as Hw1.
  { unfold push_patch. destruct b as [|[k v] rest]; [done|].
    apply Forall_app. split; [done|]. apply Forall_singleton.
    by eapply pushed_patch. }
  destruct (apps state) as [a|] eqn:Ha; [|done].
  destruct (build_imgInstalls x a) as [cs|e'] eqn:Hi; [|done].
  simpl. unfold push_installs.
  apply Forall_app. split.
  - destruct cs as [|c cs]; simpl; [done|].
    apply Forall_app. split; [done|]. apply Forall_singleton.
    by eapply pushed_upsert.
  - apply Forall_singleton. by eapply pushed_delete.
Qed.

Lemma issued_instrs_pushed body st i :
  i ∈ issued_instrs (statePatchV3 body st) →
  ∃ c x, collect body (non_null_uuids body) = Ok c
         ∧ read_phase st (non_null_uuids body) c = Ok x
         ∧ pushed body x i.
Proof.
  intros (c & x & Hc & Hx & Hi)%issued_instrs_write_loop. exists c, x.
  split_and!; [done..|].
  revert i Hi. apply Forall_forall.
  apply (write_loop_invariant (Forall (pushed body x))); [|done].
  intros w uuid _. apply process_device_pushed.
Qed.

(** ** The fields of a device patch *)

Lemma pick_keys o paths k : k ∈ keys (pick o paths) → k ∈ paths.
Proof.
  unfold keys, pick. intros ([k' v] & -> & Hin)%list_elem_of_fmap.
  apply list_elem_of_omap in Hin as (p & Hp & Hsome).
  destruct (get p o); simplify_eq/=. done.
Qed.

Lemma base_body_keys state k :
  k ∈ keys (base_body state) → k ∈ validPatchFields ∨ k = "device_name".
Proof.
  unfold base_body. generalize validPatchFields. intros paths.
  destruct (get "name" (fields state)) as [v|];
    [case_decide|]; try (intros ?%pick_keys; by left).
  intros [->|?%pick_keys]%keys_set; auto.
Qed.

Lemma device_body_keys x state device b k :
  device_body x state device = Ok b → k ∈ keys b → writable_field k.
Proof.
  unfold device_body, writable_field.
  destruct (match apps state with Some _ => _ | None => _ end)
    as [[r|]|]; simpl; intros [= <-].
  - intros [->|?%base_body_keys]%keys_set; naive_solver.
  - intros ?%base_body_keys. naive_solver.
Qed.

(** ** Malformed requests *)

Lemma non_null_uuids_nil body :
  non_null_uuids body = [] ↔ ∀ uuid, state_of body uuid = None.
Proof.
  unfold non_null_uuids. split.
  - intros Hnil uuid. destruct (state_of body uuid) as [s|] eqn:Hs; [|done].
    assert (uuid ∈ filter (λ u, is_Some (state_of body u)) (keys body)) as Hin.
    { apply list_elem_of_filter. split; [by rewrite Hs|].
      apply get_is_Some_keys. unfold state_of in Hs.
      destruct (get uuid body); [by eauto | done]. }
    rewrite Hnil in Hin. by apply elem_of_nil in Hin.
  - intros Hall. induction (keys body) as [|u us IH]; [done|].
    rewrite filter_cons_False; [done|]. rewrite Hall. by intros [? ?].
Qed.

(** On an object, the entry of a uuid is what is listed for it. *)
Lemma state_of_elem body uuid state :
  NoDup (keys body) →
  state_of body uuid = Some state ↔ (uuid, Some state) ∈ body.
Proof.
  intros Hnd. unfold state_of. split.
  - destruct (get uuid body) as [[s|]|] eqn:Hget; simpl; [|done..].
    intros [= ->]. by apply get_elem_of.
  - intros Hin. by rewrite (get_NoDup _ _ _ Hnd Hin).
Qed.

(** What a request can be rejected with. *)
Lemma thrown_bad_request body st :
  thrown (statePatchV3 body st) = Some BadRequestError →
  non_null_uuids body = [].
Proof.
  unfold statePatchV3. destruct (non_null_uuids body) as [|u us]; [done|].
  intros Hthrown. exfalso.
  destruct (collect _ _) as [c|e] eqn:Hc.
  - destruct (read_phase _ _ _) as [x|e] eqn:Hr.
    + destruct (write_loop _ _ _ _) as [w [[]|e]] eqn:Hw; [done|].
      simpl in Hthrown. injection Hthrown as ->.
      by eapply write_loop_throws.
    + simpl in Hthrown. injection Hthrown as ->.
      by apply read_phase_throws in Hr.
  - simpl in Hthrown. injection Hthrown as ->.
    by apply collect_throws in Hc.
Qed.

(** C8. On a body whose keys are distinct, as those of an object are,
    [statePatchV3] fails with a [BadRequestError] exactly when no key of
    the body has a non-null entry, and it then fails before anything
    else is done. With at least one non-null entry the request gets past
    the check and cannot fail that way any more. *)
Theorem C8_bad_request_iff_no_entry body st :
  NoDup (keys body) →
  (thrown (statePatchV3 body st) = Some BadRequestError
   ↔ ∀ uuid state, (uuid, Some state) ∉ body)
  ∧ ((∀ uuid state, (uuid, Some state) ∉ body) →
     statePatchV3 body st = Rejected BadRequestError).
Proof.
  intros Hnd.
  assert ((∀ uuid state, (uuid, Some state) ∉ body)
          ↔ non_null_uuids body = []) as Hiff.
  { rewrite non_null_uuids_nil. split.
    - intros Hno uuid. destruct (state_of body uuid) as [s|] eqn:Hs; [|done].
      apply (state_of_elem _ _ _ Hnd) in Hs. by apply Hno in Hs.
    - intros Hall uuid state Hin%(state_of_elem _ _ _ Hnd).
      by rewrite Hall in Hin. }
  assert (non_null_uuids body = [] →
          statePatchV3 body st = Rejected BadRequestError) as Hrej.
  { unfold statePatchV3. by intros ->. }
  split.
  - rewrite Hiff. split; [apply thrown_bad_request|].
    intros Hnil. by rewrite (Hrej Hnil).
  - intros Hno. by apply Hrej, Hiff.
Qed.

Lemma C8_bad_request_iff_no_entry_witness :
  NoDup (keys Example.body_null)
  ∧ (∀ uuid state, (uuid, Some state) ∉ Example.body_null)
  ∧ thrown (statePatchV3 Example.body_null Example.store1)
    = Some BadRequestError
  ∧ ¬ (∀ uuid state, (uuid, Some state) ∉ Example.body1)
  ∧ thrown (statePatchV3 Example.body1 Example.store1)
    ≠ Some BadRequestError.
Proof.
  assert (NoDup (keys Example.body_null)) as Hnd0.
  { apply (bool_decide_unpack _). vm_compute. exact I. }
  assert (NoDup (keys Example.body1)) as Hnd1.
  { apply (bool_decide_unpack _). vm_compute. exact I. }
  assert (∀ uuid state, (uuid, Some state) ∉ Example.body_null) as Hno.
  { intros uuid state Hin. apply list_elem_of_singleton in Hin. done. }
  assert (¬ (∀ uuid state, (uuid, Some state) ∉ Example.body1)) as Hsome.
  { intros Hall. apply (Hall "d1" Example.state1). left. }
  split_and!; [done | done | | done |].
  - by apply (C8_bad_request_iff_no_entry Example.body_null Example.store1
                Hnd0).
  - intros Hbad. apply Hsome.
    by apply (C8_bad_request_iff_no_entry Example.body1 Example.store1
                Hnd1).
Defined.

(** ** The field frame of device patches *)

(** C10. Whatever the request, a device patch that [statePatchV3] issues
    writes only fields of the allow-list, [device_name] and
    [is_running__release]; [parent_device] is never among them. *)
Theorem C10_patch_fields_frame body st dev b :
  PatchDevice dev b ∈ issued_instrs (statePatchV3 body st) →
  (∀ k, k ∈ keys b → writable_field k) ∧ "parent_device" ∉ keys b.
Proof.
  intros (c & x & _ & _ & Hp)%issued_instrs_pushed.
  assert (∀ k, k ∈ keys b → writable_field k) as Hall.
  { inversion Hp; subst. intros k0. by eapply device_body_keys. }
  split; [done|]. intros Hk%Hall. unfold writable_field in Hk.
  destruct Hk as [Hk|[Hk|Hk]]; [|done..].
  unfold validPatchFields in Hk. set_solver.
Qed.

Lemma C10_patch_fields_frame_witness :
  PatchDevice 1 Example.patch1
    ∈ issued_instrs (statePatchV3 Example.body1 Example.store1)
  ∧ (∀ k, k ∈ keys Example.patch1 → writable_field k)
  ∧ "parent_device" ∉ keys Example.patch1.
Proof.
  split.
  - vm_compute. left.
  - apply (C10_patch_fields_frame Example.body1 Example.store1 1).
    vm_compute. left.
Defined.

(** ** What the normalizer collects *)

Lemma grows_refl c : grows c c.
Proof. split; [|done]. intros app s Hs. by exists s. Qed.

Lemma grows_trans c1 c2 c3 : grows c1 c2 → grows c2 c3 → grows c1 c3.
Proof.
  intros [H1 H1'] [H2 H2']. split; [|by etrans].
  intros app s Hs. destruct (H1 _ _ Hs) as (s' & Hs' & Hsub).
  destruct (H2 _ _ Hs') as (s'' & Hs'' & Hsub'). exists s''.
  split; [done | by etrans].
Qed.

Lemma set_add_subseteq x s : s ⊆ set_add x s.
Proof. intros y Hy. apply set_add_elem. by right. Qed.

(** Line 129. *)
Lemma ensure_set_other app app' o :
  app ≠ app' → get app' (ensure_set app o) = get app' o.
Proof.
  intros Hne. unfold ensure_set. destruct (get app o); [done|].
  case_decide; [done|]. by apply get_set_ne.
Qed.

Lemma ensure_set_same app o :
  get app (ensure_set app o)
  = match get app o with
    | Some s => Some s
    | None => if decide (app ∈ object_prototype) then None else Some []
    end.
Proof.
  unfold ensure_set. destruct (get app o) as [s|] eqn:Hget; [done|].
  case_decide; [done|]. apply get_set_eq.
Qed.

Lemma ensure_set_grows app o app' s :
  get app' o = Some s → get app' (ensure_set app o) = Some s.
Proof.
  intros Hget. destruct (decide (app = app')) as [->|Hne].
  - by rewrite ensure_set_same, Hget.
  - by rewrite ensure_set_other.
Qed.

Lemma ensure_set_keys app o :
  NoDup (keys o) → NoDup (keys (ensure_set app o)).
Proof.
  intros Hnd. unfold ensure_set. destruct (get app o); [done|].
  case_decide; [done|]. by apply NoDup_keys_set.
Qed.

(** Lines 131 and 137. *)
Lemma add_commit_ok app c o o' :
  add_commit app c o = Ok o' →
  ∃ s, get app o = Some s ∧ o' = set app (set_add c s) o.
Proof.
  unfold add_commit. destruct (get app o) as [s|]; [|done].
  intros [= <-]. by exists s.
Qed.


Lemma add_commit_grows app c o o' app' s :
  add_commit app c o = Ok o' → get app' o = Some s →
  ∃ s', get app' o' = Some s' ∧ s ⊆ s'.
Proof.
  intros (s0 & Hs0 & ->)%add_commit_ok Hget.
  destruct (decide (app = app')) as [->|Hne].
  - rewrite get_set_eq. eexists. split; [done|].
    rewrite Hs0 in Hget. injection Hget as ->. apply set_add_subseteq.
  - rewrite get_set_ne by done. by exists s.
Qed.

Lemma add_commit_collected app c o o' :
  add_commit app c o = Ok o' →
  ∃ s', get app o' = Some s' ∧ c ∈ s'.
Proof.
  intros (s0 & Hs0 & ->)%add_commit_ok. rewrite get_set_eq.
  eexists. split; [done|]. apply set_add_elem. by left.
Qed.

(** The loop over the releases of one application. *)
Lemma collect_release_ok app acc r rc acc' :
  collect_release app acc (r, rc) = Ok acc' →
  ∃ o, add_commit app r (appReleaseUuids acc) = Ok o
       ∧ acc' = {| appReleaseUuids := o;
                   imageLocations :=
                     imageLocations acc
                     ++ (image <$> values
                                     (default [] (non_null (services rc)))) |}.
Proof.
  unfold collect_release.
  destruct (add_commit _ _ _) as [o|]; simpl; [|done]. intros [= <-].
  exists o. split; [done|]. f_equal.
  destruct (non_null (services rc)); simpl; [done|]. by rewrite app_nil_r.
Qed.

Lemma collect_release_grows app acc entry acc' :
  collect_release app acc entry = Ok acc' → grows acc acc'.
Proof.
  destruct entry as [r rc]. intros (o & Hadd & ->)%collect_release_ok.
  split; simpl.
  - intros app' s. exact (add_commit_grows _ _ _ _ _ _ Hadd).
  - intros y Hy. apply elem_of_app. by left.
Qed.

Lemma collect_releases_grows app rels acc acc' :
  for_of (collect_release app) rels acc = Ok acc' → grows acc acc'.
Proof.
  apply (for_of_grows _ grows grows_refl grows_trans).
  apply collect_release_grows.
Qed.

Lemma commit_collected_mono c c' app r :
  grows c c' → commit_collected c app r → commit_collected c' app r.
Proof.
  intros [Hg _] (s & Hs & Hr). destruct (Hg _ _ Hs) as (s' & Hs' & Hsub).
  exists s'. split; [done | by apply Hsub].
Qed.

Lemma collect_releases_covers app rels acc acc' r rc :
  for_of (collect_release app) rels acc = Ok acc' → (r, rc) ∈ rels →
  commit_collected acc' app r
  ∧ ∀ svcs name svc, services rc = Present svcs → (name, svc) ∈ svcs →
      image svc ∈ imageLocations acc'.
Proof.
  intros Hfor Hin. revert Hin Hfor.
  apply (for_of_covers (collect_release app) grows grows_refl grows_trans
           (collect_release_grows app)
           (λ e a, commit_collected a app e.1
                   ∧ ∀ svcs name svc, services e.2 = Present svcs →
                       (name, svc) ∈ svcs → image svc ∈ imageLocations a)).
  - intros a [r' rc'] a' _ (o & Hadd & ->)%collect_release_ok. simpl. split.
    + by apply add_commit_collected in Hadd.
    + intros svcs name svc -> Hin. simpl.
      apply elem_of_app. right. apply list_elem_of_fmap. exists svc.
      split; [done|]. apply list_elem_of_fmap. by exists (name, svc).
  - intros e a a' Hg [He Hi]. split; [by eapply commit_collected_mono|].
    intros svcs name svc Hsv Hin. apply Hg. by eapply Hi.
Qed.

(** The loop over the applications of one device. *)
Lemma collect_app_ok acc app ac acc' :
  collect_app acc (app, ac) = Ok acc' →
  ∃ o1,
    (match release_uuid ac with
     | Some c => if truthy c
                 then add_commit app c (ensure_set app (appReleaseUuids acc))
                 else Ok (ensure_set app (appReleaseUuids acc))
     | None => Ok (ensure_set app (appReleaseUuids acc))
     end) = Ok o1
    ∧ for_of (collect_release app) (default [] (non_null (releases ac)))
        {| appReleaseUuids := o1; imageLocations := imageLocations acc |}
      = Ok acc'.
Proof.
  unfold collect_app.
  destruct (match release_uuid ac with Some _ => _ | None => _ end)
    as [o1|]; simpl; [|done].
  intros Hfor. exists o1. split; [done|].
  by destruct (non_null (releases ac)).
Qed.

(** After line 129 and the [release_uuid], what was collected before is
    still there. *)
Lemma collect_app_head_grows acc app ac o1 :
  (match release_uuid ac with
   | Some c => if truthy c
               then add_commit app c (ensure_set app (appReleaseUuids acc))
               else Ok (ensure_set app (appReleaseUuids acc))
   | None => Ok (ensure_set app (appReleaseUuids acc))
   end) = Ok o1 →
  grows acc {| appReleaseUuids := o1; imageLocations := imageLocations acc |}
  ∧ (app ∉ object_prototype → is_Some (get app o1))
  ∧ ∀ c, release_uuid ac = Some c → c ≠ "" →
      ∃ s, get app o1 = Some s ∧ c ∈ s.
Proof.
  intros Hhead.
  assert (∀ app' s, get app' (appReleaseUuids acc) = Some s →
            get app' (ensure_set app (appReleaseUuids acc)) = Some s)
    as Hens by (intros ??; apply ensure_set_grows).
  assert (app ∉ object_prototype →
          is_Some (get app (ensure_set app (appReleaseUuids acc)))) as Hown.
  { intros Hno. rewrite ensure_set_same.
    destruct (get app (appReleaseUuids acc)); [by eauto|].
    rewrite decide_False by done. by eauto. }
  destruct (release_uuid ac) as [c|] eqn:Hc.
  - destruct (truthy c) eqn:Ht.
    + split_and!.
      * split; [|done]. simpl. intros app' s Hs%Hens.
        by eapply add_commit_grows.
      * intros [s Hs]%Hown.
        destruct (add_commit_grows _ _ _ _ _ _ Hhead Hs) as (s' & -> & _).
        by eauto.
      * intros c' [= <-] _. by apply add_commit_collected in Hhead.
    + injection Hhead as <-. split_and!.
      * split; [|done]. simpl. intros app' s Hs%Hens. by exists s.
      * done.
      * intros c' [= <-] Hne. apply truthy_ne in Hne. congruence.
  - injection Hhead as <-. split_and!.
    + split; [|done]. simpl. intros app' s Hs%Hens. by exists s.
    + done.
    + done.
Qed.

Lemma collect_app_grows acc entry acc' :
  collect_app acc entry = Ok acc' → grows acc acc'.
Proof.
  destruct entry as [app ac]. intros (o1 & Hhead & Hfor)%collect_app_ok.
  destruct (collect_app_head_grows _ _ _ _ Hhead) as (Hg & _).
  eapply grows_trans; [done|]. by eapply collect_releases_grows.
Qed.

Lemma collect_app_covers acc entry acc' :
  collect_app acc entry = Ok acc' → covers_app acc' entry.
Proof.
  destruct entry as [app ac]. intros (o1 & Hhead & Hfor)%collect_app_ok.
  destruct (collect_app_head_grows _ _ _ _ Hhead) as (_ & Hown & Hrun).
  pose proof (collect_releases_grows _ _ _ _ Hfor) as Hg.
  split_and!; simpl.
  - intros [s Hs]%Hown. destruct Hg as [Hg _].
    destruct (Hg app s Hs) as (s' & -> & _). by eauto.
  - intros r [[Hr Hne]|(rels & rc & Hrels & Hin)].
    + eapply commit_collected_mono; [done|]. by apply Hrun.
    + rewrite Hrels in Hfor. simpl in Hfor.
      by destruct (collect_releases_covers _ _ _ _ _ _ Hfor Hin).
  - intros rels r rc svcs name svc Hrels Hin Hsv Hsvc.
    rewrite Hrels in Hfor. simpl in Hfor.
    destruct (collect_releases_covers _ _ _ _ _ _ Hfor Hin) as [_ Himg].
    by eapply Himg.
Qed.

Lemma covers_app_mono entry c c' :
  grows c c' → covers_app c entry → covers_app c' entry.
Proof.
  intros Hg (Hown & Hrun & Himg). split_and!.
  - intros [s Hs]%Hown. destruct Hg as [Hg _].
    destruct (Hg _ _ Hs) as (s' & -> & _). by eauto.
  - intros r Hr. eapply commit_collected_mono; [done|]. by apply Hrun.
  - intros rels r rc svcs name svc Hrels Hin Hsv Hsvc.
    apply Hg. by eapply Himg.
Qed.

Lemma collect_apps_grows a acc acc' :
  for_of collect_app a acc = Ok acc' → grows acc acc'.
Proof.
  apply (for_of_grows _ grows grows_refl grows_trans collect_app_grows).
Qed.

Lemma collect_apps_covers a acc acc' entry :
  for_of collect_app a acc = Ok acc' → entry ∈ a → covers_app acc' entry.
Proof.
  intros Hfor Hin. revert Hin Hfor.
  apply (for_of_covers collect_app grows grows_refl grows_trans
           collect_app_grows (λ e c, covers_app c e)).
  - intros a0 e a' _. apply collect_app_covers.
  - intros e c c'. apply covers_app_mono.
Qed.

(** The loop over the devices. *)
Lemma collect_device_ok body acc uuid acc' :
  collect_device body acc uuid = Ok acc' →
  ∃ state, state_of body uuid = Some state
    ∧ for_of collect_app (default [] (apps state)) acc = Ok acc'.
Proof.
  unfold collect_device. destruct (state_of body uuid) as [state|]; [|done].
  intros Hfor. exists state. split; [done|]. by destruct (apps state).
Qed.

Lemma collect_device_grows body acc uuid acc' :
  collect_device body acc uuid = Ok acc' → grows acc acc'.
Proof.
  intros (state & _ & Hfor)%collect_device_ok.
  by eapply collect_apps_grows.
Qed.

Lemma collect_covers body uuids c uuid :
  collect body uuids = Ok c → uuid ∈ uuids → covers_device body c uuid.
Proof.
  intros Hfor Hin. revert Hin Hfor.
  apply (for_of_covers (collect_device body) grows grows_refl grows_trans
           (collect_device_grows body) (λ u c, covers_device body c u)).
  - intros acc u acc' _ (state & Hs & Hfor)%collect_device_ok state' a Hs' Ha.
    rewrite Hs in Hs'. injection Hs' as <-. rewrite Ha in Hfor.
    intros entry Hin. by eapply collect_apps_covers.
  - intros u c0 c' Hg Hc state a Hs Ha entry Hin.
    eapply covers_app_mono; [done|]. by eapply Hc.
Qed.

Lemma state_of_non_null body uuid state :
  state_of body uuid = Some state → uuid ∈ non_null_uuids body.
Proof.
  intros Hs. apply list_elem_of_filter. split; [by rewrite Hs|].
  apply get_is_Some_keys. unfold state_of in Hs.
  destruct (get uuid body); [by eauto | done].
Qed.

Lemma non_null_state_of body uuid :
  uuid ∈ non_null_uuids body → is_Some (state_of body uuid).
Proof. by intros [? _]%list_elem_of_filter. Qed.

(** Every commit and every location the batch refers to is collected. *)
Lemma claims_app_covered body c appUuid ac :
  collect body (non_null_uuids body) = Ok c →
  claims_app body appUuid ac → covers_app c (appUuid, ac).
Proof.
  intros Hc (uuid & state & a & Hs & Ha & Hin).
  eapply collect_covers; [done| |done..]. by eapply state_of_non_null.
Qed.

(** Everything that is collected is referred to by the batch. *)
Lemma collected_sound_grows body c c' :
  collected_sound body c →
  (∀ app s', get app (appReleaseUuids c') = Some s' →
     NoDup s' ∧ (app ∉ object_prototype) ∧ (∃ ac, claims_app body app ac)
     ∧ ∀ r, r ∈ s' →
         references_commit body app r
         ∨ ∃ s, get app (appReleaseUuids c) = Some s ∧ r ∈ s) →
  (∀ loc, loc ∈ imageLocations c' →
     loc ∈ imageLocations c ∨ references_image body loc) →
  collected_sound body c'.
Proof.
  intros [Hsets Hlocs] Hsets' Hlocs'. split.
  - intros app s' Hs'. destruct (Hsets' _ _ Hs') as (Hnd & Hno & Hcl & Hr).
    split_and!; [done..|]. intros r [?|(s & Hs & Hin)]%Hr; [done|].
    destruct (Hsets _ _ Hs) as (_ & _ & _ & Hrs). by apply Hrs.
  - intros loc [?|?]%Hlocs'; [by apply Hlocs | done].
Qed.

Lemma add_commit_sound body app ac c o o' locs :
  claims_app body app ac → names_commit ac c →
  collected_sound body {| appReleaseUuids := o; imageLocations := locs |} →
  add_commit app c o = Ok o' →
  collected_sound body {| appReleaseUuids := o'; imageLocations := locs |}.
Proof.
  intros Hclaim Hname Hsound (s0 & Hs0 & ->)%add_commit_ok.
  eapply collected_sound_grows; [done| |by left]. simpl.
  intros app' s'. destruct (decide (app = app')) as [<-|Hne].
  - rewrite get_set_eq. intros [= <-].
    destruct Hsound as [Hsets _].
    destruct (Hsets _ _ Hs0) as (Hnd & Hno & _ & _).
    split_and!; [by apply set_add_NoDup | done | by eauto |].
    intros r [->|Hr]%set_add_elem.
    + left. by exists ac.
    + right. by exists s0.
  - rewrite get_set_ne by done. intros Hs'.
    destruct Hsound as [Hsets _].
    destruct (Hsets _ _ Hs') as (Hnd & Hno & Hcl & _).
    split_and!; [done..|]. intros r Hr. right. by exists s'.
Qed.

Lemma ensure_set_sound body app ac o locs :
  claims_app body app ac →
  collected_sound body {| appReleaseUuids := o; imageLocations := locs |} →
  collected_sound body {| appReleaseUuids := ensure_set app o;
                          imageLocations := locs |}.
Proof.
  intros Hclaim Hsound.
  eapply collected_sound_grows; [done| |by left]. simpl.
  intros app' s'. destruct (decide (app = app')) as [<-|Hne].
  - rewrite ensure_set_same.
    destruct (get app o) as [s|] eqn:Hs.
    + intros [= <-]. destruct Hsound as [Hsets _].
      destruct (Hsets _ _ Hs) as (Hnd & Hno & Hcl & _).
      split_and!; [done..|]. intros r Hr. right. by exists s.
    + case_decide; [done|]. intros [= <-].
      split_and!; [apply NoDup_nil_2 | done | by eauto |].
      by intros r ?%elem_of_nil.
  - rewrite ensure_set_other by done. intros Hs'.
    destruct Hsound as [Hsets _].
    destruct (Hsets _ _ Hs') as (Hnd & Hno & Hcl & _).
    split_and!; [done..|]. intros r Hr. right. by exists s'.
Qed.

Lemma collect_release_sound body app ac rels acc r rc acc' :
  claims_app body app ac → releases ac = Present rels → (r, rc) ∈ rels →
  collect_release app acc (r, rc) = Ok acc' →
  collected_sound body acc → collected_sound body acc'.
Proof.
  intros Hclaim Hrels Hin (o & Hadd & ->)%collect_release_ok Hsound.
  assert (collected_sound body
            {| appReleaseUuids := o; imageLocations := imageLocations acc |})
    as [Hsets Hlocs].
  { eapply add_commit_sound; [done | | | done].
    - right. by exists rels, rc.
    - by destruct acc. }
  split; [done|]. simpl. intros loc [Hloc|Hloc]%elem_of_app; [by auto|].
  apply list_elem_of_fmap in Hloc as (svc & -> & Hsvc).
  apply list_elem_of_fmap in Hsvc as ([name svc'] & -> & Hsvc).
  destruct (services rc) as [| |svcs] eqn:Hsv; simpl in Hsvc;
    [by apply elem_of_nil in Hsvc..|].
  by exists app, ac, rels, r, rc, svcs, name, svc'.
Qed.

Lemma collect_app_sound body acc app ac acc' :
  claims_app body app ac →
  collect_app acc (app, ac) = Ok acc' →
  collected_sound body acc → collected_sound body acc'.
Proof.
  intros Hclaim (o1 & Hhead & Hfor)%collect_app_ok Hsound.
  assert (collected_sound body
            {| appReleaseUuids := o1; imageLocations := imageLocations acc |})
    as Hsound1.
  { pose proof (ensure_set_sound body app ac (appReleaseUuids acc)
                  (imageLocations acc) Hclaim) as Hens.
    destruct acc as [o locs]. simpl in *. specialize (Hens Hsound).
    destruct (release_uuid ac) as [c|] eqn:Hc;
      [destruct (truthy c) eqn:Ht|]; [|by injection Hhead as <-..].
    eapply add_commit_sound; [done | | done..].
    left. split; [done|]. by apply truthy_ne. }
  destruct (releases ac) as [| |rels] eqn:Hrels; simpl in Hfor;
    [by injection Hfor as <-..|].
  revert Hfor Hsound1. apply for_of_invariant.
  intros a [r rc] a' Hin. by eapply collect_release_sound.
Qed.

Lemma collect_sound body uuids c :
  collect body uuids = Ok c → collected_sound body c.
Proof.
  intros Hc. eapply (for_of_invariant _ (collected_sound body)); [|done|].
  - intros acc uuid acc' _ (state & Hs & Hfor)%collect_device_ok.
    destruct (apps state) as [a|] eqn:Ha; simpl in Hfor;
      [|by injection Hfor as <-].
    revert Hfor. apply for_of_invariant.
    intros acc1 [app ac] acc2 Hin. apply collect_app_sound.
    by exists uuid, state, a.
  - split; simpl; [done|]. by intros loc ?%elem_of_nil.
Qed.

Lemma collect_keys_NoDup body uuids c :
  collect body uuids = Ok c → NoDup (keys (appReleaseUuids c)).
Proof.
  intros Hc.
  eapply (for_of_invariant _ (λ c, NoDup (keys (appReleaseUuids c))));
    [|done|apply NoDup_nil_2].
  intros acc uuid acc' _ (state & _ & Hfor)%collect_device_ok.
  revert Hfor.
  apply (for_of_invariant _ (λ c, NoDup (keys (appReleaseUuids c)))).
  intros acc1 [app ac] acc2 _ (o1 & Hhead & Hfor)%collect_app_ok Hnd.
  assert (NoDup (keys o1)) as Hnd1.
  { pose proof (ensure_set_keys app _ Hnd) as Hens.
    destruct (release_uuid ac) as [c0|];
      [destruct (truthy c0)|]; [|by injection Hhead as <-..].
    apply add_commit_ok in Hhead as (s & _ & ->). by apply NoDup_keys_set. }
  revert Hfor Hnd1.
  apply (for_of_invariant _ (λ c, NoDup (keys (appReleaseUuids c)))).
  intros a [r rc] a' _ (o & Hadd & ->)%collect_release_ok Hnd'. simpl.
  apply add_commit_ok in Hadd as (s & _ & ->). by apply NoDup_keys_set.
Qed.




Lemma rejection_cases body :
  (rejection body = UnauthorizedError
   ∧ ∃ c, collect body (non_null_uuids body) = Ok c)
  ∨ (rejection body = TypeError
     ∧ collect body (non_null_uuids body) = Throw TypeError).
Proof.
  unfold rejection.
  destruct (collect body (non_null_uuids body)) as [c|e] eqn:Hc.
  - left. by eauto.
  - right. by apply collect_throws in Hc as ->.
Qed.

(** ** What a successful read phase guarantees *)

Lemma read_phase_ok_inv st uuids c x :
  read_phase st uuids c = Ok x →
  x_devices x = get_devices st uuids
  ∧ length (get_devices st uuids) = length uuids
  ∧ x_images x = match imageLocations c with
                 | [] => None
                 | _ :: _ => Some (get_images st (imageLocations c))
                 end
  ∧ (imageLocations c ≠ [] →
     length (get_images st (imageLocations c)) = length (imageLocations c))
  ∧ for_of (resolve_app st) (appReleaseUuids c) [] = Ok (x_appReleases x).
Proof.
  unfold read_phase. case_decide as Hd; [done|].
  destruct (imageLocations c) as [|l ls]; simpl.
  - destruct (for_of _ _ _) as [rels|] eqn:Hfor; simpl; [|done].
    intros [= <-]. simpl. by split_and!.
  - case_decide as Hi; simpl; [done|].
    destruct (for_of _ _ _) as [rels|] eqn:Hfor; simpl; [|done].
    intros [= <-]. simpl. by split_and!.
Qed.

Lemma resolve_apps_ok st entries acc rels :
  for_of (resolve_app st) entries acc = Ok rels →
  NoDup (keys entries) →
  ∀ app,
    (app ∉ keys entries → get app rels = get app acc)
    ∧ (∀ s, (app, s) ∈ entries →
         get app rels = Some (get_releases st app s)
         ∧ length (get_releases st app s) = length s).
Proof.
  revert acc. induction entries as [|[app0 s0] rest IH]; simpl;
    intros acc Hfor Hnd app.
  - injection Hfor as <-. split; [done|]. by intros s ?%elem_of_nil.
  - case_decide as Hlen; simpl in Hfor; [done|].
    apply NoDup_cons in Hnd as [Hk Hnd].
    destruct (IH _ Hfor Hnd app) as [IH1 IH2]. split.
    + intros [Hne Hnin]%not_elem_of_cons.
      rewrite IH1 by done. by rewrite get_set_ne.
    + intros s [Heq|Hin]%elem_of_cons.
      * simplify_eq. split; [|done].
        rewrite IH1 by done. apply get_set_eq.
      * by apply IH2.
Qed.

Lemma release_commit_NoDup rels app :
  NoDup ((λ r, (r_app r, commit r)) <$> rels) →
  NoDup (commit <$> filter (λ r, r_app r = app) rels).
Proof.
  induction rels as [|r rels IH]; [intros _; apply NoDup_nil_2|].
  rewrite fmap_cons, filter_cons.
  intros [Hr Hnd]%NoDup_cons. case_decide as Happ; [|by auto].
  rewrite fmap_cons. apply NoDup_cons. split; [|by auto].
  intros (r' & Hc & [Happ' Hin]%list_elem_of_filter)%list_elem_of_fmap.
  apply Hr. apply list_elem_of_fmap. exists r'. split; [|done]. congruence.
Qed.

Lemma get_releases_alt st app s :
  get_releases st app s
  = filter (λ r, commit r ∈ s) (filter (λ r, r_app r = app) (all_releases st)).
Proof. unfold get_releases. by rewrite list_filter_filter. Qed.

Lemma get_releases_full st app s c :
  store_ok st → length (get_releases st app s) = length s → c ∈ s →
  ∃ r, r ∈ get_releases st app s ∧ commit r = c.
Proof.
  intros Hok Hlen Hc. rewrite get_releases_alt in *.
  destruct (in_filter_full commit
              (filter (λ r, r_app r = app) (all_releases st)) s
              (release_commit_NoDup _ _ (commit_unique _ Hok)) Hlen c Hc)
    as (r & Hr & Hcr).
  exists r. split; [|done]. apply list_elem_of_filter. split; [|done].
  by rewrite Hcr.
Qed.

Lemma get_releases_elem st app s r :
  r ∈ get_releases st app s →
  r ∈ all_releases st ∧ r_app r = app ∧ commit r ∈ s.
Proof. intros [[??] ?]%list_elem_of_filter. done. Qed.

Lemma device_ref_uuids st :
  ref_uuid <$> (device_ref <$> devices st) = d_uuid <$> devices st.
Proof. by rewrite <- list_fmap_compose. Qed.

Lemma get_devices_full st uuids uuid :
  store_ok st → length (get_devices st uuids) = length uuids →
  uuid ∈ uuids →
  ∃ d, d ∈ devices st ∧ d_uuid d = uuid
       ∧ device_ref d ∈ get_devices st uuids.
Proof.
  intros Hok Hlen Hin. unfold get_devices in *.
  destruct (in_filter_full ref_uuid (device_ref <$> devices st) uuids)
    with (k := uuid) as (r & Hr & Hu); [|done..|].
  { rewrite device_ref_uuids. apply Hok. }
  apply list_elem_of_fmap in Hr as (d & -> & Hd).
  exists d. split_and!; [done..|].
  apply list_elem_of_filter. split; [by rewrite Hu|].
  apply list_elem_of_fmap. by exists d.
Qed.

Lemma get_images_full st locs loc :
  store_ok st → length (get_images st locs) = length locs → loc ∈ locs →
  ∃ i, i ∈ get_images st locs ∧ is_stored_at__image_location i = loc.
Proof.
  intros Hok Hlen Hin. unfold get_images in *.
  destruct (in_filter_full is_stored_at__image_location (images st) locs
              (location_unique _ Hok) Hlen loc Hin) as (i & Hi & Hl).
  exists i. split; [|done]. apply list_elem_of_filter. by rewrite Hl.
Qed.

(** After a read phase that passed, every application that has a commit
    set has its releases in [appReleases], one per collected commit. *)
Lemma read_phase_app_releases body st c x app s :
  collect body (non_null_uuids body) = Ok c →
  read_phase st (non_null_uuids body) c = Ok x →
  get app (appReleaseUuids c) = Some s →
  get app (x_appReleases x) = Some (get_releases st app s)
  ∧ length (get_releases st app s) = length s.
Proof.
  intros Hc (_ & _ & _ & _ & Hfor)%read_phase_ok_inv Hs.
  destruct (resolve_apps_ok _ _ _ _ Hfor (collect_keys_NoDup _ _ _ Hc) app)
    as [_ Hres].
  exact (Hres s (get_elem_of _ _ _ Hs)).
Qed.

(** A commit that is named under an application is among the releases
    resolved for that application. *)
Lemma read_phase_commit body st c x app ac r :
  store_ok st →
  collect body (non_null_uuids body) = Ok c →
  read_phase st (non_null_uuids body) c = Ok x →
  claims_app body app ac → names_commit ac r →
  ∃ s rel, get app (x_appReleases x) = Some (get_releases st app s)
           ∧ rel ∈ get_releases st app s ∧ commit rel = r.
Proof.
  intros Hok Hc Hread Hclaim Hname.
  destruct (claims_app_covered _ _ _ _ Hc Hclaim) as (_ & Hrun & _).
  destruct (Hrun r Hname) as (s & Hs & Hin). simpl in Hs.
  destruct (read_phase_app_releases _ _ _ _ _ _ Hc Hread Hs) as [Hget Hlen].
  destruct (get_releases_full _ _ _ _ Hok Hlen Hin) as (rel & Hrel & Hcr).
  by exists s, rel.
Qed.

(** A location that a service runs is among the images resolved. *)
Lemma read_phase_image body st c x loc :
  store_ok st →
  collect body (non_null_uuids body) = Ok c →
  read_phase st (non_null_uuids body) c = Ok x →
  loc ∈ imageLocations c →
  ∃ img, x_images x = Some (get_images st (imageLocations c))
         ∧ img ∈ get_images st (imageLocations c)
         ∧ is_stored_at__image_location img = loc.
Proof.
  intros Hok Hc Hread Hloc.
  pose proof (read_phase_ok_inv _ _ _ _ Hread) as (_ & _ & Hxi & Hil & _).
  destruct (imageLocations c) as [|l ls] eqn:Hlocs;
    [by apply elem_of_nil in Hloc|].
  destruct (get_images_full st _ _ Hok (Hil ltac:(done)) Hloc)
    as (i & Hi & Hl).
  by exists i.
Qed.

(** A read phase that passed has resolved all that the batch refers to. *)
Lemma read_phase_resolves body st c x :
  store_ok st →
  collect body (non_null_uuids body) = Ok c →
  read_phase st (non_null_uuids body) c = Ok x →
  (∀ uuid, references_device body uuid → device_resolves st uuid)
  ∧ (∀ loc, references_image body loc → image_resolves st loc)
  ∧ (∀ appUuid r, references_commit body appUuid r →
       commit_resolves st appUuid r).
Proof.
  intros Hok Hc Hread.
  pose proof (read_phase_ok_inv _ _ _ _ Hread) as (_ & Hdev & _).
  split_and!.
  - intros uuid [state Hs]. apply state_of_non_null in Hs.
    destruct (get_devices_full _ _ _ Hok Hdev Hs) as (d & ? & ? & _).
    by exists d.
  - intros loc (appUuid & ac & rels & r & rc & svcs & name & svc & Hclaim
                & Hrels & Hr & Hsv & Hin & <-).
    destruct (claims_app_covered _ _ _ _ Hc Hclaim) as (_ & _ & Hcov).
    pose proof (Hcov _ _ _ _ _ _ Hrels Hr Hsv Hin) as Hloc.
    destruct (read_phase_image _ _ _ _ _ Hok Hc Hread Hloc)
      as (i & _ & [_ Hi]%list_elem_of_filter & Hl).
    by exists i.
  - intros appUuid r (ac & Hclaim & Hname).
    destruct (read_phase_commit _ _ _ _ _ _ _ Hok Hc Hread Hclaim Hname)
      as (s & rel & _ & Hrel & Hcr).
    apply get_releases_elem in Hrel as (? & ? & _). by exists rel.
Qed.

(** ** [Array.prototype.find] *)

Lemma find_is_Some {A} (f : A → bool) l x :
  x ∈ l → f x = true → ∃ y, List.find f l = Some y.
Proof.
  intros Hin Hf. destruct (List.find f l) as [y|] eqn:Hfind; [by eauto|].
  apply list_elem_of_In in Hin.
  pose proof (List.find_none f l Hfind x Hin). congruence.
Qed.

Lemma find_Some_elem {A} (f : A → bool) l y :
  List.find f l = Some y → y ∈ l ∧ f y = true.
Proof.
  intros [Hin Hf]%List.find_some. by apply list_elem_of_In in Hin.
Qed.

(** ** Authorization: an unresolved reference rejects the batch *)

(** A request whose normalizer throws ends there. *)
Lemma normalizer_throw_rejects body st e :
  non_null_uuids body ≠ [] →
  collect body (non_null_uuids body) = Throw e →
  statePatchV3 body st = Rejected e.
Proof.
  intros Hne Hc. unfold statePatchV3.
  destruct (non_null_uuids body) as [|u us] eqn:Hu; [done|]. by rewrite Hc.
Qed.

(** A reference that does not resolve stops the request before the write
    transaction: in the read phase, unless the normalizer has thrown. *)
Lemma unresolved_reference_rejected body st :
  store_ok st →
  (∃ uuid, references_device body uuid ∧ ¬ device_resolves st uuid)
  ∨ (∃ loc, references_image body loc ∧ ¬ image_resolves st loc)
  ∨ (∃ appUuid c, references_commit body appUuid c
                  ∧ ¬ commit_resolves st appUuid c) →
  statePatchV3 body st = Rejected (rejection body).
Proof.
  intros Hok Hun.
  assert (∃ uuid, references_device body uuid) as [uuid [state Hs]].
  { destruct Hun as [(uuid & Hr & _)|[(loc & Hr & _)|(app & c & Hr & _)]].
    - by exists uuid.
    - destruct Hr as (? & ? & ? & ? & ? & ? & ? & ? & Hc & _).
      destruct Hc as (uuid & state & ? & Hs & _). exists uuid. by exists state.
    - destruct Hr as (? & Hc & _).
      destruct Hc as (uuid & state & ? & Hs & _). exists uuid. by exists state. }
  apply state_of_non_null in Hs.
  assert (non_null_uuids body ≠ []) as Hne.
  { intros Hnil. rewrite Hnil in Hs. by apply elem_of_nil in Hs. }
  destruct (rejection_cases body) as [[-> [c Hc]]|[-> Hc]];
    [|by apply normalizer_throw_rejects].
  unfold statePatchV3.
  destruct (non_null_uuids body) as [|u us] eqn:Hu; [done|].
  rewrite <- Hu in *. rewrite Hc.
  destruct (read_phase _ _ _) as [x|e] eqn:Hread.
  - exfalso.
    destruct (read_phase_resolves _ _ _ _ Hok Hc Hread) as (Hd & Hi & Hcm).
    destruct Hun as [(? & Hr & Hn)|[(? & Hr & Hn)|(? & ? & Hr & Hn)]];
      apply Hn; auto.
  - by apply read_phase_throws in Hread as ->.
Qed.



(** ** The write phase after a read phase that passed *)

Lemma write_loop_throw_inv body x uuids w w' e :
  write_loop body x uuids w = (w', Throw e) →
  ∃ uuid w1, uuid ∈ uuids ∧ process_device body x w1 uuid = (w', Throw e).
Proof.
  revert w. induction uuids as [|uuid rest IH]; simpl; intros w; [done|].
  destruct (process_device body x w uuid) as [w1 [[]|e1]] eqn:Hp.
  - intros (u & w2 & Hin & Hpu)%IH. exists u, w2. split; [by right | done].
  - intros [= <- <-]. exists uuid, w. split; [left | done].
Qed.

(** Every instruction the write phase builds finds its release and its
    image in what the read phase resolved: the only way to fail is to
    list the properties of a [releases] or [services] that is [null]. *)
Lemma build_imgInstalls_throw_inv body st c x uuid state a e :
  store_ok st →
  collect body (non_null_uuids body) = Ok c →
  read_phase st (non_null_uuids body) c = Ok x →
  state_of body uuid = Some state → apps state = Some a →
  build_imgInstalls x a = Throw e →
  e = TypeError ∧ has_null a.
Proof.
  intros Hok Hc Hread Hs Ha.
  intros (acc & [app ac] & Hin & Happ)%for_of_throw_inv.
  assert (claims_app body app ac) as Hclaim by (by exists uuid, state, a).
  revert Happ. unfold install_app.
  destruct (releases ac) as [| |rels] eqn:Hrels; simpl; [done| |].
  { intros [= <-]. split; [done|]. left. by exists app, ac. }
  intros (acc1 & [r rc] & Hr & Hrel)%for_of_throw_inv.
  revert Hrel. unfold install_release.
  destruct (read_phase_commit _ _ _ _ app ac r Hok Hc Hread Hclaim)
    as (s & rel & -> & Hrel & Hcr).
  { right. by exists rels, rc. }
  destruct (find_is_Some (λ r0, bool_decide (commit r0 = r)) _ rel Hrel)
    as [release ->]; [by apply bool_decide_eq_true|].
  destruct (services rc) as [| |svcs] eqn:Hsv; simpl; [done| |].
  { intros [= <-]. split; [done|]. right. by exists app, ac, rels, r, rc. }
  intros (acc2 & svc & Hsvc & Hthrow)%for_of_throw_inv. exfalso.
  apply list_elem_of_fmap in Hsvc as ([name svc'] & -> & Hsvc).
  destruct (claims_app_covered _ _ _ _ Hc Hclaim) as (_ & _ & Hcov).
  pose proof (Hcov _ _ _ _ _ _ Hrels Hr Hsv Hsvc) as Hloc.
  destruct (read_phase_image _ _ _ _ _ Hok Hc Hread Hloc)
    as (i & Hxi & Hi & Hl).
  revert Hthrow. unfold install_service. rewrite Hxi. simpl.
  by destruct (find_is_Some
              (λ i0, bool_decide (is_stored_at__image_location i0 = image svc'))
              _ i Hi) as [img ->]; [by apply bool_decide_eq_true|].
Qed.

(** C5. Once the count checks of the read phase have passed, neither
    [InternalRequestError] of the write phase can be thrown: each claimed
    release commit is found among the releases resolved for its
    application and each claimed image location among the resolved
    images. *)
Theorem C5_internal_fault_unreachable body st c x w e :
  store_ok st →
  collect body (non_null_uuids body) = Ok c →
  read_phase st (non_null_uuids body) c = Ok x →
  write_loop body x (non_null_uuids body) [] = (w, Throw e) →
  e ≠ InternalRequestError.
Proof.
  intros Hok Hc Hread (uuid & w1 & Hin & Hp)%write_loop_throw_inv.
  revert Hp. unfold process_device.
  destruct (state_of body uuid) as [state|] eqn:Hs; [|by intros [= _ <-]].
  destruct (List.find _ _) as [device|]; [|by intros [= _ <-]].
  destruct (device_body x state device) as [b|e'] eqn:Hb.
  - destruct (apps state) as [a|] eqn:Ha; [|done].
    destruct (build_imgInstalls x a) as [l|e'] eqn:Hbuild; [done|].
    intros [= _ <-].
    by destruct (build_imgInstalls_throw_inv _ _ _ _ _ _ _ _ Hok Hc Hread
                   Hs Ha Hbuild) as [-> _].
  - intros [= _ <-]. by apply device_body_throws in Hb as ->.
Qed.


Lemma C5_internal_fault_unreachable_witness :
  store_ok Example.store1
  ∧ collect Example.body_other_app (non_null_uuids Example.body_other_app)
    = Ok Example.collected_other_app
  ∧ read_phase Example.store1 (non_null_uuids Example.body_other_app)
      Example.collected_other_app
    = Ok Example.resolved_other_app
  ∧ write_loop Example.body_other_app Example.resolved_other_app
      (non_null_uuids Example.body_other_app) [] = ([], Throw TypeError)
  ∧ TypeError ≠ InternalRequestError.
Proof.
  assert (store_ok Example.store1) as Hok.
  { split; apply (bool_decide_unpack _); vm_compute; exact I. }
  split_and!; [done | reflexivity | reflexivity | reflexivity |].
  apply (C5_internal_fault_unreachable Example.body_other_app
           Example.store1 Example.collected_other_app
           Example.resolved_other_app [] TypeError Hok);
    reflexivity.
Defined.

(** ** A location shared by two services *)

(** C4. The image locations are pushed on an array, once per service, and
    the count check compares the length of that array with the number of
    image rows found. A batch in which two devices run the same existing
    image is therefore rejected as unauthorized, although each of its
    locations resolves and each device alone is accepted. *)
Theorem C4_shared_location_rejected :
  (∃ c, collect Example.body_shared (non_null_uuids Example.body_shared)
        = Ok c
        ∧ imageLocations c = ["img-loc-1"; "img-loc-1"])
  ∧ image_resolves Example.store1 "img-loc-1"
  ∧ length (get_images Example.store1 ["img-loc-1"; "img-loc-1"]) = 1%nat
  ∧ statePatchV3 Example.body_shared Example.store1
    = Rejected UnauthorizedError
  ∧ thrown (statePatchV3 Example.body_shared_1 Example.store1) = None
  ∧ thrown (statePatchV3 Example.body_shared_2 Example.store1) = None.
Proof.
  split_and!; try reflexivity.
  - eexists. split; reflexivity.
  - eexists. split; [left | reflexivity].
Qed.

(** ** The running release *)

Lemma NoDup_fmap_eq {A B} (f : A → B) l x y :
  NoDup (f <$> l) → x ∈ l → y ∈ l → f x = f y → x = y.
Proof.
  induction l as [|z l IH]; [by intros _ ?%elem_of_nil|].
  rewrite fmap_cons. intros [Hz Hnd]%NoDup_cons.
  intros [->|Hx]%elem_of_cons [->|Hy]%elem_of_cons Hf; [done| | |by auto].
  - exfalso. apply Hz. rewrite Hf. apply list_elem_of_fmap. by exists y.
  - exfalso. apply Hz. rewrite <- Hf. apply list_elem_of_fmap. by exists x.
Qed.

(** The device the write loop finds for a uuid is the device of the store
    with that uuid. *)
Lemma find_device body st c x d :
  store_ok st →
  collect body (non_null_uuids body) = Ok c →
  read_phase st (non_null_uuids body) c = Ok x →
  d ∈ devices st → d_uuid d ∈ non_null_uuids body →
  List.find (λ r, bool_decide (ref_uuid r = d_uuid d)) (x_devices x)
  = Some (device_ref d).
Proof.
  intros Hok _ (Hx & _)%read_phase_ok_inv Hd Hu. rewrite Hx.
  assert (device_ref d ∈ get_devices st (non_null_uuids body)) as Hin.
  { apply list_elem_of_filter. split; [done|].
    apply list_elem_of_fmap. by exists d. }
  destruct (find_is_Some (λ r, bool_decide (ref_uuid r = d_uuid d)) _ _ Hin)
    as [r Hfind]; [by apply bool_decide_eq_true|].
  rewrite Hfind. f_equal.
  apply find_Some_elem in Hfind as [Hr Hru].
  apply bool_decide_eq_true in Hru.
  apply list_elem_of_filter in Hr as [_ Hr].
  apply list_elem_of_fmap in Hr as (d' & -> & Hd').
  f_equal. eapply NoDup_fmap_eq; [apply (uuid_unique _ Hok) | done..].
Qed.

Lemma base_body_no_release state :
  get "is_running__release" (base_body state) = None.
Proof.
  apply get_None_keys. intros [Hk|Hk]%base_body_keys; [|done].
  unfold validPatchFields in Hk. set_solver.
Qed.

Lemma push_patch_subseteq device b w : w ⊆ push_patch device b w.
Proof.
  unfold push_patch. destruct b; [done|]. intros i Hi.
  apply elem_of_app. by left.
Qed.

Lemma push_installs_subseteq device cs w : w ⊆ push_installs device cs w.
Proof.
  unfold push_installs. intros i Hi. apply elem_of_app. left.
  destruct (imageId <$> cs); [done|]. apply elem_of_app. by left.
Qed.

Lemma process_device_subseteq body x w uuid :
  w ⊆ (process_device body x w uuid).1.
Proof.
  unfold process_device.
  destruct (state_of body uuid) as [state|]; [|done].
  destruct (List.find _ _) as [device|]; [|done].
  destruct (device_body x state device) as [b|]; [|done].
  destruct (apps state) as [a|]; [|apply push_patch_subseteq].
  destruct (build_imgInstalls x a) as [cs|]; simpl;
    [|apply push_patch_subseteq].
  etrans; [apply push_patch_subseteq | apply push_installs_subseteq].
Qed.

Lemma write_loop_subseteq body x uuids w :
  w ⊆ (write_loop body x uuids w).1.
Proof.
  revert w. induction uuids as [|uuid rest IH]; simpl; intros w; [done|].
  pose proof (process_device_subseteq body x w uuid) as Hsub.
  destruct (process_device body x w uuid) as [w1 [[]|e1]]; simpl in *;
    [|done].
  etrans; [done | apply IH].
Qed.

(** In a write loop that ran to its end every turn ran to its end, and
    what it pushed is among the instructions. *)
Lemma write_loop_ok_inv body x uuids w w' uuid :
  write_loop body x uuids w = (w', Ok ()) → uuid ∈ uuids →
  ∃ w1 w2, process_device body x w1 uuid = (w2, Ok ()) ∧ w2 ⊆ w'.
Proof.
  revert w. induction uuids as [|u rest IH]; simpl; intros w Hloop Hin.
  { by apply elem_of_nil in Hin. }
  destruct (process_device body x w u) as [w1 [[]|e1]] eqn:Hp; [|done].
  apply elem_of_cons in Hin as [->|Hin]; [|by eapply IH].
  exists w, w1. split; [done|].
  pose proof (write_loop_subseteq body x rest w1) as Hsub.
  by rewrite Hloop in Hsub.
Qed.

(** A committed request carries the patch of each of its devices. *)
Lemma committed_patch body st w c x d state b :
  store_ok st →
  statePatchV3 body st = Committed w →
  collect body (non_null_uuids body) = Ok c →
  read_phase st (non_null_uuids body) c = Ok x →
  d ∈ devices st → state_of body (d_uuid d) = Some state →
  device_body x state (device_ref d) = Ok b → b ≠ [] →
  PatchDevice (d_id d) b ∈ w.
Proof.
  intros Hok (c' & x' & Hc' & Hread' & Hloop)%committed_inv Hc Hread Hd Hs
    Hb Hne.
  rewrite Hc in Hc'. injection Hc' as <-.
  rewrite Hread in Hread'. injection Hread' as <-.
  pose proof (state_of_non_null _ _ _ Hs) as Hu.
  destruct (write_loop_ok_inv _ _ _ _ _ _ Hloop Hu) as (w1 & w2 & Hp & Hsub).
  apply Hsub. revert Hp. unfold process_device.
  rewrite Hs, (find_device _ _ _ _ _ Hok Hc Hread Hd Hu), Hb.
  assert (PatchDevice (d_id d) b ∈ push_patch (device_ref d) b w1) as Hin.
  { unfold push_patch. destruct b; [done|]. apply elem_of_app. right.
    simpl. left. }
  destruct (apps state) as [a|]; [|by intros [= <-]].
  destruct (build_imgInstalls x a) as [cs|]; [|done].
  intros [= <-]. by apply push_installs_subseteq.
Qed.

(** What [appReleases] holds under an application are the releases of
    that application with the commits collected for it. *)
Lemma x_appReleases_inv body st c x app rs :
  collect body (non_null_uuids body) = Ok c →
  read_phase st (non_null_uuids body) c = Ok x →
  get app (x_appReleases x) = Some rs →
  ∃ s, get app (appReleaseUuids c) = Some s ∧ rs = get_releases st app s
       ∧ length rs = length s.
Proof.
  intros Hc Hread Hrs.
  destruct (get app (appReleaseUuids c)) as [s|] eqn:Hs.
  - destruct (read_phase_app_releases _ _ _ _ _ _ Hc Hread Hs) as [Hget Hlen].
    rewrite Hrs in Hget. injection Hget as ->. by exists s.
  - exfalso. apply read_phase_ok_inv in Hread as (_ & _ & _ & _ & Hfor).
    destruct (resolve_apps_ok _ _ _ _ Hfor (collect_keys_NoDup _ _ _ Hc) app)
      as [Hnone _].
    rewrite Hnone in Hrs; [done|]. by apply get_None_keys.
Qed.

Lemma own_app_releases body st c x uuid state a d ac :
  collect body (non_null_uuids body) = Ok c →
  read_phase st (non_null_uuids body) c = Ok x →
  state_of body uuid = Some state → apps state = Some a →
  get (d_app d) a = Some ac → d_app d ∉ object_prototype →
  ∃ s, get (d_app d) (x_appReleases x) = Some (get_releases st (d_app d) s)
       ∧ length (get_releases st (d_app d) s) = length s
       ∧ ∀ c0, release_uuid ac = Some c0 → c0 ≠ "" → c0 ∈ s.
Proof.
  intros Hc Hread Hs Ha Hac Hno.
  assert (claims_app body (d_app d) ac) as Hclaim.
  { exists uuid, state, a. split_and!; [done..|]. by apply get_elem_of. }
  destruct (claims_app_covered _ _ _ _ Hc Hclaim) as (Hown & Hrun & _).
  destruct (Hown Hno) as [s Hs']. simpl in Hs'.
  destruct (read_phase_app_releases _ _ _ _ _ _ Hc Hread Hs') as [Hget Hlen].
  exists s. split_and!; [done..|]. intros c0 Hc0 Hne.
  destruct (Hrun c0) as (s' & Hs'' & Hin); [by left|].
  simpl in Hs''. rewrite Hs' in Hs''. by injection Hs'' as <-.
Qed.

(** C3, as the code has it. Take a device entry with an [apps] object.
    (1) If its entry for the device's own application names a commit that
    no release of that application carries - a commit of another
    application included - the whole batch is rejected before the write
    transaction: as unauthorized by the read phase, unless the normalizer
    has thrown. Once the read phase has passed: (2) an
    [is_running__release] in the device patch is always the id of a
    release of the device's own application whose commit is the claimed
    [release_uuid], never a release of another application; (3) when the
    [apps] object has an entry for the own application, whose uuid is not
    the name of a property of [Object.prototype], the patch is built
    without a throw, carries the id of that release when a [release_uuid]
    is claimed and no [is_running__release] when none is; (4) a committed
    request issues that patch. *)
Theorem C3_running_release_rule body st uuid state a d :
  store_ok st →
  state_of body uuid = Some state → apps state = Some a →
  d ∈ devices st → d_uuid d = uuid →
  (∀ ac r, get (d_app d) a = Some ac → release_uuid ac = Some r →
     r ≠ "" → ¬ commit_resolves st (d_app d) r →
     statePatchV3 body st = Rejected (rejection body))
  ∧ ∀ c x, collect body (non_null_uuids body) = Ok c →
      read_phase st (non_null_uuids body) c = Ok x →
      (∀ b v, device_body x state (device_ref d) = Ok b →
         get "is_running__release" b = Some v →
         ∃ ac r, get (d_app d) a = Some ac ∧ r ∈ all_releases st
                 ∧ r_app r = d_app d ∧ release_uuid ac = Some (commit r)
                 ∧ v = VNum (r_id r))
      ∧ (∀ ac, get (d_app d) a = Some ac → d_app d ∉ object_prototype →
           ∃ b, device_body x state (device_ref d) = Ok b
             ∧ (∀ r0, release_uuid ac = Some r0 → r0 ≠ "" →
                  ∃ r, r ∈ all_releases st ∧ r_app r = d_app d
                       ∧ commit r = r0
                       ∧ get "is_running__release" b
                         = Some (VNum (r_id r)))
             ∧ (release_uuid ac = None →
                  get "is_running__release" b = None))
      ∧ (∀ w b, statePatchV3 body st = Committed w →
           device_body x state (device_ref d) = Ok b → b ≠ [] →
           PatchDevice (d_id d) b ∈ w).
Proof.
  intros Hok Hs Ha Hd Hu. split.
  { intros ac r Hac Hr Hne Hno.
    apply unresolved_reference_rejected; [done|]. right. right.
    exists (d_app d), r. split; [|done]. exists ac. split; [|by left].
    exists uuid, state, a. split_and!; [done..|]. by apply get_elem_of. }
  intros c x Hc Hread. split_and!.
  - intros b v. unfold device_body. rewrite Ha. simpl.
    destruct (running_release _ _ _) as [[r|]|] eqn:Hrun; simpl; [| |done].
    2:{ intros [= <-]. by rewrite base_body_no_release. }
    intros [= <-]. rewrite get_set_eq. intros [= <-].
    revert Hrun. unfold running_release. simpl.
    destruct (get (d_app d) (x_appReleases x)) as [rs|] eqn:Hrs; [|done].
    destruct (get (d_app d) a) as [ac|] eqn:Hac; [|by destruct rs].
    intros [= Hfind]. apply find_Some_elem in Hfind as [Hr Hcr].
    apply bool_decide_eq_true in Hcr.
    destruct (x_appReleases_inv _ _ _ _ _ _ Hc Hread Hrs) as (s & _ & -> & _).
    apply get_releases_elem in Hr as (? & ? & _).
    exists ac, r. by split_and!.
  - intros ac Hac Hproto.
    destruct (own_app_releases _ _ _ _ _ _ _ d _ Hc Hread Hs Ha Hac Hproto)
      as (s & Hget & Hlen & Hin).
    unfold device_body, running_release. rewrite Ha. simpl.
    rewrite Hget, Hac. simpl. eexists. split; [done|]. split.
    + intros r0 Hr0 Hne.
      destruct (get_releases_full _ _ _ _ Hok Hlen (Hin _ Hr0 Hne))
        as (rel & Hrel & Hcrel).
      destruct (find_is_Some
                  (λ r, bool_decide (Some (commit r) = release_uuid ac))
                  _ rel Hrel) as [r Hfind].
      { apply bool_decide_eq_true. by rewrite Hr0, Hcrel. }
      rewrite Hfind. apply find_Some_elem in Hfind as [Hr Hcr].
      apply bool_decide_eq_true in Hcr. rewrite Hr0 in Hcr.
      apply get_releases_elem in Hr as (? & ? & _).
      exists r. split_and!; [done | done | congruence | apply get_set_eq].
    + intros Hnone.
      destruct (List.find _ _) as [r|] eqn:Hfind.
      * apply find_Some_elem in Hfind as [_ Hcr].
        apply bool_decide_eq_true in Hcr. congruence.
      * apply base_body_no_release.
  - intros w b Hcommit Hb Hne. subst uuid.
    by eapply committed_patch.
Qed.

(** The report of section 8, whose patch carries the release 5, and a
    report that names a foreign commit for the own application next to
    a commit under the application key [toString]: the second is
    rejected by the normalizer. *)
Lemma C3_running_release_rule_witness :
  (store_ok Example.store1
   ∧ Example.device1 ∈ devices Example.store1
   ∧ collect Example.body1 (non_null_uuids Example.body1)
     = Ok Example.collected1
   ∧ read_phase Example.store1 (non_null_uuids Example.body1)
       Example.collected1
     = Ok Example.resolved1
   ∧ device_body Example.resolved1 Example.state1
       (device_ref Example.device1) = Ok Example.patch1
   ∧ get "is_running__release" Example.patch1 = Some (VNum 5)
   ∧ ∃ ac r, get "a1" (Example.claim "a1" "r1" "img-loc-1") = Some ac
             ∧ r ∈ all_releases Example.store1
             ∧ r_app r = "a1" ∧ release_uuid ac = Some (commit r)
             ∧ VNum 5 = VNum (r_id r))
  ∧ (¬ commit_resolves Example.store1 "a1" "r2"
     ∧ statePatchV3 Example.body_inherited_commit Example.store1
       = Rejected TypeError).
Proof.
  assert (store_ok Example.store1) as Hok.
  { split; apply (bool_decide_unpack _); vm_compute; exact I. }
  assert (Example.device1 ∈ devices Example.store1) as Hd by left.
  split.
  - split_and!;
      [done | done | reflexivity | reflexivity | reflexivity | reflexivity |].
    pose proof (C3_running_release_rule Example.body1 Example.store1 "d1"
                  Example.state1 (Example.claim "a1" "r1" "img-loc-1")
                  Example.device1 Hok eq_refl eq_refl Hd eq_refl) as [_ H].
    destruct (H Example.collected1 Example.resolved1 eq_refl eq_refl)
      as (Hsound & _ & _).
    exact (Hsound Example.patch1 (VNum 5) eq_refl eq_refl).
  - assert (¬ commit_resolves Example.store1 "a1" "r2") as Hno.
    { intros (r & Hr & Happ & Hc). simpl in Hr.
      apply elem_of_cons in Hr as [->|Hr]; [done|].
      apply list_elem_of_singleton in Hr as ->. done. }
    split; [done|].
    pose proof (C3_running_release_rule Example.body_inherited_commit
                  Example.store1 "d1" Example.state_inherited_commit
                  Example.apps_inherited_commit Example.device1 Hok
                  eq_refl eq_refl Hd eq_refl) as [H _].
    exact (H {| release_uuid := Some "r2"; releases := Undefined |} "r2"
             eq_refl eq_refl ltac:(done) Hno).
Defined.

(** An [apps] object without an entry for the device's own application:
    the lookup of lines 246-248 reads a property of [undefined], and the
    write transaction is aborted before anything is issued. *)
Lemma missing_own_app_entry_throws :
  get (d_app Example.device1) (Example.claim "a2" "r2" "img-loc-2") = None
  ∧ statePatchV3 Example.body_other_app Example.store1
    = Aborted TypeError [].
Proof. split; reflexivity. Qed.

(** A device of [a1] names a commit of [a2] as the release it runs: the
    commit exists, but not in the device's application, and the request
    ends with [UnauthorizedError] instead of going on without
    [is_running__release]. *)
Lemma C3_foreign_commit_is_hard_failure :
  state_of Example.body_foreign_commit "d1"
  = Some Example.state_foreign_commit
  ∧ get (d_app Example.device1)
      (default [] (apps Example.state_foreign_commit))
    = Some {| release_uuid := Some "r2"; releases := Undefined |}
  ∧ Example.device1 ∈ devices Example.store1
  ∧ commit_resolves Example.store1 "a2" "r2"
  ∧ ¬ commit_resolves Example.store1 "a1" "r2"
  ∧ statePatchV3 Example.body_foreign_commit Example.store1
    = Rejected UnauthorizedError
  ∧ ¬ ∃ w, statePatchV3 Example.body_foreign_commit Example.store1
           = Committed w.
Proof.
  split_and!;
    [reflexivity | reflexivity | left | | | reflexivity | by intros [w ?]].
  - eexists. split; [right; left|]. done.
  - intros (r & Hr & Happ & Hc). simpl in Hr.
    apply elem_of_cons in Hr as [->|Hr]; [done|].
    apply elem_of_cons in Hr as [->|Hr]; [done|].
    by apply elem_of_nil in Hr.
Qed.

(** ** Device patches are idempotent *)

Lemma get_write_columns cols b k :
  NoDup (keys b) →
  (k ∉ keys b → get k (write_columns cols b) = get k cols)
  ∧ (∀ v, (k, v) ∈ b → get k (write_columns cols b) = Some v).
Proof.
  unfold write_columns, keys. revert cols.
  induction b as [|[k0 v0] b IH]; simpl; intros cols Hnd.
  - split; [done|]. by intros v ?%elem_of_nil.
  - apply NoDup_cons in Hnd as [Hk0 Hnd].
    destruct (IH (set k0 v0 cols) Hnd) as [IH1 IH2]. split.
    + intros [Hne Hnin]%not_elem_of_cons.
      rewrite IH1 by done. by rewrite get_set_ne.
    + intros v [Heq|Hin]%elem_of_cons; [|by auto].
      simplify_eq. destruct (IH (set k0 v0 cols) Hnd) as [-> _].
      * apply get_set_eq.
      * intros Hin. by apply Hk0.
Qed.

Lemma write_columns_matches cols b :
  NoDup (keys b) → row_matches (write_columns cols b) b.
Proof.
  intros Hnd. apply Forall_forall. intros [k v] Hin. simpl.
  unfold column. destruct (get_write_columns cols b k Hnd) as [_ Hget].
  by rewrite (Hget v Hin).
Qed.

(** A patch finds nothing to write in rows that already hold its body. *)
Lemma patch_device_matching id' b ds :
  (∀ d, d ∈ ds → d_id d = id' → row_matches (d_columns d) b) →
  patch_device id' b ds = ds ∧ rows_written id' b ds = 0%nat.
Proof.
  intros Hall. unfold patch_device, rows_written.
  induction ds as [|d ds IH]; [done|].
  rewrite fmap_cons, filter_cons.
  assert (¬ patch_selects id' b d) as Hsel.
  { intros [Hid Hno]. apply Hno, Hall; [left | done]. }
  rewrite !decide_False by done.
  destruct IH as [-> ->]; [|done]. intros d' Hd'. apply Hall. by right.
Qed.

Lemma patch_device_elem id' b ds d :
  d ∈ patch_device id' b ds →
  d ∈ ds ∨ ∃ d0, d0 ∈ ds ∧ d_id d0 = id' ∧ d = patch_row b d0.
Proof.
  unfold patch_device. intros (d0 & -> & Hd0)%list_elem_of_fmap.
  case_decide as Hsel; [|by left]. right. exists d0.
  by destruct Hsel as [? _].
Qed.

Lemma patch_device_settles id' b ds d :
  NoDup (keys b) → d ∈ patch_device id' b ds → d_id d = id' →
  row_matches (d_columns d) b.
Proof.
  unfold patch_device. intros Hnd (d0 & -> & Hd0)%list_elem_of_fmap.
  case_decide as Hsel; simpl.
  - intros _. by apply write_columns_matches.
  - intros Hid. apply dec_stable. intros Hno. apply Hsel. by split.
Qed.

Lemma patch_device_refs id' b ds :
  device_ref <$> patch_device id' b ds = device_ref <$> ds.
Proof.
  unfold patch_device. rewrite <- list_fmap_compose.
  apply list_fmap_ext. intros i d _. simpl. by case_decide.
Qed.

(** The instructions leave the identity of the devices, the images and
    the releases alone. *)
Lemma exec_instr_frame scope st i :
  device_ref <$> devices (exec_instr scope st i) = device_ref <$> devices st
  ∧ images (exec_instr scope st i) = images st
  ∧ all_releases (exec_instr scope st i) = all_releases st.
Proof. destruct i; simpl; [|done..]. by rewrite patch_device_refs. Qed.

Lemma exec_frame scope w st :
  device_ref <$> devices (exec scope w st) = device_ref <$> devices st
  ∧ images (exec scope w st) = images st
  ∧ all_releases (exec scope w st) = all_releases st.
Proof.
  unfold exec. revert st. induction w as [|i w IH]; simpl; intros st; [done|].
  destruct (IH (exec_instr scope st i)) as (-> & -> & ->).
  apply exec_instr_frame.
Qed.

Lemma read_phase_frame st st' uuids c :
  device_ref <$> devices st' = device_ref <$> devices st →
  images st' = images st → all_releases st' = all_releases st →
  read_phase st' uuids c = read_phase st uuids c.
Proof.
  destruct st as [ds im rl ii], st' as [ds' im' rl' ii']. simpl.
  intros Hd -> ->. unfold read_phase, get_devices, get_images. simpl.
  by rewrite Hd.
Qed.

Lemma statePatchV3_frame body st st' :
  device_ref <$> devices st' = device_ref <$> devices st →
  images st' = images st → all_releases st' = all_releases st →
  statePatchV3 body st' = statePatchV3 body st.
Proof.
  intros Hd Hi Hr. unfold statePatchV3.
  destruct (non_null_uuids body); [done|].
  destruct (collect _ _); [|done].
  by rewrite (read_phase_frame st st' _ _ Hd Hi Hr).
Qed.

(** Rows that no patch addresses come through unchanged. *)
Lemma exec_other_rows scope w st d :
  d ∈ devices (exec scope w st) → d_id d ∉ patch_ids w → d ∈ devices st.
Proof.
  unfold exec. revert st. induction w as [|i w IH]; simpl; intros st;
    [done|].
  intros Hd Hid. destruct i as [id' b| |]; simpl in *.
  - apply not_elem_of_cons in Hid as [Hne Hid].
    specialize (IH _ Hd Hid). simpl in IH.
    apply patch_device_elem in IH as [?|(d0 & _ & Hid0 & ->)]; [done|].
    simpl in Hne. congruence.
  - exact (IH _ Hd Hid).
  - exact (IH _ Hd Hid).
Qed.

(** Once applied, the patches of a transaction have nothing left to
    write, provided no two of them address the same device. *)
Lemma exec_settles scope w st :
  NoDup (patch_ids w) →
  (∀ id' b, PatchDevice id' b ∈ w → NoDup (keys b)) →
  settled w (devices (exec scope w st)).
Proof.
  unfold exec. revert st. induction w as [|i w IH]; simpl; intros st Hnd Hb.
  { intros ??? ?%elem_of_nil. done. }
  intros id' b d [<-|Hin]%elem_of_cons Hd Hid.
  - simpl in Hnd. apply NoDup_cons in Hnd as [Hnin _].
    assert (d ∈ devices (exec_instr scope st (PatchDevice id' b))) as Hd'.
    { eapply exec_other_rows; [exact Hd | by rewrite Hid]. }
    simpl in Hd'. eapply patch_device_settles; [|done..].
    apply (Hb id'). left.
  - eapply (IH (exec_instr scope st i)); [| |done..].
    + destruct i; simpl in Hnd; [by apply NoDup_cons in Hnd as [_ ?]|done..].
    + intros ?? Hin'. eapply Hb. by right.
Qed.

Lemma device_writes_settled scope w st :
  settled w (devices st) → device_writes scope w st = 0%nat.
Proof.
  revert st. induction w as [|i w IH]; simpl; intros st Hset; [done|].
  assert (devices (exec_instr scope st i) = devices st
          ∧ match i with
            | PatchDevice id' b => rows_written id' b (devices st)
            | _ => 0%nat
            end = 0%nat) as [Hdev ->].
  { destruct i as [id' b| |]; simpl; [|done..].
    apply patch_device_matching. intros d Hd Hid.
    eapply Hset; [left | done..]. }
  simpl. apply IH. rewrite Hdev. intros id' b d Hin. apply Hset. by right.
Qed.

Lemma pick_keys_sublist o paths : keys (pick o paths) `sublist_of` paths.
Proof.
  unfold keys, pick. induction paths as [|k paths IH]; simpl; [done|].
  destruct (get k o); simpl; [by apply sublist_skip | by apply sublist_cons].
Qed.

Lemma validPatchFields_NoDup : NoDup validPatchFields.
Proof. apply (bool_decide_unpack _). by vm_compute. Qed.

Lemma base_body_NoDup state : NoDup (keys (base_body state)).
Proof.
  assert (NoDup (keys (pick (fields state) validPatchFields))) as Hnd.
  { eapply sublist_NoDup; [apply validPatchFields_NoDup|].
    apply pick_keys_sublist. }
  unfold base_body. revert Hnd.
  generalize (pick (fields state) validPatchFields). intros o Hnd.
  destruct (get "name" (fields state)); [|done].
  case_decide; [done|]. by apply NoDup_keys_set.
Qed.

Lemma device_body_NoDup x state device b :
  device_body x state device = Ok b → NoDup (keys b).
Proof.
  unfold device_body.
  destruct (match apps state with Some _ => _ | None => _ end)
    as [[r|]|]; simpl; intros [= <-].
  - apply NoDup_keys_set, base_body_NoDup.
  - apply base_body_NoDup.
Qed.

Lemma issued_patch_NoDup body st id' b :
  PatchDevice id' b ∈ issued_instrs (statePatchV3 body st) →
  NoDup (keys b).
Proof.
  intros (c & x & _ & _ & Hp)%issued_instrs_pushed. inversion Hp; subst.
  by eapply device_body_NoDup.
Qed.

Lemma patch_ids_app w1 w2 : patch_ids (w1 ++ w2) = patch_ids w1 ++ patch_ids w2.
Proof. apply omap_app. Qed.

(** A turn of the write loop issues at most one device patch, for the
    device it found. *)
Lemma process_device_patch_ids body x w uuid :
  ∃ l, patch_ids (process_device body x w uuid).1 = patch_ids w ++ l
       ∧ l `sublist_of` omap (device_id_of x) [uuid].
Proof.
  unfold process_device, device_id_of. simpl.
  destruct (state_of body uuid) as [state|].
  2:{ exists []. rewrite app_nil_r. split; [done | apply sublist_nil_l]. }
  destruct (List.find _ _) as [device|]; simpl.
  2:{ exists []. by rewrite app_nil_r. }
  destruct (device_body x state device) as [b|]; simpl.
  2:{ exists []. rewrite app_nil_r. split; [done | apply sublist_nil_l]. }
  assert (∃ l, patch_ids (push_patch device b w) = patch_ids w ++ l
               ∧ l `sublist_of` [ref_id device]) as (l & Hl & Hsub).
  { unfold push_patch. destruct b as [|kv b].
    - exists []. rewrite app_nil_r. split; [done | apply sublist_nil_l].
    - exists [ref_id device]. by rewrite patch_ids_app. }
  exists l. split; [|done].
  destruct (apps state) as [a|]; [|done].
  destruct (build_imgInstalls x a) as [cs|]; simpl; [|done].
  unfold push_installs. rewrite patch_ids_app. simpl. rewrite app_nil_r.
  destruct (imageId <$> cs); [done|].
  rewrite patch_ids_app. simpl. by rewrite app_nil_r.
Qed.

Lemma write_loop_patch_ids body x uuids w :
  ∃ l, patch_ids (write_loop body x uuids w).1 = patch_ids w ++ l
       ∧ l `sublist_of` omap (device_id_of x) uuids.
Proof.
  revert w. induction uuids as [|uuid rest IH]; intros w.
  { exists []. simpl. by rewrite app_nil_r. }
  destruct (process_device_patch_ids body x w uuid) as (l1 & Hl1 & Hsub1).
  assert (omap (device_id_of x) (uuid :: rest)
          = omap (device_id_of x) [uuid] ++ omap (device_id_of x) rest)
    as -> by apply (omap_app _ [uuid] rest).
  cbn [write_loop].
  destruct (process_device body x w uuid) as [w1 [[]|e1]].
  - destruct (IH w1) as (l2 & Hl2 & Hsub2). exists (l1 ++ l2).
    rewrite Hl2. cbn [fst] in Hl1. rewrite Hl1, (assoc_L (++)).
    split; [done | by apply sublist_app].
  - exists l1. split; [done | by apply sublist_inserts_r].
Qed.

Lemma NoDup_omap_inj {A B} (f : A → option B) l :
  (∀ x y z, f x = Some z → f y = Some z → x = y) →
  NoDup l → NoDup (omap f l).
Proof.
  intros Hinj. induction l as [|x l IH]; [intros _; apply NoDup_nil_2|].
  intros [Hx Hnd]%NoDup_cons.
  change (omap f (x :: l))
    with (match f x with Some y => y :: omap f l | None => omap f l end). destruct (f x) as [z|] eqn:Hfx; simpl;
    [|by auto].
  apply NoDup_cons. split; [|by auto].
  intros (y & Hy & Hfy)%list_elem_of_omap.
  by rewrite (Hinj _ _ _ Hfx Hfy) in Hx.
Qed.

Lemma device_id_of_inv st uuids x uuid z :
  x_devices x = get_devices st uuids → device_id_of x uuid = Some z →
  ∃ d, d ∈ devices st ∧ d_uuid d = uuid ∧ d_id d = z.
Proof.
  unfold device_id_of. intros ->.
  destruct (List.find _ _) as [r|] eqn:Hfind; [|done]. intros [= <-].
  apply find_Some_elem in Hfind as [Hr Hu]. apply bool_decide_eq_true in Hu.
  apply list_elem_of_filter in Hr as [_ Hr].
  apply list_elem_of_fmap in Hr as (d & -> & Hd). by exists d.
Qed.

(** No two patches of a request address the same device. *)
Lemma issued_patch_ids_NoDup body st :
  store_ok st → NoDup (patch_ids (issued_instrs (statePatchV3 body st))).
Proof.
  intros Hok. unfold statePatchV3.
  destruct (non_null_uuids body) as [|u us] eqn:Hu; [apply NoDup_nil_2|].
  rewrite <- Hu.
  destruct (collect _ _) as [c|e]; [|apply NoDup_nil_2].
  destruct (read_phase _ _ _) as [x|e] eqn:Hread; [|apply NoDup_nil_2].
  assert (NoDup (patch_ids (write_loop body x (non_null_uuids body) []).1))
    as Hnd.
  { destruct (write_loop_patch_ids body x (non_null_uuids body) [])
      as (l & -> & Hsub). simpl.
    eapply sublist_NoDup; [|exact Hsub].
    pose proof (read_phase_ok_inv _ _ _ _ Hread) as (Hx & Hlen & _).
    apply NoDup_omap_inj.
    - intros u1 u2 z (d1 & Hd1 & <- & Hz1)%(device_id_of_inv st _ _ _ _ Hx)
        (d2 & Hd2 & <- & Hz2)%(device_id_of_inv st _ _ _ _ Hx).
      f_equal. eapply NoDup_fmap_eq; [apply (id_unique _ Hok) | done..|].
      congruence.
    - unfold get_devices in Hlen.
      eapply (in_filter_full_NoDup ref_uuid); [|exact Hlen].
      rewrite device_ref_uuids. apply Hok. }
  by destruct (write_loop _ _ _ _) as [w [[]|e]].
Qed.

(** A device whose [deviceBody] is empty gets no patch. *)
Lemma empty_body_no_patch body st c x d state b :
  store_ok st →
  collect body (non_null_uuids body) = Ok c →
  read_phase st (non_null_uuids body) c = Ok x →
  d ∈ devices st → state_of body (d_uuid d) = Some state →
  device_body x state (device_ref d) = Ok [] →
  PatchDevice (d_id d) b ∉ issued_instrs (statePatchV3 body st).
Proof.
  intros Hok Hc Hread Hd Hs Hb (c' & x' & Hc' & Hread' & Hp)%issued_instrs_pushed.
  rewrite Hc in Hc'. injection Hc' as <-.
  rewrite Hread in Hread'. injection Hread' as <-.
  inversion Hp as [uuid state' device b' k v rest Hs' Hfind Hb' Heq Hid| |];
    subst.
  pose proof (read_phase_ok_inv _ _ _ _ Hread) as (Hx & _).
  apply find_Some_elem in Hfind as [Hr Hu]. apply bool_decide_eq_true in Hu.
  rewrite Hx in Hr. apply list_elem_of_filter in Hr as [_ Hr].
  apply list_elem_of_fmap in Hr as (d' & -> & Hd').
  simpl in Hid, Hu.
  assert (d' = d) as ->.
  { eapply NoDup_fmap_eq; [apply (id_unique _ Hok) | done..]. }
  subst uuid. rewrite Hs in Hs'. injection Hs' as <-. congruence.
Qed.

(** C6. (1) A device entry whose allow-listed patch body is empty gets no
    device write at all. (2) A patch is filtered to the rows that do not
    already hold its body: on rows that hold it, it writes nothing and
    leaves the store as it is. (3) After a committed report, the same
    report is committed again with the same instructions, and its device
    patches write zero rows. *)
Theorem C6_field_patch_idempotent body st :
  store_ok st →
  (∀ c x d state b,
     collect body (non_null_uuids body) = Ok c →
     read_phase st (non_null_uuids body) c = Ok x →
     d ∈ devices st → state_of body (d_uuid d) = Some state →
     device_body x state (device_ref d) = Ok [] →
     PatchDevice (d_id d) b ∉ issued_instrs (statePatchV3 body st))
  ∧ (∀ id' b ds,
       (∀ d, d ∈ ds → d_id d = id' → row_matches (d_columns d) b) →
       patch_device id' b ds = ds ∧ rows_written id' b ds = 0%nat)
  ∧ (∀ scope w, statePatchV3 body st = Committed w →
       statePatchV3 body (exec scope w st) = Committed w
       ∧ device_writes scope w (exec scope w st) = 0%nat).
Proof.
  intros Hok. split_and!.
  - intros c x d state b. by apply empty_body_no_patch.
  - apply patch_device_matching.
  - intros scope w Hw.
    destruct (exec_frame scope w st) as (Hd & Hi & Hr). split.
    + by rewrite (statePatchV3_frame body st (exec scope w st) Hd Hi Hr).
    + apply device_writes_settled, exec_settles.
      * pose proof (issued_patch_ids_NoDup body st Hok) as Hnd.
        by rewrite Hw in Hnd.
      * intros id' b Hin. apply (issued_patch_NoDup body st id').
        by rewrite Hw.
Qed.

Lemma C6_field_patch_idempotent_witness :
  store_ok Example.store1
  ∧ statePatchV3 Example.body1 Example.store1 = Committed Example.instrs1
  ∧ statePatchV3 Example.body1 (exec [9] Example.instrs1 Example.store1)
    = Committed Example.instrs1
  ∧ device_writes [9] Example.instrs1 Example.store1 = 1%nat
  ∧ device_writes [9] Example.instrs1
      (exec [9] Example.instrs1 Example.store1)
    = 0%nat.
Proof.
  assert (store_ok Example.store1) as Hok.
  { split; apply (bool_decide_unpack _); vm_compute; exact I. }
  destruct (C6_field_patch_idempotent Example.body1 Example.store1 Hok)
    as (_ & _ & Htwice).
  destruct (Htwice [9] Example.instrs1 eq_refl) as [H1 H2].
  split_and!; [done | reflexivity | exact H1 | reflexivity | exact H2].
Defined.
(** ** The installs built from a report *)

Lemma reported_services_cons entry a :
  reported_services (entry :: a)
  = reported_services [entry] ++ reported_services a.
Proof.
  unfold reported_services. by rewrite bind_cons, bind_singleton.
Qed.

Lemma bind_singleton_fmap {A B} (f : A → B) (l : list A) :
  l ≫= (λ x, [f x]) = f <$> l.
Proof. induction l as [|x l IH]; [done|]. by rewrite bind_cons, IH. Qed.

Lemma entries_or_empty_ok {A} (v : nullable (obj A)) o :
  entries_or_empty v = Ok o → o = default [] (non_null v) ∧ v ≠ Null.
Proof. destruct v; simpl; by intros [= <-]. Qed.

Lemma install_release_reports x app acc entry acc' :
  install_release x app acc entry = Ok acc' →
  install_report <$> acc'
  = (install_report <$> acc)
    ++ (service_report
          <$> values (default [] (non_null (services entry.2)))).
Proof.
  destruct entry as [r rc]. unfold install_release.
  destruct (get app (x_appReleases x)) as [rs|]; [|done].
  destruct (List.find _ rs) as [release|]; [|done].
  destruct (entries_or_empty (services rc)) as [svcs|] eqn:Hsv; [|done].
  apply entries_or_empty_ok in Hsv as [-> _]. unfold res_bind. cbn [snd].
  intros Hfor. rewrite <- (bind_singleton_fmap service_report).
  revert Hfor.
  apply (for_of_app_proj _ (fmap install_report)
           (λ svc, [service_report svc])).
  intros acc1 svc acc2. unfold install_service.
  destruct (x_images x) as [imgs|]; [|done].
  destruct (List.find _ imgs) as [img|]; [|done].
  intros [= <-]. by rewrite fmap_app.
Qed.

Lemma reported_services_single_reports app ac :
  service_report <$> reported_services [(app, ac)]
  = default [] (non_null (releases ac))
      ≫= λ e, service_report
                <$> values (default [] (non_null (services e.2))).
Proof.
  unfold reported_services. rewrite bind_singleton.
  induction (default [] (non_null (releases ac))) as [|[r rc] rels IH];
    [done|].
  by rewrite !bind_cons, fmap_app, IH.
Qed.

Lemma install_app_reports x acc entry acc' :
  install_app x acc entry = Ok acc' →
  install_report <$> acc'
  = (install_report <$> acc)
    ++ (service_report <$> reported_services [entry]).
Proof.
  destruct entry as [app ac]. rewrite reported_services_single_reports.
  unfold install_app.
  destruct (entries_or_empty (releases ac)) as [rels|] eqn:Hrels; [|done].
  apply entries_or_empty_ok in Hrels as [-> _].
  unfold res_bind.
  apply (for_of_app_proj _ (fmap install_report)
           (λ e, service_report
                   <$> values (default [] (non_null (services e.2))))).
  intros acc1 e acc2. apply install_release_reports.
Qed.

Lemma build_imgInstalls_report x a C :
  build_imgInstalls x a = Ok C →
  install_report <$> C = service_report <$> reported_services a.
Proof.
  unfold build_imgInstalls.
  assert (service_report <$> reported_services a
          = a ≫= λ e, service_report <$> reported_services [e]) as ->.
  { induction a as [|e a IH]; [done|].
    by rewrite (reported_services_cons e a), fmap_app, bind_cons, IH. }
  intros Hfor.
  apply (for_of_app_proj (install_app x) (fmap install_report)
           (λ e, service_report <$> reported_services [e]) a [] C
           (install_app_reports x) Hfor).
Qed.

Lemma resolve_apps_sound st entries acc rels app rs :
  for_of (resolve_app st) entries acc = Ok rels →
  get app rels = Some rs →
  get app acc = Some rs ∨ ∃ s, rs = get_releases st app s.
Proof.
  revert acc. induction entries as [|[app0 s0] entries IH]; intros acc; simpl.
  - intros [= <-]. by left.
  - case_decide; simpl; [done|]. intros Hfor Hget.
    destruct (IH _ Hfor Hget) as [Hacc|?]; [|by right].
    destruct (decide (app0 = app)) as [->|Hne].
    + rewrite get_set_eq in Hacc. injection Hacc as <-. right. by eexists.
    + rewrite get_set_ne in Hacc by done. by left.
Qed.

Lemma build_imgInstalls_from st uuids c x a C :
  read_phase st uuids c = Ok x →
  build_imgInstalls x a = Ok C → Forall (install_from st a) C.
Proof.
  intros Hread. pose proof (read_phase_ok_inv _ _ _ _ Hread)
    as (_ & _ & Himgs & _ & Hrels).
  unfold build_imgInstalls. intros Hfor.
  cut (∀ acc entry acc', entry ∈ a → install_app x acc entry = Ok acc' →
         Forall (install_from st a) acc → Forall (install_from st a) acc').
  { intros Hstep.
    exact (for_of_invariant _ _ _ _ _ Hstep Hfor (Forall_nil_2 _)). }
  intros acc [app ac] acc' Hin. unfold install_app.
  destruct (releases ac) as [| |rels] eqn:Hr; simpl;
    [by intros [= <-] | done |].
  apply for_of_invariant. intros acc1 [r rc] acc2 Hrin. simpl.
  destruct (get app (x_appReleases x)) as [rs|] eqn:Hrs; [|done].
  destruct (List.find _ rs) as [release|] eqn:Hfind; [|done].
  apply find_Some_elem in Hfind as [Hrel Hc].
  apply bool_decide_eq_true in Hc.
  destruct (resolve_apps_sound _ _ _ _ _ _ Hrels Hrs) as [?|[s ->]];
    [done|].
  apply get_releases_elem in Hrel as (Hrel & Happ & _).
  destruct (services rc) as [| |svcs] eqn:Hsv; simpl;
    [by intros [= <-] | done |].
  apply for_of_invariant. intros acc3 svc acc4 Hsvc.
  apply list_elem_of_fmap in Hsvc as ([name svc'] & -> & Hsvc). simpl.
  unfold install_service. destruct (x_images x) as [imgs|] eqn:Hxi; [|done].
  destruct (List.find _ imgs) as [img|] eqn:Hfi; [|done].
  apply find_Some_elem in Hfi as [Himg Hloc].
  apply bool_decide_eq_true in Hloc.
  intros [= <-] Hacc3. apply Forall_app. split; [done|].
  apply Forall_singleton.
  exists app, ac, rels, r, rc, svcs, name, svc', release, img.
  split_and!; try done.
  rewrite Himgs in Hxi. destruct (imageLocations c) as [|l ls]; [done|].
  simplify_eq. by apply list_elem_of_filter in Himg as [_ ?].
Qed.

(** ** The instructions of a device *)

Lemma push_patch_acc device b w :
  push_patch device b w = w ++ push_patch device b [].
Proof. unfold push_patch. destruct b; [by rewrite app_nil_r | done]. Qed.

Lemma push_installs_acc device cs w :
  push_installs device cs w = w ++ push_installs device cs [].
Proof.
  unfold push_installs. destruct (imageId <$> cs); simpl; [done|].
  by rewrite <- (assoc_L (++)).
Qed.

(** What a turn pushes does not depend on what was pushed before. *)
Lemma process_device_acc body x w uuid :
  process_device body x w uuid
  = (w ++ device_instrs body x uuid, (process_device body x [] uuid).2).
Proof.
  unfold device_instrs, process_device.
  destruct (state_of body uuid) as [state|]; [|by rewrite app_nil_r].
  destruct (List.find _ _) as [device|]; [|by rewrite app_nil_r].
  destruct (device_body x state device) as [b|]; [|by rewrite app_nil_r].
  destruct (apps state) as [a|]; simpl; [|by rewrite push_patch_acc].
  destruct (build_imgInstalls x a) as [cs|]; simpl;
    [|by rewrite push_patch_acc].
  rewrite push_installs_acc, push_patch_acc.
  rewrite (push_installs_acc device cs (push_patch device b [])).
  by rewrite (assoc_L (++)).
Qed.

Lemma write_loop_concat body x uuids w0 w :
  write_loop body x uuids w0 = (w, Ok ()) →
  w = w0 ++ mjoin (device_instrs body x <$> uuids).
Proof.
  revert w0. induction uuids as [|u uuids IH]; intros w0; simpl.
  - intros [= <-]. by rewrite app_nil_r.
  - rewrite process_device_acc.
    destruct (process_device body x [] u).2 as [[]|]; [|done].
    intros ->%IH. by rewrite (assoc_L (++)).
Qed.

Lemma write_loop_turns_ok body x uuids w0 w uuid :
  write_loop body x uuids w0 = (w, Ok ()) → uuid ∈ uuids →
  (process_device body x [] uuid).2 = Ok ().
Proof.
  intros Hloop Hin.
  destruct (write_loop_ok_inv _ _ _ _ _ _ Hloop Hin) as (w1 & w2 & Hp & _).
  rewrite process_device_acc in Hp. by injection Hp.
Qed.

(** The device the write loop finds for a uuid is a device of the store
    with that uuid. *)
Lemma found_device st uuids c x uuid device :
  read_phase st uuids c = Ok x →
  List.find (λ d, bool_decide (ref_uuid d = uuid)) (x_devices x)
    = Some device →
  ∃ d, d ∈ devices st ∧ d_uuid d = uuid ∧ device = device_ref d.
Proof.
  intros (Hx & _)%read_phase_ok_inv [Hr Hu]%find_Some_elem.
  apply bool_decide_eq_true in Hu. rewrite Hx in Hr.
  apply list_elem_of_filter in Hr as [_ Hr].
  apply list_elem_of_fmap in Hr as (d & -> & Hd). by exists d.
Qed.

(** The shape of what is pushed for one device: the patch of the device,
    unless it is empty, and then, when the entry has an [apps] object,
    the upsert task, unless no image is claimed, and the delete. *)
Lemma device_instrs_shape body st uuids c x uuid :
  read_phase st uuids c = Ok x →
  (process_device body x [] uuid).2 = Ok () →
  ∃ d state b,
    d ∈ devices st ∧ d_uuid d = uuid
    ∧ state_of body uuid = Some state
    ∧ device_body x state (device_ref d) = Ok b
    ∧ ((apps state = None
        ∧ device_instrs body x uuid = push_patch (device_ref d) b [])
       ∨ ∃ a C, apps state = Some a ∧ build_imgInstalls x a = Ok C
                ∧ device_instrs body x uuid
                  = push_patch (device_ref d) b []
                    ++ push_installs (device_ref d) C []).
Proof.
  intros Hread. unfold device_instrs, process_device.
  destruct (state_of body uuid) as [state|] eqn:Hs; [|done].
  destruct (List.find _ _) as [device|] eqn:Hd; [|done].
  destruct (found_device _ _ _ _ _ _ Hread Hd) as (d & Hin & Hu & ->).
  destruct (device_body x state (device_ref d)) as [b|] eqn:Hb; [|done].
  destruct (apps state) as [a|] eqn:Ha; simpl.
  - destruct (build_imgInstalls x a) as [C|] eqn:HC; [|done]. simpl.
    intros _. exists d, state, b. split_and!; [done..|]. right.
    exists a, C. split_and!; [done..|]. apply push_installs_acc.
  - intros _. exists d, state, b. split_and!; [done..|]. by left.
Qed.

Lemma push_patch_device device b i :
  i ∈ push_patch device b [] → i = PatchDevice (ref_id device) b.
Proof.
  unfold push_patch. destruct b; [by intros ?%elem_of_nil|].
  by intros ->%list_elem_of_singleton.
Qed.

Lemma push_installs_device device C i :
  i ∈ push_installs device C [] →
  (C ≠ [] ∧ i = UpsertImageInstalls (ref_id device) (imageId <$> C) C)
  ∨ i = DeleteOldImageInstalls (ref_id device) (imageId <$> C).
Proof.
  unfold push_installs. destruct C as [|c C]; simpl.
  - intros ->%list_elem_of_singleton. by right.
  - intros [Hi|Hi%list_elem_of_singleton]%elem_of_cons; subst;
      [by left | by right].
Qed.

(** The instructions of a committed request, turn by turn. *)
Lemma committed_turns body st w :
  statePatchV3 body st = Committed w →
  ∃ c x, collect body (non_null_uuids body) = Ok c
         ∧ read_phase st (non_null_uuids body) c = Ok x
         ∧ w = mjoin (device_instrs body x <$> non_null_uuids body)
         ∧ ∀ uuid, uuid ∈ non_null_uuids body →
             (process_device body x [] uuid).2 = Ok ().
Proof.
  intros (c & x & Hc & Hread & Hloop)%committed_inv. exists c, x.
  split_and!; [done..| |].
  - by apply write_loop_concat in Hloop.
  - intros uuid. by eapply write_loop_turns_ok.
Qed.


(** An instruction of a turn addresses the device of the turn. *)
Lemma device_instrs_device body st uuids c x uuid i :
  read_phase st uuids c = Ok x →
  (process_device body x [] uuid).2 = Ok () →
  i ∈ device_instrs body x uuid →
  ∃ d, d ∈ devices st ∧ d_uuid d = uuid ∧ instr_device i = d_id d.
Proof.
  intros Hread Hturn Hi.
  destruct (device_instrs_shape _ _ _ _ _ _ Hread Hturn)
    as (d & state & b & Hd & Hu & _ & _ & Hshape).
  exists d. split_and!; [done..|].
  destruct Hshape as [[_ Heq]|(a & C & _ & _ & Heq)]; rewrite Heq in Hi.
  - by apply push_patch_device in Hi as ->.
  - apply elem_of_app in Hi as [->%push_patch_device|Hi]; [done|].
    by apply push_installs_device in Hi as [[_ ->]| ->].
Qed.

(** On a store with the keys of the data model, what a committed request
    issues for a device is what the turn of its uuid pushes. *)
Lemma committed_device_instrs body st w c x d i :
  store_ok st →
  statePatchV3 body st = Committed w →
  collect body (non_null_uuids body) = Ok c →
  read_phase st (non_null_uuids body) c = Ok x →
  d ∈ devices st →
  (i ∈ w ∧ instr_device i = d_id d)
  ↔ (d_uuid d ∈ non_null_uuids body
     ∧ i ∈ device_instrs body x (d_uuid d)).
Proof.
  intros Hok (c' & x' & Hc' & Hread' & -> & Hturns)%committed_turns Hc Hread
    Hd.
  rewrite Hc in Hc'. injection Hc' as <-.
  rewrite Hread in Hread'. injection Hread' as <-.
  split.
  - intros [(l & Hi & Hl)%list_elem_of_join Hid].
    apply list_elem_of_fmap in Hl as (uuid & -> & Hu).
    destruct (device_instrs_device _ _ _ _ _ _ _ Hread (Hturns _ Hu) Hi)
      as (d' & Hd' & <- & Hid').
    assert (d' = d) as ->; [|done].
    eapply NoDup_fmap_eq; [apply (id_unique _ Hok) | done..|congruence].
  - intros [Hu Hi]. split.
    + apply list_elem_of_join. eexists. split; [done|].
      apply list_elem_of_fmap. by eexists.
    + destruct (device_instrs_device _ _ _ _ _ _ _ Hread (Hturns _ Hu) Hi)
        as (d' & Hd' & Hu' & ->).
      f_equal. eapply NoDup_fmap_eq; [apply (uuid_unique _ Hok) | done..].
Qed.

(** What a committed request issues for a device with an [apps] object:
    its patch, unless that is empty, the upsert task for the installs it
    claims, unless there is none, and the delete. *)
Lemma committed_apps_instrs body st w c x d state a i :
  store_ok st →
  statePatchV3 body st = Committed w →
  collect body (non_null_uuids body) = Ok c →
  read_phase st (non_null_uuids body) c = Ok x →
  d ∈ devices st → state_of body (d_uuid d) = Some state →
  apps state = Some a →
  ∃ b C,
    device_body x state (device_ref d) = Ok b
    ∧ build_imgInstalls x a = Ok C
    ∧ ((i ∈ w ∧ instr_device i = d_id d)
       ↔ (b ≠ [] ∧ i = PatchDevice (d_id d) b)
         ∨ (C ≠ [] ∧ i = UpsertImageInstalls (d_id d) (imageId <$> C) C)
         ∨ i = DeleteOldImageInstalls (d_id d) (imageId <$> C)).
Proof.
  intros Hok Hout Hc Hread Hd Hs Ha.
  pose proof (state_of_non_null _ _ _ Hs) as Hu.
  destruct (committed_turns _ _ _ Hout)
    as (c' & x' & Hc' & Hread' & _ & Hturns).
  rewrite Hc in Hc'. injection Hc' as <-.
  rewrite Hread in Hread'. injection Hread' as <-.
  destruct (device_instrs_shape _ _ _ _ _ _ Hread (Hturns _ Hu))
    as (d' & state' & b & Hd' & Hu' & Hs' & Hb & Hshape).
  assert (d' = d) as ->.
  { eapply NoDup_fmap_eq; [apply (uuid_unique _ Hok) | done..]. }
  rewrite Hs in Hs'. injection Hs' as <-.
  destruct Hshape as [[Hnone _]|(a' & C & Ha' & HC & Heq)]; [congruence|].
  rewrite Ha in Ha'. injection Ha' as <-.
  exists b, C. split_and!; [done..|].
  rewrite (committed_device_instrs _ _ _ _ _ _ _ Hok Hout Hc Hread Hd), Heq.
  rewrite elem_of_app. unfold push_patch, push_installs. simpl.
  destruct b as [|kv b], C as [|c0 C]; simpl;
    rewrite ?elem_of_cons, ?elem_of_nil; naive_solver.
Qed.

(** ** The image-install differ *)

Section keyBy_facts.
Context {A : Type} (f : A → Z).




End keyBy_facts.









(** ** The order of the install instructions *)

(** The turn that pushes an upsert task. *)
Lemma upsert_turn body st w dev ids C :
  statePatchV3 body st = Committed w →
  UpsertImageInstalls dev ids C ∈ w →
  ∃ c x us1 uuid us2 d b,
    collect body (non_null_uuids body) = Ok c
    ∧ read_phase st (non_null_uuids body) c = Ok x
    ∧ non_null_uuids body = us1 ++ uuid :: us2
    ∧ d ∈ devices st ∧ d_uuid d = uuid ∧ dev = d_id d
    ∧ C ≠ [] ∧ ids = imageId <$> C
    ∧ device_instrs body x uuid
      = push_patch (device_ref d) b []
        ++ [UpsertImageInstalls dev ids C; DeleteOldImageInstalls dev ids]
    ∧ w = mjoin (device_instrs body x <$> us1)
          ++ device_instrs body x uuid
          ++ mjoin (device_instrs body x <$> us2)
    ∧ ∀ u, u ∈ non_null_uuids body →
        (process_device body x [] u).2 = Ok ().
Proof.
  intros (c & x & Hc & Hread & Hw & Hturns)%committed_turns Hin.
  rewrite Hw in Hin. apply list_elem_of_join in Hin as (l & Hin & Hl).
  apply list_elem_of_fmap in Hl as (uuid & -> & Hu).
  pose proof Hu as (us1 & us2 & Hus)%list_elem_of_split.
  destruct (device_instrs_shape _ _ _ _ _ _ Hread (Hturns _ Hu))
    as (d & state & b & Hd & Hdu & _ & _ & Hshape).
  exists c, x, us1, uuid, us2, d, b.
  assert (dev = d_id d ∧ C ≠ [] ∧ ids = imageId <$> C
          ∧ device_instrs body x uuid
            = push_patch (device_ref d) b []
              ++ [UpsertImageInstalls dev ids C;
                  DeleteOldImageInstalls dev ids])
    as (-> & HC & -> & Hturn).
  { destruct Hshape as [[_ Heq]|(a & C' & _ & _ & Heq)]; rewrite Heq in Hin.
    - by apply push_patch_device in Hin.
    - apply elem_of_app in Hin as [Hin%push_patch_device|Hin]; [done|].
      apply push_installs_device in Hin as [[Hne Hin]|Hin]; [|done].
      injection Hin as -> -> ->. split_and!; [done..|].
      rewrite Heq. f_equal. unfold push_installs.
      by destruct C' as [|c0 C']. }
  split_and!; [done..| |done].
  rewrite Hw, Hus, fmap_app, join_app, fmap_cons. by cbn [mjoin list_join].
Qed.

(** An upsert task is pushed directly before the delete of its device. *)
Lemma upsert_split body st w dev ids C :
  statePatchV3 body st = Committed w →
  UpsertImageInstalls dev ids C ∈ w →
  C ≠ [] ∧ ids = imageId <$> C
  ∧ ∃ w1 w2,
      w = w1 ++ [UpsertImageInstalls dev ids C;
                 DeleteOldImageInstalls dev ids] ++ w2.
Proof.
  intros Hout Hin.
  destruct (upsert_turn _ _ _ _ _ _ Hout Hin)
    as (c & x & us1 & uuid & us2 & d & b & _ & _ & _ & _ & _ & _ & HC & Hids
        & Hturn & Hw & _).
  split; [done|]. split; [done|].
  exists (mjoin (device_instrs body x <$> us1)
          ++ push_patch (device_ref d) b []),
         (mjoin (device_instrs body x <$> us2)).
  rewrite Hw, Hturn. by rewrite <- !(assoc_L (++)).
Qed.






(** ** The cache sentinel *)

Section values.
Import Cache CacheSpec.

Lemma alike_refl v : alike v v.
Proof. by destruct v. Qed.

Lemma alike_sym v w : alike v w → alike w v.
Proof. destruct v, w; simpl; try done; by intros ->. Qed.

Lemma alike_trans u v w : alike u v → alike v w → alike u w.
Proof. destruct u, v, w; simpl; try done; congruence. Qed.

(** The copy the cache keeps is like the value it was given. *)
Lemma alike_clone n v : alike (clone n v) v.
Proof. by destruct v. Qed.

(** What is like a primitive is that primitive. *)
Lemma alike_plain v w : plain w → alike v w → v = w.
Proof. destruct v, w; simpl; done. Qed.

(** On a primitive other than [NaN], [===] is equality. *)
Lemma strict_eq_plain v w : plain w → strict_eq v w = true ↔ v = w.
Proof.
  destruct v, w; simpl; try done; intros _;
    by rewrite bool_decide_eq_true.
Qed.

(** An object is never the same object as its copy, and [NaN] never
    equals itself. *)
Lemma strict_eq_clone n r json :
  strict_eq (clone n (DObject (Made r) json)) (DObject (Made r) json) = false.
Proof. done. Qed.
End values.

Section cache_facts.
Import Cache CacheSpec.
Context {Args : Type}.
Variable version : string.
Variable fn : Args → option Defined.
Variable cacheKey : string.
Variable normalizer : Args → string.
Variable sentinel : Defined.

Local Abbreviation memo :=
  (Cache.memoizedFn version fn cacheKey normalizer (Some sentinel)).
Local Abbreviation key := (Cache.getKey version cacheKey normalizer).
Local Abbreviation coherent :=
  (CacheSpec.coherent version fn cacheKey normalizer sentinel).
Local Abbreviation stored := (CacheSpec.stored sentinel).
Local Abbreviation observed := (CacheSpec.observed sentinel).
Local Abbreviation forget :=
  (Cache.memoizedFn_delete version cacheKey normalizer).

(** Keys collide only where the normalizer does. *)
Lemma getKey_inj a1 a2 : key a1 = key a2 → normalizer a1 = normalizer a2.
Proof. unfold Cache.getKey. apply (inj (String.app _)). Qed.

Lemma coherent_empty : coherent Cache.empty.
Proof. intros args d. simpl. by rewrite lookup_empty. Qed.

(** A miss runs the function once and files a copy of its result, the
    sentinel in place of [undefined]; the call returns what the function
    returned, compared with the sentinel. *)
Lemma memo_miss args s :
  Cache.entries s !! key args = None →
  memo args s
  = (if strict_eq (stored (fn args)) sentinel then None
     else Some (stored (fn args)),
     {| Cache.entries :=
          <[key args := clone (Cache.stores s) (stored (fn args))]>
            (Cache.entries s);
        Cache.stores := S (Cache.stores s);
        Cache.calls := S (Cache.calls s) |}).
Proof.
  intros Hmiss. unfold Cache.memoizedFn, Cache.wrap, Cache.compute.
  rewrite Hmiss. by destruct (fn args) as [v|].
Qed.

(** A hit runs nothing and returns the copy in the cache, compared with
    the sentinel. *)
Lemma memo_hit args s d :
  Cache.entries s !! key args = Some d →
  memo args s = (if strict_eq d sentinel then None else Some d, s).
Proof.
  intros Hhit. unfold Cache.memoizedFn, Cache.wrap. by rewrite Hhit.
Qed.

(** A call leaves a copy of the result in the cache. *)
Lemma memo_entry args s :
  coherent s →
  ∃ d, Cache.entries (memo args s).2 !! key args = Some d
       ∧ alike d (stored (fn args))
       ∧ Cache.calls (memo args s).2
         = match Cache.entries s !! key args with
           | Some _ => Cache.calls s
           | None => S (Cache.calls s)
           end
       ∧ dom (Cache.entries (memo args s).2)
         = {[key args]} ∪ dom (Cache.entries s).
Proof.
  intros Hco. destruct (Cache.entries s !! key args) as [d|] eqn:Hlook.
  - rewrite (memo_hit _ _ _ Hlook). simpl. exists d.
    split_and!; [done | by apply Hco | done |].
    apply elem_of_dom_2 in Hlook. set_solver.
  - rewrite (memo_miss _ _ Hlook). simpl. eexists.
    split_and!; [apply lookup_insert_eq | apply alike_clone | done |].
    by rewrite dom_insert_L.
Qed.

(** Where the normalizer tells apart what the function tells apart, the
    entries stay copies of what the function yields. *)
Lemma memo_coherent args s :
  (∀ a1 a2, normalizer a1 = normalizer a2 → fn a1 = fn a2) →
  coherent s → coherent (memo args s).2.
Proof.
  intros Hsound Hco.
  destruct (Cache.entries s !! key args) as [d|] eqn:Hlook.
  - by rewrite (memo_hit _ _ _ Hlook).
  - rewrite (memo_miss _ _ Hlook). simpl. intros args' d. simpl.
    destruct (decide (key args = key args')) as [Heq|Hne].
    + rewrite Heq, lookup_insert_eq. intros [= <-].
      rewrite (Hsound _ _ (getKey_inj _ _ Heq)). apply alike_clone.
    + rewrite lookup_insert_ne by done. apply Hco.
Qed.

Hypothesis sentinel_plain : plain sentinel.

Lemma stored_sentinel v :
  stored v = sentinel ↔ v = None ∨ v = Some sentinel.
Proof. destruct v; simpl; naive_solver. Qed.

Lemma observed_computed v :
  (if strict_eq (stored v) sentinel then None else Some (stored v))
  = observed v.
Proof.
  unfold CacheSpec.observed.
  destruct (strict_eq (stored v) sentinel) eqn:Heq.
  - apply (strict_eq_plain _ _ sentinel_plain), stored_sentinel in Heq
      as [->| ->]; [done|]. by rewrite decide_True.
  - assert (stored v ≠ sentinel) as Hne.
    { intros Hs%(strict_eq_plain _ _ sentinel_plain). congruence. }
    destruct v as [d|]; simpl in *; [|done].
    rewrite decide_False; [done|]. congruence.
Qed.

Lemma observed_cached d v :
  alike d (stored v) →
  option_Forall2 alike (if strict_eq d sentinel then None else Some d)
    (observed v).
Proof.
  intros Hd. unfold CacheSpec.observed.
  destruct (strict_eq d sentinel) eqn:Heq.
  - apply (strict_eq_plain _ _ sentinel_plain) in Heq as ->.
    apply alike_sym, (alike_plain _ _ sentinel_plain), stored_sentinel in Hd
      as [->| ->]; [|rewrite decide_True by done]; constructor.
  - assert (stored v ≠ sentinel) as Hne.
    { intros Hs. rewrite Hs in Hd.
      apply (alike_plain _ _ sentinel_plain) in Hd.
      apply (strict_eq_plain _ _ sentinel_plain) in Hd. congruence. }
    destruct v as [x|]; simpl in *; [|done].
    rewrite decide_False by congruence. by constructor.
Qed.

(** What a call returns. *)
Lemma memo_result args s :
  coherent s →
  option_Forall2 alike (memo args s).1 (observed (fn args))
  ∧ (Cache.entries s !! key args = None →
     (memo args s).1 = observed (fn args)).
Proof.
  intros Hco. destruct (Cache.entries s !! key args) as [d|] eqn:Hlook.
  - rewrite (memo_hit _ _ _ Hlook). simpl. split; [|done].
    apply observed_cached. by apply Hco.
  - rewrite (memo_miss _ _ Hlook). simpl. rewrite observed_computed.
    split; [|done]. destruct (observed (fn args)); constructor.
    apply alike_refl.
Qed.
End cache_facts.

(** C9. With an object for [undefinedAs], the sentinel is not turned
    back into [undefined] when it comes out of the cache. The function
    below is [undefined] everywhere and memoized with the array [[0]] as
    its sentinel. The first call computes [undefined] and returns it;
    the cache then holds a copy of the sentinel. The second call is
    served from the cache, without running the function again, and the
    copy, which is not the sentinel itself, is what the caller gets:
    [[0]] instead of [undefined]. *)
Theorem C9_object_sentinel_comes_back :
  ∃ s1 s2 copy,
    CacheSpec.undefined_memo 1 Cache.empty = (None, s1)
    ∧ Cache.calls s1 = 1%nat
    ∧ Cache.entries s1
        !! Cache.getKey "1" "nothing" CacheSpec.lookup_normalizer 1
      = Some copy
    ∧ copy = Cache.DObject (Cache.Cloned 0) "[0]"
    ∧ CacheSpec.alike copy CacheSpec.array_sentinel
    ∧ Cache.strict_eq copy CacheSpec.array_sentinel = false
    ∧ CacheSpec.undefined_memo 1 s1 = (Some copy, s2)
    ∧ Cache.calls s2 = 1%nat.
Proof.
  unfold CacheSpec.undefined_memo.
  rewrite (memo_miss "1" CacheSpec.undefined_fn "nothing"
             CacheSpec.lookup_normalizer CacheSpec.array_sentinel 1
             Cache.empty (lookup_empty _)).
  simpl. eexists _, _, _. split; [done|]. split; [done|].
  split; [apply lookup_insert_eq|]. split; [done|]. split; [done|].
  split; [done|].
  erewrite memo_hit; [|apply lookup_insert_eq]. done.
Qed.

(** * Further properties of the handler *)

(** ** Null entries *)

Lemma filter_ext_in {A} (P Q : A → Prop) `{!∀ x, Decision (P x)}
    `{!∀ x, Decision (Q x)} (l : list A) :
  (∀ x, x ∈ l → (P x ↔ Q x)) → filter P l = filter Q l.
Proof.
  induction l as [|x l IH]; intros Hext; [done|].
  rewrite !filter_cons.
  rewrite IH by (intros y Hy; apply Hext; by right).
  apply decide_ext, Hext. left.
Qed.

Lemma state_of_cons k v (body : StatePatchV3Body) uuid :
  state_of ((k, v) :: body) uuid
  = if decide (k = uuid) then v else state_of body uuid.
Proof. unfold state_of. simpl. by case_decide. Qed.

Lemma state_of_None_keys (body : StatePatchV3Body) uuid :
  uuid ∉ keys body → state_of body uuid = None.
Proof.
  intros Hnin. unfold state_of.
  by rewrite (proj2 (get_None_keys uuid body) Hnin).
Qed.

Lemma drop_null_keys_subseteq (body : StatePatchV3Body) :
  keys (drop_null body) ⊆ keys body.
Proof.
  intros k ([k' v] & -> & [_ Hin]%list_elem_of_filter)%list_elem_of_fmap.
  apply list_elem_of_fmap. by exists (k', v).
Qed.

Lemma drop_null_cons k v (body : StatePatchV3Body) :
  drop_null ((k, v) :: body)
  = if decide (is_Some v) then (k, v) :: drop_null body else drop_null body.
Proof. done. Qed.

Lemma state_of_drop_null body uuid :
  NoDup (keys body) → state_of (drop_null body) uuid = state_of body uuid.
Proof.
  unfold keys. induction body as [|[k v] body IH]; [done|].
  rewrite fmap_cons. intros [Hk Hnd]%NoDup_cons.
  rewrite drop_null_cons, state_of_cons.
  case_decide as Hv.
  - rewrite state_of_cons. case_decide; [done | by apply IH].
  - case_decide as Hu; [|by apply IH]. subst.
    rewrite state_of_None_keys.
    + destruct v; [|done]. exfalso. apply Hv. by eexists.
    + intros Hin. apply Hk. by apply drop_null_keys_subseteq.
Qed.

Lemma non_null_uuids_cons k v body :
  k ∉ keys body →
  non_null_uuids ((k, v) :: body)
  = (if decide (is_Some v) then [k] else []) ++ non_null_uuids body.
Proof.
  intros Hk. unfold non_null_uuids, keys. rewrite fmap_cons, filter_cons.
  cbn [fst]. rewrite state_of_cons.
  destruct (decide (k = k)) as [_|]; [|done].
  assert (filter (λ u, is_Some (state_of ((k, v) :: body) u)) body.*1
          = filter (λ u, is_Some (state_of body u)) body.*1) as ->.
  { apply filter_ext_in. intros u Hu. rewrite state_of_cons.
    case_decide; [|done]. by subst. }
  by case_decide.
Qed.

Lemma non_null_uuids_drop_null body :
  NoDup (keys body) → non_null_uuids (drop_null body) = non_null_uuids body.
Proof.
  unfold keys. induction body as [|[k v] body IH]; [done|].
  rewrite fmap_cons. intros [Hk Hnd]%NoDup_cons.
  rewrite (non_null_uuids_cons k v body Hk).
  rewrite drop_null_cons.
  case_decide as Hv; [|by apply IH].
  rewrite non_null_uuids_cons.
  - rewrite decide_True by done. f_equal. by apply IH.
  - intros Hin. apply Hk. by apply drop_null_keys_subseteq.
Qed.

(** The handler reads the body through [body[uuid]] only. *)
Lemma collect_ext body1 body2 uuids :
  (∀ uuid, state_of body1 uuid = state_of body2 uuid) →
  collect body1 uuids = collect body2 uuids.
Proof.
  intros Hext. unfold collect.
  generalize ({| appReleaseUuids := []; imageLocations := [] |}).
  induction uuids as [|u uuids IH]; intros acc; [done|]. simpl.
  assert (collect_device body1 acc u = collect_device body2 acc u) as ->
    by (unfold collect_device; by rewrite Hext).
  destruct (collect_device body2 acc u); simpl; [apply IH | done].
Qed.

Lemma write_loop_ext body1 body2 x uuids w :
  (∀ uuid, state_of body1 uuid = state_of body2 uuid) →
  write_loop body1 x uuids w = write_loop body2 x uuids w.
Proof.
  intros Hext. revert w. induction uuids as [|u uuids IH]; intros w; [done|].
  simpl.
  assert (process_device body1 x w u = process_device body2 x w u) as ->
    by (unfold process_device; by rewrite Hext).
  destruct (process_device body2 x w u) as [w' [[]|e]]; [apply IH | done].
Qed.

(** X1. Entries that are [null] play no part: on a body whose keys are
    distinct, as those of an object are, the handler does what it does on
    the body without them. *)
Theorem null_entries_ignored body st :
  NoDup (keys body) →
  statePatchV3 (drop_null body) st = statePatchV3 body st.
Proof.
  intros Hnd. unfold statePatchV3.
  rewrite (non_null_uuids_drop_null body Hnd).
  rewrite (collect_ext (drop_null body) body)
    by (intros u; by apply state_of_drop_null).
  destruct (non_null_uuids body); [done|].
  destruct (collect body _) as [c|]; [|done].
  destruct (read_phase _ _ _) as [x|]; [|done].
  by rewrite (write_loop_ext (drop_null body) body)
    by (intros u; by apply state_of_drop_null).
Qed.

Lemma null_entries_ignored_witness :
  NoDup (keys (("d0", None) :: Example.body1))
  ∧ drop_null (("d0", None) :: Example.body1) = Example.body1
  ∧ statePatchV3 Example.body1 Example.store1
    = statePatchV3 (("d0", None) :: Example.body1) Example.store1.
Proof.
  assert (NoDup (keys (("d0", None) :: Example.body1))) as Hnd.
  { apply (bool_decide_unpack _). vm_compute. exact I. }
  split_and!; [done | reflexivity |].
  exact (null_entries_ignored (("d0", None) :: Example.body1)
           Example.store1 Hnd).
Defined.

(** ** What the normalizer collects, and nothing else *)




Lemma collect_NoDup body uuids c :
  collect body uuids = Ok c →
  NoDup (keys (appReleaseUuids c))
  ∧ ∀ app s, (app, s) ∈ appReleaseUuids c → NoDup s.
Proof.
  intros Hc. pose proof (collect_keys_NoDup _ _ _ Hc) as Hnd.
  split; [done|]. intros app s Hin.
  destruct (collect_sound _ _ _ Hc) as [Hsets _].
  apply (Hsets app s). by apply get_NoDup.
Qed.

(** X3. [appReleaseUuids] is a map of sets: in what the normalizer
    collects no application uuid is a key twice and no commit is twice in
    the set of an application, however often the batch names them. *)
Theorem collect_sets body uuids c :
  collect body uuids = Ok c →
  NoDup (keys (appReleaseUuids c))
  ∧ ∀ app s, (app, s) ∈ appReleaseUuids c → NoDup s.
Proof. exact (collect_NoDup body uuids c). Qed.

Lemma collect_sets_witness :
  collect Example.body_shared (non_null_uuids Example.body_shared)
  = Ok {| appReleaseUuids := [("a1", ["r1"])];
          imageLocations := ["img-loc-1"; "img-loc-1"] |}
  ∧ NoDup (keys [("a1", ["r1"])])
  ∧ ∀ app s, (app, s) ∈ [("a1", ["r1"])] → NoDup s.
Proof.
  split; [by vm_compute|].
  exact (collect_sets Example.body_shared
           (non_null_uuids Example.body_shared)
           {| appReleaseUuids := [("a1", ["r1"])];
              imageLocations := ["img-loc-1"; "img-loc-1"] |}
           ltac:(by vm_compute)).
Defined.

Lemma collect_release_locations app acc entry acc' :
  collect_release app acc entry = Ok acc' →
  imageLocations acc'
  = imageLocations acc
    ++ (image <$> values (default [] (non_null (services entry.2)))).
Proof.
  destruct entry as [r rc].
  by intros (o & _ & ->)%collect_release_ok.
Qed.

Lemma reported_services_single app ac :
  image <$> reported_services [(app, ac)]
  = default [] (non_null (releases ac))
      ≫= λ e, image <$> values (default [] (non_null (services e.2))).
Proof.
  unfold reported_services. rewrite bind_singleton.
  induction (default [] (non_null (releases ac))) as [|[r rc] rels IH];
    [done|].
  by rewrite !bind_cons, fmap_app, IH.
Qed.

Lemma collect_app_locations acc entry acc' :
  collect_app acc entry = Ok acc' →
  imageLocations acc'
  = imageLocations acc ++ (image <$> reported_services [entry]).
Proof.
  destruct entry as [app ac]. rewrite reported_services_single.
  intros (o1 & _ & Hloop)%collect_app_ok.
  exact (for_of_app_proj (collect_release app) imageLocations
           (λ e, image <$> values (default [] (non_null (services e.2))))
           _ _ _ (collect_release_locations app) Hloop).
Qed.

Lemma collect_apps_locations a acc acc' :
  for_of collect_app a acc = Ok acc' →
  imageLocations acc'
  = imageLocations acc ++ (image <$> reported_services a).
Proof.
  intros Hloop.
  rewrite (for_of_app_proj collect_app imageLocations
             (λ e, image <$> reported_services [e])
             _ _ _ collect_app_locations Hloop).
  f_equal. clear Hloop. induction a as [|entry a IH]; [done|].
  by rewrite bind_cons, (reported_services_cons entry a), fmap_app, IH.
Qed.

Lemma imageLocations_collect body uuids c :
  collect body uuids = Ok c →
  imageLocations c = image <$> batch_services body uuids.
Proof.
  unfold collect, batch_services. intros Hloop.
  assert (∀ acc u acc', collect_device body acc u = Ok acc' →
            imageLocations acc'
            = imageLocations acc
              ++ (image <$>
                    match state_of body u with
                    | Some state =>
                        reported_services (default [] (apps state))
                    | None => []
                    end)) as Hstep.
  { intros acc u acc' (state & -> & Happs)%collect_device_ok.
    by apply collect_apps_locations. }
  rewrite (for_of_app_proj (collect_device body) imageLocations _ _ _ _
             Hstep Hloop).
  simpl. clear Hloop Hstep. induction uuids as [|u uuids IH]; [done|].
  by rewrite !bind_cons, fmap_app, IH.
Qed.

(** X4. [imageLocations] has one element per reported service: what the
    normalizer collects is the list of the images of the services of the
    non-null entries, in the order of the entries, applications, releases
    and services, repeated as often as they are reported. *)
Theorem collect_locations body uuids c :
  collect body uuids = Ok c →
  imageLocations c = image <$> batch_services body uuids.
Proof. exact (imageLocations_collect body uuids c). Qed.

Lemma collect_locations_witness :
  collect Example.body_shared (non_null_uuids Example.body_shared)
  = Ok {| appReleaseUuids := [("a1", ["r1"])];
          imageLocations := ["img-loc-1"; "img-loc-1"] |}
  ∧ image <$> batch_services Example.body_shared
                (non_null_uuids Example.body_shared)
    = ["img-loc-1"; "img-loc-1"].
Proof.
  split; [by vm_compute|]. symmetry.
  exact (collect_locations Example.body_shared
           (non_null_uuids Example.body_shared)
           {| appReleaseUuids := [("a1", ["r1"])];
              imageLocations := ["img-loc-1"; "img-loc-1"] |}
           ltac:(by vm_compute)).
Defined.

(** ** When the read phase passes *)

Lemma in_filter_count {R K} `{EqDecision K} (key : R → K) (rows : list R)
    (ks : list K) :
  NoDup (key <$> rows) →
  length (filter (λ r, key r ∈ ks) rows) = length ks
  ↔ NoDup ks ∧ ∀ k, k ∈ ks → ∃ r, r ∈ rows ∧ key r = k.
Proof.
  intros Hnd. split.
  - intros Hlen. split.
    + by eapply in_filter_full_NoDup.
    + by eapply in_filter_full.
  - intros [Hks Hall]. rewrite <- (length_fmap key (filter _ rows)).
    apply Permutation_length, NoDup_Permutation; [|done|].
    + eapply sublist_NoDup; [exact Hnd | apply fmap_sublist, sublist_filter].
    + intros k. split.
      * intros (r & -> & Hr)%list_elem_of_fmap.
        by apply list_elem_of_filter in Hr as [? _].
      * intros Hk. destruct (Hall k Hk) as (r & Hr & <-).
        apply list_elem_of_fmap. exists r. split; [done|].
        by apply list_elem_of_filter.
Qed.

Lemma devices_count st uuids :
  store_ok st →
  length (get_devices st uuids) = length uuids
  ↔ NoDup uuids ∧ ∀ u, u ∈ uuids → device_resolves st u.
Proof.
  intros Hok. unfold get_devices.
  rewrite (in_filter_count ref_uuid)
    by (rewrite device_ref_uuids; apply Hok).
  apply and_iff_compat_l. apply forall_proper. intros u.
  apply forall_proper. intros _. unfold device_resolves. split.
  - intros (r & (d & -> & Hd)%list_elem_of_fmap & Hu). by exists d.
  - intros (d & Hd & Hu). exists (device_ref d). split; [|done].
    apply list_elem_of_fmap. by exists d.
Qed.

Lemma images_count st locs :
  store_ok st →
  length (get_images st locs) = length locs
  ↔ NoDup locs ∧ ∀ loc, loc ∈ locs → image_resolves st loc.
Proof.
  intros Hok. unfold get_images.
  by rewrite (in_filter_count is_stored_at__image_location)
    by apply Hok.
Qed.

Lemma releases_count st app s :
  store_ok st →
  length (get_releases st app s) = length s
  ↔ NoDup s ∧ ∀ r, r ∈ s → commit_resolves st app r.
Proof.
  intros Hok. rewrite get_releases_alt.
  rewrite (in_filter_count commit)
    by apply release_commit_NoDup, Hok.
  apply and_iff_compat_l. apply forall_proper. intros r.
  apply forall_proper. intros _. unfold commit_resolves. split.
  - intros (rel & [Happ Hrel]%list_elem_of_filter & Hc). by exists rel.
  - intros (rel & Hrel & Happ & Hc). exists rel. split; [|done].
    by apply list_elem_of_filter.
Qed.

Lemma resolve_apps_passes st entries acc :
  (∃ rels, for_of (resolve_app st) entries acc = Ok rels)
  ↔ Forall (λ e, length (get_releases st e.1 e.2) = length e.2) entries.
Proof.
  revert acc. induction entries as [|[app s] entries IH]; intros acc; simpl.
  - split; [by intros _ | by eauto].
  - rewrite Forall_cons. simpl. case_decide as Hlen; simpl.
    + split; [by intros [? ?] | by intros [? _]].
    + rewrite IH. naive_solver.
Qed.

Lemma read_phase_passes_spec st uuids c :
  store_ok st →
  read_phase_passes st uuids c
  ↔ (NoDup uuids ∧ ∀ u, u ∈ uuids → device_resolves st u)
    ∧ (NoDup (imageLocations c)
       ∧ ∀ loc, loc ∈ imageLocations c → image_resolves st loc)
    ∧ Forall (λ e, NoDup e.2 ∧ ∀ r, r ∈ e.2 → commit_resolves st e.1 r)
        (appReleaseUuids c).
Proof.
  intros Hok.
  rewrite <- (devices_count st uuids Hok).
  rewrite <- (images_count st (imageLocations c) Hok).
  assert (Forall (λ e, NoDup e.2 ∧ ∀ r, r ∈ e.2 → commit_resolves st e.1 r)
            (appReleaseUuids c)
          ↔ ∃ rels, for_of (resolve_app st) (appReleaseUuids c) [] = Ok rels)
    as ->.
  { rewrite resolve_apps_passes. apply Forall_proper; [|done].
    intros [app s]. simpl. symmetry. by apply releases_count. }
  unfold read_phase_passes, read_phase.
  case_decide as Hd.
  { split; [by intros [? ?] | by intros [? _]]. }
  destruct (imageLocations c) as [|l ls] eqn:Hlocs; simpl.
  - assert (length (get_images st []) = length (@nil string)) as Hnil.
    { apply images_count; [done|]. split; [apply NoDup_nil_2|].
      by intros loc ?%elem_of_nil. }
    destruct (for_of _ _ _) as [rels|e]; simpl.
    + split; [by eauto | by eauto].
    + split; [by intros [? ?] | by intros (_ & _ & [? ?])].
  - case_decide as Hi; simpl.
    { split; [by intros [? ?] | intros (_ & Hlen & _)]. by rewrite Hlen in Hi. }
    destruct (for_of _ _ _) as [rels|e]; simpl.
    + split; [by eauto | by eauto].
    + split; [by intros [? ?] | by intros (_ & _ & [? ?])].
Qed.

(** X5. On a store with the keys of the data model, the read phase passes
    exactly when no uuid, no location and no commit of a set is requested
    twice and each of them has its row: every uuid a device, every
    location an image, every commit a release of its application. *)
Theorem read_phase_passes_iff st uuids c :
  store_ok st →
  read_phase_passes st uuids c
  ↔ (NoDup uuids ∧ ∀ u, u ∈ uuids → device_resolves st u)
    ∧ (NoDup (imageLocations c)
       ∧ ∀ loc, loc ∈ imageLocations c → image_resolves st loc)
    ∧ Forall (λ e, NoDup e.2 ∧ ∀ r, r ∈ e.2 → commit_resolves st e.1 r)
        (appReleaseUuids c).
Proof. exact (read_phase_passes_spec st uuids c). Qed.

Lemma read_phase_passes_iff_witness :
  store_ok Example.store1
  ∧ read_phase_passes Example.store1 (non_null_uuids Example.body1)
      Example.collected1
  ∧ NoDup (non_null_uuids Example.body1)
  ∧ ∀ u, u ∈ non_null_uuids Example.body1 →
      device_resolves Example.store1 u.
Proof.
  assert (store_ok Example.store1) as Hok.
  { split; apply (bool_decide_unpack _); vm_compute; exact I. }
  assert (read_phase_passes Example.store1 (non_null_uuids Example.body1)
            Example.collected1) as Hpass.
  { by exists Example.resolved1. }
  split; [done|]. split; [done|].
  apply (read_phase_passes_iff Example.store1
           (non_null_uuids Example.body1) Example.collected1 Hok),
    Hpass.
Defined.




(** ** How a request can end *)

Lemma aborted_inv body st e w :
  store_ok st →
  statePatchV3 body st = Aborted e w →
  e = TypeError
  ∧ ∃ uuid state a d,
      state_of body uuid = Some state ∧ apps state = Some a
      ∧ d ∈ devices st ∧ d_uuid d = uuid
      ∧ (get (d_app d) a = None ∨ d_app d ∈ object_prototype
         ∨ has_null a).
Proof.
  intros Hok Hout.
  destruct (write_tx_inv body st)
    as (c & x & w' & r & Hc & Hread & Hloop & Hst); [by rewrite Hout|].
  rewrite Hout in Hst. destruct r as [[]|e']; [done|].
  injection Hst as -> ->.
  apply write_loop_throw_inv in Hloop as (uuid & w1 & Hin & Hp).
  pose proof (read_phase_ok_inv _ _ _ _ Hread) as (_ & Hlen & _).
  destruct (get_devices_full _ _ _ Hok Hlen Hin) as (d & Hd & Hdu & _).
  revert Hp. unfold process_device.
  destruct (state_of body uuid) as [state|] eqn:Hs.
  2:{ apply non_null_state_of in Hin as [? ?]. congruence. }
  subst uuid.
  rewrite (find_device _ _ _ _ _ Hok Hc Hread Hd Hin).
  destruct (device_body x state (device_ref d)) as [b|e''] eqn:Hb.
  - destruct (apps state) as [a|] eqn:Ha; [|done].
    destruct (build_imgInstalls x a) as [C|e3] eqn:HC; [done|].
    intros [= _ <-].
    destruct (build_imgInstalls_throw_inv _ _ _ _ _ _ _ _ Hok Hc Hread
                Hs Ha HC) as [-> Hnull].
    split; [done|]. exists (d_uuid d), state, a, d.
    split_and!; [done..|]. by right; right.
  - intros [= _ <-]. split; [by eapply device_body_throws|].
    revert Hb. unfold device_body.
    destruct (apps state) as [a|] eqn:Ha; [|done]. simpl.
    destruct (running_release _ _ _) as [r|e3] eqn:Hrun; [done|].
    intros _. exists (d_uuid d), state, a, d. split_and!; [done..|].
    destruct (get (d_app d) a) as [ac|] eqn:Hac; [|by left].
    right. left.
    destruct (decide (d_app d ∈ object_prototype)) as [|Hown]; [done|].
    destruct (own_app_releases _ _ _ _ _ _ _ d _ Hc Hread Hs Ha Hac Hown)
      as (s & Hget & _).
    revert Hrun. unfold running_release. by rewrite Hget, Hac.
Qed.

(** X7. On a store with the keys of the data model, a request that got
    through the read phase can abort with a [TypeError] only, and only
    at a device with an [apps] object of which one of these holds: it
    has no entry for the application the device belongs to, the uuid of
    that application is a name of [Object.prototype], or some [releases]
    or [services] in it is [null]. The [UnauthorizedError] of line 242
    and the two [InternalRequestError]s are out of reach. *)
Theorem abort_is_type_error body st e w :
  store_ok st →
  statePatchV3 body st = Aborted e w →
  e = TypeError
  ∧ ∃ uuid state a d,
      state_of body uuid = Some state ∧ apps state = Some a
      ∧ d ∈ devices st ∧ d_uuid d = uuid
      ∧ (get (d_app d) a = None ∨ d_app d ∈ object_prototype
         ∨ has_null a).
Proof. exact (aborted_inv body st e w). Qed.

(** A report with [releases: null] gets through the read phase and
    aborts in the write transaction. *)
Lemma abort_is_type_error_witness :
  store_ok Example.store1
  ∧ statePatchV3 Example.body_null_releases Example.store1
    = Aborted TypeError [PatchDevice 1 Example.patch_two]
  ∧ has_null Example.apps_null_releases
  ∧ ∃ uuid state a d,
      state_of Example.body_null_releases uuid = Some state
      ∧ apps state = Some a ∧ d ∈ devices Example.store1
      ∧ d_uuid d = uuid
      ∧ (get (d_app d) a = None ∨ d_app d ∈ object_prototype
         ∨ has_null a).
Proof.
  assert (store_ok Example.store1) as Hok.
  { split; apply (bool_decide_unpack _); vm_compute; exact I. }
  split; [done|]. split; [by vm_compute|]. split.
  { left. eexists _, _. split; [left | done]. }
  exact (proj2 (abort_is_type_error Example.body_null_releases
                  Example.store1 TypeError
                  [PatchDevice 1 Example.patch_two] Hok
                  ltac:(by vm_compute))).
Defined.






(** ** The order of the instructions *)

(** X9. The instructions of a committed request are those of its devices
    one after the other, in the order of the keys of the body; what is
    pushed for a device does not depend on the devices before it. *)
Theorem committed_instrs_by_device body st w :
  statePatchV3 body st = Committed w →
  ∃ c x, collect body (non_null_uuids body) = Ok c
         ∧ read_phase st (non_null_uuids body) c = Ok x
         ∧ w = mjoin (device_instrs body x <$> non_null_uuids body).
Proof.
  intros (c & x & Hc & Hread & Hloop)%committed_inv. exists c, x.
  split; [done|]. split; [done|].
  by apply write_loop_concat in Hloop.
Qed.

Lemma committed_instrs_by_device_witness :
  statePatchV3 Example.body_two Example.store1
  = Committed (device_instrs Example.body_two Example.resolved_two "d1"
               ++ device_instrs Example.body_two Example.resolved_two "d2")
  ∧ ∃ c x, collect Example.body_two (non_null_uuids Example.body_two)
           = Ok c
         ∧ read_phase Example.store1 (non_null_uuids Example.body_two) c
           = Ok x
         ∧ device_instrs Example.body_two Example.resolved_two "d1"
           ++ device_instrs Example.body_two Example.resolved_two "d2"
           = mjoin (device_instrs Example.body_two x
                       <$> non_null_uuids Example.body_two).
Proof.
  split; [by vm_compute|].
  exact (committed_instrs_by_device Example.body_two Example.store1 _
           ltac:(by vm_compute)).
Defined.

(** X10. In a committed request every upsert task is directly followed by
    the delete of the same device with the same image ids, and it is
    issued only for a non-empty list of claimed installs. *)
Theorem upsert_then_delete body st w dev ids C :
  statePatchV3 body st = Committed w →
  UpsertImageInstalls dev ids C ∈ w →
  C ≠ [] ∧ ids = imageId <$> C
  ∧ ∃ w1 w2,
      w = w1 ++ [UpsertImageInstalls dev ids C;
                 DeleteOldImageInstalls dev ids] ++ w2.
Proof. exact (upsert_split body st w dev ids C). Qed.

Lemma upsert_then_delete_witness :
  statePatchV3 Example.body1 Example.store1 = Committed Example.instrs1
  ∧ UpsertImageInstalls 1 [9] [Example.install_claim1] ∈ Example.instrs1
  ∧ ∃ w1 w2,
      Example.instrs1
      = w1 ++ [UpsertImageInstalls 1 [9] [Example.install_claim1];
               DeleteOldImageInstalls 1 [9]] ++ w2.
Proof.
  assert (UpsertImageInstalls 1 [9] [Example.install_claim1]
            ∈ Example.instrs1) as Hin by (right; left).
  split; [by vm_compute|]. split; [done|].
  by destruct (upsert_then_delete Example.body1 Example.store1
                 Example.instrs1 1 [9] [Example.install_claim1]
                 ltac:(by vm_compute) Hin) as (_ & _ & ?).
Defined.

(** ** The install candidates *)

(** X11. [imgInstalls] has one element per reported service, in the order
    in which the services are reported, with the status and the download
    progress of its service. *)
Theorem install_per_service x a C :
  build_imgInstalls x a = Ok C →
  install_report <$> C = service_report <$> reported_services a.
Proof. exact (build_imgInstalls_report x a C). Qed.

Lemma install_per_service_witness :
  build_imgInstalls Example.resolved1 (Example.claim "a1" "r1" "img-loc-1")
  = Ok [Example.install_claim1]
  ∧ install_report <$> [Example.install_claim1]
    = service_report
        <$> reported_services (Example.claim "a1" "r1" "img-loc-1").
Proof.
  split; [reflexivity|].
  exact (install_per_service Example.resolved1
           (Example.claim "a1" "r1" "img-loc-1") _ eq_refl).
Defined.

(** The device that the write loop finds for a uuid is a row of the
    store, the only one with its id. *)
Lemma found_device_unique st uuids c x uuid device :
  store_ok st →
  read_phase st uuids c = Ok x →
  List.find (λ d, bool_decide (ref_uuid d = uuid)) (x_devices x)
    = Some device →
  ∃ d, d ∈ devices st ∧ d_uuid d = uuid ∧ d_id d = ref_id device
       ∧ ∀ d', d' ∈ devices st → d_id d' = ref_id device → d' = d.
Proof.
  intros Hok Hread Hfind.
  destruct (found_device _ _ _ _ _ _ Hread Hfind) as (d & Hd & Hu & ->).
  exists d. split_and!; [done..|]. intros d' Hd' Hid.
  eapply NoDup_fmap_eq; [apply (id_unique _ Hok) | done..].
Qed.

(** X12. Every install that a request asks the store to upsert for a
    device is built from a service that this device reports. The upsert
    addresses a device of the store, the only one with its id, the body
    has an entry with an [apps] object under the uuid of that device,
    and every install of the upsert is built from a service of that
    [apps] object: its image is the image row at the location of the
    service, and its release is a release row of the application under
    which the device reports the service, with the commit under which it
    reports it. *)
Theorem issued_installs_resolved body st dev ids C :
  store_ok st →
  UpsertImageInstalls dev ids C ∈ issued_instrs (statePatchV3 body st) →
  ∃ d state a,
    d ∈ devices st ∧ d_id d = dev
    ∧ (∀ d', d' ∈ devices st → d_id d' = dev → d' = d)
    ∧ state_of body (d_uuid d) = Some state ∧ apps state = Some a
    ∧ Forall (install_from st a) C.
Proof.
  intros Hok (c & x & _ & Hread & Hp)%issued_instrs_pushed.
  inversion Hp as [|uuid state device a c0 cs Hs Hfind Ha Hbuild|]; subst.
  destruct (found_device_unique _ _ _ _ _ _ Hok Hread Hfind)
    as (d & Hd & <- & Hid & Huniq).
  exists d, state, a. split_and!; [done..|].
  by eapply build_imgInstalls_from.
Qed.

Lemma issued_installs_resolved_witness :
  store_ok Example.store1
  ∧ UpsertImageInstalls 1 [9] [Example.install_claim1]
      ∈ issued_instrs (statePatchV3 Example.body1 Example.store1)
  ∧ ∃ d state a,
      d ∈ devices Example.store1 ∧ d_id d = 1
      ∧ (∀ d', d' ∈ devices Example.store1 → d_id d' = 1 → d' = d)
      ∧ state_of Example.body1 (d_uuid d) = Some state
      ∧ apps state = Some a
      ∧ Forall (install_from Example.store1 a) [Example.install_claim1].
Proof.
  assert (store_ok Example.store1) as Hok.
  { split; apply (bool_decide_unpack _); vm_compute; exact I. }
  assert (UpsertImageInstalls 1 [9] [Example.install_claim1]
            ∈ issued_instrs (statePatchV3 Example.body1 Example.store1))
    as Hin.
  { vm_compute. right. left. }
  split; [done|]. split; [done|].
  exact (issued_installs_resolved Example.body1 Example.store1 1 [9]
           [Example.install_claim1] Hok Hin).
Defined.

(** ** What a device patch carries *)

Lemma get_pick k (o : obj value) paths :
  get k (pick o paths) = if decide (k ∈ paths) then get k o else None.
Proof.
  unfold pick. induction paths as [|p paths IH].
  { destruct (decide (k ∈ [])) as [?%elem_of_nil|]; done. }
  change (omap (λ k0, (λ v, (k0, v)) <$> get k0 o) (p :: paths))
    with (match (λ v, (p, v)) <$> get p o with
          | Some y => y :: omap (λ k0, (λ v, (k0, v)) <$> get k0 o) paths
          | None => omap (λ k0, (λ v, (k0, v)) <$> get k0 o) paths
          end).
  destruct (decide (p = k)) as [->|Hne].
  - rewrite (decide_True (P := k ∈ k :: paths)) by left.
    destruct (get k o) as [v|] eqn:Hget; simpl.
    + by rewrite decide_True.
    + rewrite IH. by case_decide.
  - assert (k ∈ p :: paths ↔ k ∈ paths) as Hiff.
    { rewrite elem_of_cons. naive_solver. }
    rewrite (decide_ext _ _ _ _ Hiff).
    destruct (get p o) as [v|]; simpl; [|done].
    by rewrite decide_False.
Qed.

Lemma device_body_values x state device b :
  device_body x state device = Ok b →
  (∀ k, k ∈ validPatchFields → get k b = get k (fields state))
  ∧ get "device_name" b
    = match get "name" (fields state) with
      | Some v => if decide (v = VNull) then None else Some v
      | None => None
      end.
Proof.
  assert ("device_name" ∉ validPatchFields) as Hdn.
  { unfold validPatchFields. set_solver. }
  assert ("is_running__release" ∉ validPatchFields) as Hrr.
  { unfold validPatchFields. set_solver. }
  assert ((∀ k, k ∈ validPatchFields →
             get k (base_body state) = get k (fields state))
          ∧ get "device_name" (base_body state)
            = match get "name" (fields state) with
              | Some v => if decide (v = VNull) then None else Some v
              | None => None
              end) as [Hbase Hname].
  { unfold base_body. destruct (get "name" (fields state)) as [v|].
    - case_decide.
      + split; [|by rewrite get_pick, decide_False].
        intros k Hk. by rewrite get_pick, decide_True.
      + split; [|apply get_set_eq]. intros k Hk.
        rewrite get_set_ne by (intros <-; done).
        by rewrite get_pick, decide_True.
    - split; [|by rewrite get_pick, decide_False].
      intros k Hk. by rewrite get_pick, decide_True. }
  unfold device_body.
  destruct (match apps state with Some _ => _ | None => _ end)
    as [[r|]|]; simpl; intros [= <-]; [|done].
  split.
  - intros k Hk. rewrite get_set_ne by (intros <-; done). by apply Hbase.
  - by rewrite get_set_ne.
Qed.

(** X13. A device patch carries the report of the device it addresses,
    as it is. The patch addresses a device of the store, the only one
    with its id, and the body has an entry under the uuid of that
    device; for every field of the allow-list the patch has the value
    that entry has, [null] included, and no value when the entry has
    none; [device_name] is the [name] of the entry when that is not
    [null], and absent otherwise. *)
Theorem patch_carries_report body st dev b :
  store_ok st →
  PatchDevice dev b ∈ issued_instrs (statePatchV3 body st) →
  ∃ d state,
    d ∈ devices st ∧ d_id d = dev
    ∧ (∀ d', d' ∈ devices st → d_id d' = dev → d' = d)
    ∧ state_of body (d_uuid d) = Some state
    ∧ (∀ k, k ∈ validPatchFields → get k b = get k (fields state))
    ∧ get "device_name" b
      = match get "name" (fields state) with
        | Some v => if decide (v = VNull) then None else Some v
        | None => None
        end.
Proof.
  intros Hok (c & x & _ & Hread & Hp)%issued_instrs_pushed.
  inversion Hp as [uuid state device b' k v rest Hs Hfind Hb Heq| |]; subst.
  destruct (found_device_unique _ _ _ _ _ _ Hok Hread Hfind)
    as (d & Hd & <- & Hid & Huniq).
  exists d, state. split_and!; [done..| |]; by eapply device_body_values.
Qed.

Lemma patch_carries_report_witness :
  store_ok Example.store1
  ∧ PatchDevice 1 Example.patch1
      ∈ issued_instrs (statePatchV3 Example.body1 Example.store1)
  ∧ ∃ d state,
      d ∈ devices Example.store1 ∧ d_id d = 1
      ∧ (∀ d', d' ∈ devices Example.store1 → d_id d' = 1 → d' = d)
      ∧ state_of Example.body1 (d_uuid d) = Some state
      ∧ (∀ k, k ∈ validPatchFields →
           get k Example.patch1 = get k (fields state))
      ∧ get "device_name" Example.patch1
        = match get "name" (fields state) with
          | Some v => if decide (v = VNull) then None else Some v
          | None => None
          end.
Proof.
  assert (store_ok Example.store1) as Hok.
  { split; apply (bool_decide_unpack _); vm_compute; exact I. }
  assert (PatchDevice 1 Example.patch1
            ∈ issued_instrs (statePatchV3 Example.body1 Example.store1))
    as Hin.
  { vm_compute. left. }
  split; [done|]. split; [done|].
  exact (patch_carries_report Example.body1 Example.store1 1
           Example.patch1 Hok Hin).
Defined.

(** ** A missing and an empty [apps] object *)

Lemma apps_missing_instrs body st w d state :
  store_ok st →
  statePatchV3 body st = Committed w →
  d ∈ devices st → state_of body (d_uuid d) = Some state →
  apps state = None →
  ∀ i, i ∈ w → instr_device i = d_id d → ∃ b, i = PatchDevice (d_id d) b.
Proof.
  intros Hok Hout Hd Hs Hnone i Hi Hdev.
  destruct (committed_turns _ _ _ Hout) as (c & x & Hc & Hread & _ & Hturns).
  pose proof (state_of_non_null _ _ _ Hs) as Hu.
  destruct (proj1 (committed_device_instrs _ _ _ _ _ _ i Hok Hout Hc Hread
                     Hd) (conj Hi Hdev)) as [_ Hin].
  destruct (device_instrs_shape _ _ _ _ _ _ Hread (Hturns _ Hu))
    as (d' & state' & b & Hd' & Hu' & Hs' & Hb & Hshape).
  rewrite Hs in Hs'. injection Hs' as <-.
  destruct Hshape as [[_ Heq]|(a & C & Ha & _)]; [|congruence].
  rewrite Heq in Hin. apply push_patch_device in Hin as ->.
  simpl in Hdev. exists b. simpl. by rewrite Hdev.
Qed.

Lemma apps_empty_instrs body st w d state a :
  store_ok st →
  statePatchV3 body st = Committed w →
  d ∈ devices st → state_of body (d_uuid d) = Some state →
  apps state = Some a → reported_services a = [] →
  DeleteOldImageInstalls (d_id d) [] ∈ w
  ∧ ∀ ids C, UpsertImageInstalls (d_id d) ids C ∉ w.
Proof.
  intros Hok Hout Hd Hs Ha Hempty.
  destruct (committed_turns _ _ _ Hout) as (c & x & Hc & Hread & _).
  assert (∀ i, ∃ b C,
            build_imgInstalls x a = Ok C
            ∧ ((i ∈ w ∧ instr_device i = d_id d)
               ↔ (b ≠ [] ∧ i = PatchDevice (d_id d) b)
                 ∨ (C ≠ [] ∧ i = UpsertImageInstalls (d_id d)
                                   (imageId <$> C) C)
                 ∨ i = DeleteOldImageInstalls (d_id d) (imageId <$> C)))
    as Hinstrs.
  { intros i.
    destruct (committed_apps_instrs _ _ _ _ _ _ _ _ i Hok Hout Hc Hread Hd
                Hs Ha) as (b & C & _ & HC & Hiff). by exists b, C. }
  assert (∀ C, build_imgInstalls x a = Ok C → C = []) as Hnil.
  { intros C HC. apply build_imgInstalls_report in HC.
    rewrite Hempty in HC. by apply fmap_nil_inv in HC. }
  split.
  - destruct (Hinstrs (DeleteOldImageInstalls (d_id d) []))
      as (b & C & HC & Hiff).
    rewrite (Hnil _ HC) in Hiff. apply Hiff. by right; right.
  - intros ids C0 Hin.
    destruct (Hinstrs (UpsertImageInstalls (d_id d) ids C0))
      as (b & C & HC & Hiff).
    rewrite (Hnil _ HC) in Hiff.
    destruct (proj1 Hiff (conj Hin eq_refl)) as [[_ ?]|[[? _]|?]]; done.
Qed.

(** X14. A device that reports no [apps] object gets neither an upsert
    task nor a delete: its installs are left alone. A device that reports
    an [apps] object without any service gets no upsert task and a delete
    with an empty list of image ids to keep. *)
Theorem apps_missing_or_empty body st w d state :
  store_ok st →
  statePatchV3 body st = Committed w →
  d ∈ devices st → state_of body (d_uuid d) = Some state →
  (apps state = None →
   (∀ ids, DeleteOldImageInstalls (d_id d) ids ∉ w)
   ∧ ∀ ids C, UpsertImageInstalls (d_id d) ids C ∉ w)
  ∧ (∀ a, apps state = Some a → reported_services a = [] →
       DeleteOldImageInstalls (d_id d) [] ∈ w
       ∧ ∀ ids C, UpsertImageInstalls (d_id d) ids C ∉ w).
Proof.
  intros Hok Hout Hd Hs. split.
  - intros Hnone.
    pose proof (apps_missing_instrs _ _ _ _ _ Hok Hout Hd Hs Hnone)
      as Hpatch.
    split.
    + intros ids Hin. by destruct (Hpatch _ Hin eq_refl).
    + intros ids C Hin. by destruct (Hpatch _ Hin eq_refl).
  - intros a Ha Hempty. by eapply apps_empty_instrs.
Qed.

Lemma apps_missing_or_empty_witness :
  store_ok Example.store1
  ∧ statePatchV3 Example.body_no_service Example.store1
    = Committed [PatchDevice 1 [("status", VStr "Idle")];
                 DeleteOldImageInstalls 1 []]
  ∧ DeleteOldImageInstalls (d_id Example.device1) []
      ∈ [PatchDevice 1 [("status", VStr "Idle")];
         DeleteOldImageInstalls 1 []].
Proof.
  assert (store_ok Example.store1) as Hok.
  { split; apply (bool_decide_unpack _); vm_compute; exact I. }
  assert (Example.device1 ∈ devices Example.store1) as Hd by left.
  split; [done|]. split; [by vm_compute|].
  destruct (apps_missing_or_empty Example.body_no_service Example.store1
              _ Example.device1 _ Hok ltac:(by vm_compute) Hd eq_refl)
    as [_ Hempty].
  by destruct (Hempty [("a1", {| release_uuid := None;
                                releases := Undefined |})]
                 eq_refl eq_refl).
Defined.

(** * Further properties of the cache *)

(** ** Registration of cache keys *)

(** X15. [multiCacheMemoizee] returns a memoized function exactly when no
    unsupported option is given, both mode flags are set, the cache key is
    not empty and not yet taken. A key other than [__proto__] is then
    taken, so that no later call with the same key succeeds, whatever it
    memoizes. The key [__proto__] is never recorded: the keys taken stay
    as they were, and the same key is given out again. *)
Theorem cache_key_taken_once {Args : Type}
    (version : string) (fn : Args → option Cache.Defined)
    (normalizer : Args → string) (opts : Cache.Options)
    (usedCacheKeys : list string) :
  (is_Some (Cache.multiCacheMemoizee version fn normalizer opts
              usedCacheKeys)
   ↔ Cache.remainingKeys opts = [] ∧ Cache.promise opts = true
     ∧ Cache.primitive opts = true ∧ Cache.cacheKey opts ≠ ""
     ∧ Cache.cacheKey opts ∉ usedCacheKeys)
  ∧ ∀ memo usedCacheKeys',
      Cache.multiCacheMemoizee version fn normalizer opts usedCacheKeys
      = Some (memo, usedCacheKeys') →
      (Cache.cacheKey opts ≠ "__proto__" →
       usedCacheKeys' = Cache.cacheKey opts :: usedCacheKeys
       ∧ ∀ (fn' : Args → option Cache.Defined) normalizer' opts' later,
           usedCacheKeys' ⊆ later →
           Cache.cacheKey opts' = Cache.cacheKey opts →
           Cache.multiCacheMemoizee version fn' normalizer' opts' later
           = None)
      ∧ (Cache.cacheKey opts = "__proto__" →
         usedCacheKeys' = usedCacheKeys
         ∧ ∀ (fn' : Args → option Cache.Defined) normalizer',
             is_Some (Cache.multiCacheMemoizee version fn' normalizer'
                        opts usedCacheKeys')).
Proof.
  unfold Cache.multiCacheMemoizee, Cache.take_key. split.
  - destruct (Cache.remainingKeys opts), (Cache.promise opts),
      (Cache.primitive opts); simpl; repeat case_decide;
      split; try (by intros [? ?]); try (by intros (? & ? & ? & ? & ?));
      by eauto.
  - intros memo used'.
    destruct (Cache.remainingKeys opts) eqn:Hrem,
      (Cache.promise opts) eqn:Hpro,
      (Cache.primitive opts) eqn:Hpri; simpl; try done.
    destruct (decide (Cache.cacheKey opts = "")) as [|Hne]; [done|].
    destruct (decide (Cache.cacheKey opts ∈ usedCacheKeys)) as [|Hfree];
      [done|].
    intros [= <- <-]. split.
    + intros Hkey. rewrite decide_False by done. split; [done|].
      intros fn' normalizer' opts' later Hsub Hsame.
      destruct (Cache.remainingKeys opts'), (Cache.promise opts'),
        (Cache.primitive opts'); simpl; repeat case_decide; try done;
        exfalso;
        (match goal with H : _ ∉ _ |- _ => apply H; apply Hsub end);
        rewrite Hsame; left.
    + intros Hkey. rewrite decide_True by done. split; [done|].
      intros fn' normalizer'. simpl.
      repeat case_decide; try done; by eexists.
Qed.

Lemma cache_key_taken_once_witness :
  (Cache.multiCacheMemoizee "1" CacheSpec.lookup_fn
     CacheSpec.lookup_normalizer CacheSpec.lookup_opts []
   = Some (CacheSpec.lookup_memo, ["lookup"])
   ∧ Cache.multiCacheMemoizee "1" CacheSpec.lookup_fn
       CacheSpec.lookup_normalizer CacheSpec.lookup_opts ["other"; "lookup"]
     = None)
  ∧ (snd <$> Cache.multiCacheMemoizee "1" CacheSpec.lookup_fn
               CacheSpec.lookup_normalizer CacheSpec.proto_opts ["lookup"]
     = Some ["lookup"]
     ∧ is_Some (Cache.multiCacheMemoizee "1" CacheSpec.lookup_fn_coarse
                  CacheSpec.lookup_normalizer CacheSpec.proto_opts
                  ["lookup"])).
Proof.
  split.
  - split; [reflexivity|].
    destruct (cache_key_taken_once "1" CacheSpec.lookup_fn
                CacheSpec.lookup_normalizer CacheSpec.lookup_opts [])
      as [_ Htaken].
    destruct (Htaken _ _ eq_refl) as [Hlater _].
    destruct Hlater as [_ Hlater]; [done|].
    apply Hlater; [|done]. intros k Hk. by right.
  - split; [reflexivity|].
    destruct (cache_key_taken_once "1" CacheSpec.lookup_fn
                CacheSpec.lookup_normalizer CacheSpec.proto_opts
                ["lookup"]) as [_ Htaken].
    destruct (Htaken _ _ eq_refl) as [_ Hagain].
    destruct (Hagain eq_refl) as [_ Hsome].
    exact (Hsome CacheSpec.lookup_fn_coarse CacheSpec.lookup_normalizer).
Defined.

(** ** Calls, one after the other *)

Section cache_more.
Import Cache CacheSpec.
Context {Args : Type}.
Variable version : string.
Variable fn : Args → option Defined.
Variable cacheKey : string.
Variable normalizer : Args → string.
Variable sentinel : Defined.

Local Abbreviation memo :=
  (Cache.memoizedFn version fn cacheKey normalizer (Some sentinel)).
Local Abbreviation key := (Cache.getKey version cacheKey normalizer).
Local Abbreviation coherent :=
  (CacheSpec.coherent version fn cacheKey normalizer sentinel).
Local Abbreviation stored := (CacheSpec.stored sentinel).
Local Abbreviation observed := (CacheSpec.observed sentinel).
Local Abbreviation forget :=
  (Cache.memoizedFn_delete version cacheKey normalizer).

(** From here on the sentinel is a primitive other than [NaN]. *)
Hypothesis sentinel_plain : plain sentinel.

(** X16. With a primitive other than [NaN] for the sentinel, a result
    equal to the sentinel cannot be told from [undefined]: the call
    returns [undefined] for it, when it is computed and when it is served
    from the cache. *)
Theorem sentinel_result_reads_undefined args s :
  coherent s → fn args = Some sentinel →
  ∃ s', memo args s = (None, s') ∧ memo args s' = (None, s').
Proof.
  intros Hco Hfn.
  destruct (memo_result version fn cacheKey normalizer sentinel
              sentinel_plain args s Hco) as [Hres _].
  destruct (memo_entry version fn cacheKey normalizer sentinel args s Hco)
    as (d & Hentry & Hd & _).
  destruct (memo args s) as [r s'] eqn:Hcall. simpl in *.
  exists s'. rewrite Hfn in Hres, Hd. unfold CacheSpec.observed in Hres.
  rewrite decide_True in Hres by done. inversion Hres; subst.
  split; [done|]. simpl in Hd.
  apply (alike_plain _ _ sentinel_plain) in Hd as ->.
  rewrite (memo_hit _ _ _ _ _ _ _ _ Hentry).
  by rewrite (proj2 (strict_eq_plain _ _ sentinel_plain) eq_refl).
Qed.

(** X17. [delete] forgets the entry of its arguments and no other: the
    next call with these arguments runs the function again, returns what
    it yields and files a copy of it anew; the entries under other keys
    stay, and the cache still holds only copies of what the function
    yields. *)
Theorem delete_forgets_one_key args s :
  coherent s →
  Cache.entries (forget args s) !! key args = None
  ∧ (∀ k, k ≠ key args →
       Cache.entries (forget args s) !! k = Cache.entries s !! k)
  ∧ coherent (forget args s)
  ∧ ∃ s' d, memo args (forget args s) = (observed (fn args), s')
            ∧ Cache.calls s' = S (Cache.calls s)
            ∧ Cache.entries s' !! key args = Some d
            ∧ alike d (stored (fn args)).
Proof.
  intros Hco. unfold Cache.memoizedFn_delete. simpl.
  assert (Cache.entries
            {| Cache.entries := delete (key args) (Cache.entries s);
               Cache.stores := Cache.stores s;
               Cache.calls := Cache.calls s |} !! key args = None)
    as Hmiss by apply lookup_delete_eq.
  split_and!.
  - apply lookup_delete_eq.
  - intros k Hk. by apply lookup_delete_ne.
  - intros args' d. simpl. rewrite lookup_delete_Some.
    intros [_ Hd]. by apply Hco.
  - eexists _, _. rewrite (memo_miss _ _ _ _ _ _ _ Hmiss). simpl.
    rewrite (observed_computed _ sentinel_plain).
    split_and!; [done | done | apply lookup_insert_eq | apply alike_clone].
Qed.

(** From here on the normalizer tells apart what the function tells
    apart. *)
Hypothesis normalizer_sound :
  ∀ a1 a2, normalizer a1 = normalizer a2 → fn a1 = fn a2.

(** One call: what it returns and what it does to the cache. *)
Lemma memo_step args s :
  coherent s →
  ∃ r s', memo args s = (r, s')
        ∧ option_Forall2 alike r (observed (fn args))
        ∧ coherent s'
        ∧ dom (Cache.entries s') = {[key args]} ∪ dom (Cache.entries s)
        ∧ (Cache.calls s' + size (dom (Cache.entries s))
           = Cache.calls s + size (dom (Cache.entries s')))%nat.
Proof.
  intros Hco.
  destruct (memo_result version fn cacheKey normalizer sentinel
              sentinel_plain args s Hco) as [Hres _].
  pose proof (memo_coherent version fn cacheKey normalizer sentinel args s
                normalizer_sound Hco) as Hco'.
  destruct (memo_entry version fn cacheKey normalizer sentinel args s Hco)
    as (d & _ & _ & Hcalls & Hdom).
  destruct (memo args s) as [r s'] eqn:Hcall. simpl in *.
  exists r, s'. split_and!; [done..|].
  rewrite Hdom, Hcalls.
  destruct (Cache.entries s !! key args) as [d'|] eqn:Hlook.
  - apply elem_of_dom_2 in Hlook.
    replace ({[key args]} ∪ dom (Cache.entries s))
      with (dom (Cache.entries s)) by set_solver. lia.
  - apply not_elem_of_dom in Hlook.
    rewrite size_union, size_singleton; [lia|]. set_solver.
Qed.

(** X18. With a primitive other than [NaN] for the sentinel, memoization
    is transparent and runs the function once per key: in any sequence
    of calls on a cache whose entries are copies of what the function
    yields, every call returns the value of the function for its
    arguments, up to the identity of an object (a value equal to the
    sentinel reads as [undefined]), and the function runs exactly as
    often as the calls bring new keys into the cache. *)
Theorem calls_transparent_once_per_key (l : list Args) s :
  coherent s →
  ∃ rs s', CacheTrace.run_calls memo l s = (rs, s')
        ∧ Forall2 (option_Forall2 alike) rs ((λ a, observed (fn a)) <$> l)
        ∧ coherent s'
        ∧ dom (Cache.entries s')
          = list_to_set (key <$> l) ∪ dom (Cache.entries s)
        ∧ (Cache.calls s' + size (dom (Cache.entries s))
           = Cache.calls s + size (dom (Cache.entries s')))%nat.
Proof.
  revert s. induction l as [|a l IH]; intros s Hco.
  - exists [], s. split_and!; [done | constructor | done | | done].
    set_solver.
  - destruct (memo_step a s Hco)
      as (r & s1 & Hcall & Hr & Hco1 & Hdom1 & Hcnt1).
    destruct (IH s1 Hco1) as (rs & s2 & Hrun & Hrs & Hco2 & Hdom2 & Hcnt2).
    exists (r :: rs), s2. cbn [CacheTrace.run_calls]. rewrite Hcall, Hrun.
    split_and!; [done | by constructor | done | | lia].
    rewrite Hdom2, Hdom1, fmap_cons. set_solver.
Qed.
End cache_more.

Lemma calls_transparent_once_per_key_witness :
  CacheSpec.plain (Cache.DNumber (-1))
  ∧ (∀ a1 a2, CacheSpec.lookup_normalizer a1 = CacheSpec.lookup_normalizer a2 →
              CacheSpec.lookup_fn_coarse a1 = CacheSpec.lookup_fn_coarse a2)
  ∧ CacheSpec.coherent "1" CacheSpec.lookup_fn_coarse "lookup"
      CacheSpec.lookup_normalizer (Cache.DNumber (-1)) Cache.empty
  ∧ ∃ rs s', CacheTrace.run_calls
               (Cache.memoizedFn "1" CacheSpec.lookup_fn_coarse "lookup"
                  CacheSpec.lookup_normalizer (Some (Cache.DNumber (-1))))
               [0; 5; 0; 7] Cache.empty
             = (rs, s')
             ∧ Forall2 (option_Forall2 CacheSpec.alike) rs
                 [None; Some (Cache.DNumber 1); None;
                  Some (Cache.DNumber 1)]
             ∧ (Cache.calls s' + size (dom (Cache.entries Cache.empty))
                = 0 + size (dom (Cache.entries s')))%nat.
Proof.
  assert (∀ a1 a2,
            CacheSpec.lookup_normalizer a1 = CacheSpec.lookup_normalizer a2 →
            CacheSpec.lookup_fn_coarse a1 = CacheSpec.lookup_fn_coarse a2)
    as Hsound.
  { intros a1 a2. unfold CacheSpec.lookup_normalizer,
      CacheSpec.lookup_fn_coarse. by repeat case_decide. }
  assert (CacheSpec.coherent "1" CacheSpec.lookup_fn_coarse "lookup"
            CacheSpec.lookup_normalizer (Cache.DNumber (-1)) Cache.empty)
    as Hco by apply coherent_empty.
  split; [exact I|]. split; [done|]. split; [done|].
  destruct (calls_transparent_once_per_key "1" CacheSpec.lookup_fn_coarse
              "lookup" CacheSpec.lookup_normalizer (Cache.DNumber (-1)) I
              Hsound [0; 5; 0; 7] Cache.empty Hco)
    as (rs & s' & Hrun & Hrs & _ & _ & Hcnt).
  exists rs, s'. split; [exact Hrun|]. split; [exact Hrs | exact Hcnt].
Defined.

Lemma sentinel_result_reads_undefined_witness :
  CacheSpec.plain (Cache.DNumber (-1))
  ∧ CacheSpec.coherent "1" (λ _ : Z, Some (Cache.DNumber (-1))) "const"
      CacheSpec.lookup_normalizer (Cache.DNumber (-1)) Cache.empty
  ∧ ∃ s', Cache.memoizedFn "1" (λ _ : Z, Some (Cache.DNumber (-1))) "const"
            CacheSpec.lookup_normalizer (Some (Cache.DNumber (-1))) 3
            Cache.empty
          = (None, s').
Proof.
  assert (CacheSpec.coherent "1" (λ _ : Z, Some (Cache.DNumber (-1)))
            "const" CacheSpec.lookup_normalizer (Cache.DNumber (-1))
            Cache.empty) as Hco
    by apply coherent_empty.
  split; [exact I|]. split; [done|].
  destruct (sentinel_result_reads_undefined "1"
              (λ _ : Z, Some (Cache.DNumber (-1)))
              "const" CacheSpec.lookup_normalizer (Cache.DNumber (-1)) I
              3 Cache.empty Hco eq_refl) as (s' & Hcall & _).
  by exists s'.
Defined.

(** The cache after one call of the coarse function at 5: it holds the
    entry of the numbers other than 0. On it, [delete] for the argument
    7, which the normalizer files under the same key, removes that
    entry. *)
Lemma delete_forgets_one_key_witness :
  let warm :=
    (Cache.memoizedFn "1" CacheSpec.lookup_fn_coarse "lookup"
       CacheSpec.lookup_normalizer (Some (Cache.DNumber (-1))) 5
       Cache.empty).2 in
  CacheSpec.plain (Cache.DNumber (-1))
  ∧ CacheSpec.coherent "1" CacheSpec.lookup_fn_coarse "lookup"
      CacheSpec.lookup_normalizer (Cache.DNumber (-1)) warm
  ∧ Cache.entries warm
      !! Cache.getKey "1" "lookup" CacheSpec.lookup_normalizer 7
    = Some (Cache.DNumber 1)
  ∧ Cache.calls warm = 1%nat
  ∧ Cache.entries
      (Cache.memoizedFn_delete "1" "lookup" CacheSpec.lookup_normalizer 7
         warm)
      !! Cache.getKey "1" "lookup" CacheSpec.lookup_normalizer 7 = None
  ∧ ∃ s' d,
      Cache.memoizedFn "1" CacheSpec.lookup_fn_coarse "lookup"
        CacheSpec.lookup_normalizer (Some (Cache.DNumber (-1))) 7
        (Cache.memoizedFn_delete "1" "lookup" CacheSpec.lookup_normalizer 7
           warm)
      = (Some (Cache.DNumber 1), s')
      ∧ Cache.calls s' = 2%nat
      ∧ Cache.entries s'
          !! Cache.getKey "1" "lookup" CacheSpec.lookup_normalizer 7
        = Some d.
Proof.
  intros warm.
  assert (CacheSpec.coherent "1" CacheSpec.lookup_fn_coarse "lookup"
            CacheSpec.lookup_normalizer (Cache.DNumber (-1)) warm) as Hco.
  { apply memo_coherent; [|apply coherent_empty].
    intros a1 a2. unfold CacheSpec.lookup_normalizer,
      CacheSpec.lookup_fn_coarse. by repeat case_decide. }
  split; [exact I|]. split; [done|].
  split; [apply lookup_insert_eq|]. split; [done|].
  destruct (delete_forgets_one_key "1" CacheSpec.lookup_fn_coarse "lookup"
              CacheSpec.lookup_normalizer (Cache.DNumber (-1)) I 7 warm Hco)
    as (Hgone & _ & _ & s' & d & Hcall & Hcalls & Hentry & _).
  split; [exact Hgone|]. exists s', d.
  split; [exact Hcall|]. split; [exact Hcalls | exact Hentry].
Defined.

(** ** Keys of different memoized functions *)

Lemma string_app_cons (c : Ascii.ascii) (s t : string) :
  String c s +:+ t = String c (s +:+ t).
Proof. reflexivity. Qed.

Lemma string_app_assoc (s1 s2 s3 : string) :
  (s1 +:+ s2) +:+ s3 = s1 +:+ s2 +:+ s3.
Proof.
  induction s1 as [|c s1 IH]; [done|].
  by rewrite !string_app_cons, IH.
Qed.

Lemma no_dollar_prefix (k1 k2 x y : string) :
  no_dollar k1 = true → no_dollar k2 = true →
  k1 +:+ "$" +:+ x = k2 +:+ "$" +:+ y → k1 = k2.
Proof.
  revert k2. induction k1 as [|c k1 IH]; intros [|c' k2] H1 H2 Heq.
  - done.
  - rewrite string_app_cons in Heq. simpl in H2.
    change ("" +:+ "$" +:+ x) with (String (Ascii.ascii_of_nat 36) x) in Heq.
    injection Heq as <- _. by rewrite bool_decide_eq_true_2 in H2.
  - rewrite string_app_cons in Heq. simpl in H1.
    change ("" +:+ "$" +:+ y) with (String (Ascii.ascii_of_nat 36) y) in Heq.
    injection Heq as -> _. by rewrite bool_decide_eq_true_2 in H1.
  - rewrite !string_app_cons in Heq. simpl in H1, H2.
    injection Heq as -> Heq.
    apply andb_prop in H1 as [_ H1]. apply andb_prop in H2 as [_ H2].
    f_equal. by apply IH.
Qed.

(** X19. Memoized functions with different cache keys, or of different
    versions of the deployment, never meet in the cache: when neither the
    versions nor the cache keys hold a dollar sign, the keys that two such
    functions file their results under differ, whatever their normalizers
    make of the arguments. *)
Theorem cache_keys_apart {Args1 Args2 : Type} (v1 v2 k1 k2 : string)
    (n1 : Args1 → string) (n2 : Args2 → string) (a1 : Args1) (a2 : Args2) :
  no_dollar v1 = true → no_dollar v2 = true →
  no_dollar k1 = true → no_dollar k2 = true →
  (v1, k1) ≠ (v2, k2) →
  Cache.getKey v1 k1 n1 a1 ≠ Cache.getKey v2 k2 n2 a2.
Proof.
  intros Hv1 Hv2 Hk1 Hk2 Hne Heq. apply Hne. unfold Cache.getKey in Heq.
  rewrite !string_app_assoc in Heq.
  apply (inj (String.app _)) in Heq.
  pose proof (no_dollar_prefix _ _ _ _ Hv1 Hv2 Heq) as ->.
  do 2 apply (inj (String.app _)) in Heq.
  by rewrite (no_dollar_prefix _ _ _ _ Hk1 Hk2 Heq).
Qed.

Lemma cache_keys_apart_witness :
  Cache.getKey "1" "lookup" CacheSpec.lookup_normalizer 0
  ≠ Cache.getKey "1" "other" CacheSpec.lookup_normalizer 0.
Proof.
  by apply (cache_keys_apart "1" "1" "lookup" "other"
              CacheSpec.lookup_normalizer CacheSpec.lookup_normalizer 0 0).
Defined.
